(** * indusagi: the streaming protocol normalisation layer

    A shallow embedding of the parts of the [ai] package that the checked
    properties talk about: the context-overflow heuristic, the retry
    executor, the message transformation pipeline, the streaming JSON
    parser, the event stream and the provider registry; and, around
    them, the simple-options helpers, the shared provider helpers, the
    stream handler, the reader of the Kimi provider and the message
    helpers.

    Conventions.
    - A JavaScript string is a Rocq [string]; each [ascii] stands for one
      code unit below 256, so case mapping and the white-space class are
      the Latin-1 part of the ECMAScript tables.
    - A JavaScript number holding a count (tokens, attempts, milliseconds)
      is a [Z]; the code only adds, compares and doubles such numbers.
    - Code that can throw returns a [completion]. *)

From Stdlib Require Import ZArith Ascii String List Bool Lia.
From stdpp Require Import base gmap strings list.

Local Open Scope string_scope.
Local Open Scope Z_scope.

(** ** JavaScript strings *)

Module JsString.

Definition code (c : ascii) : N := N_of_ascii c.

Definition in_range (lo hi : N) (c : ascii) : bool :=
  ((lo <=? code c) && (code c <=? hi))%N.

(** [String.prototype.toLowerCase] on one code unit below 256:
    A-Z and the Latin-1 capitals U+00C0..U+00DE (without U+00D7). *)
Definition lower_char (c : ascii) : ascii :=
  if in_range 65 90 c then ascii_of_N (code c + 32)
  else if in_range 192 222 c && negb (code c =? 215)%N
       then ascii_of_N (code c + 32)
  else c.

Fixpoint toLowerCase (s : string) : string :=
  match s with
  | EmptyString => EmptyString
  | String c s' => String (lower_char c) (toLowerCase s')
  end.

(** The [Canonicalize] operation of a case-insensitive, non-Unicode
    regular expression: the upper-case mapping, kept only when it yields
    a single code unit that does not move a non-ASCII unit into ASCII.
    U+00B5, U+00DF and U+00FF have no such image below 256 that another
    unit below 256 shares, so they stay as they are. *)
Definition canonicalize (c : ascii) : ascii :=
  if in_range 97 122 c then ascii_of_N (code c - 32)
  else if in_range 224 254 c && negb (code c =? 247)%N
       then ascii_of_N (code c - 32)
  else c.

(** White space and line terminators below 256 (the class [\s], also
    what [trim] strips). *)
Definition is_space (c : ascii) : bool :=
  in_range 9 13 c || (code c =? 32)%N || (code c =? 160)%N.

Definition is_digit (c : ascii) : bool := in_range 48 57 c.

Definition is_line_terminator (c : ascii) : bool :=
  (code c =? 10)%N || (code c =? 13)%N.

Fixpoint startsWith (p s : string) : bool :=
  match p, s with
  | EmptyString, _ => true
  | String a p', String b s' => Ascii.eqb a b && startsWith p' s'
  | String _ _, EmptyString => false
  end.

(** [s.includes(needle)] *)
Fixpoint includes (s needle : string) : bool :=
  startsWith needle s ||
  match s with
  | EmptyString => false
  | String _ s' => includes s' needle
  end.

Fixpoint trimStart (s : string) : string :=
  match s with
  | EmptyString => EmptyString
  | String c s' => if is_space c then trimStart s' else s
  end.

Fixpoint all_space (s : string) : bool :=
  match s with
  | EmptyString => true
  | String c s' => is_space c && all_space s'
  end.

Fixpoint trimEnd (s : string) : string :=
  match s with
  | EmptyString => EmptyString
  | String c s' => if all_space s then EmptyString else String c (trimEnd s')
  end.

Definition trim (s : string) : string := trimEnd (trimStart s).

(** Truthiness of a string: every string but the empty one. *)
Definition truthy (s : string) : bool :=
  match s with EmptyString => false | _ => true end.

End JsString.

(** ** Regular expressions

    The fragment of ECMAScript regular expressions that the overflow table
    uses: literals, [.], [\d], [\s], a bracketed set, concatenation,
    alternation, [*], [+], [?], the flag [i] and a leading [^].  [test]
    is computed with derivatives; [Matches] is the usual declarative
    meaning, and [test_spec] relates the two. *)

Module Regex.
Import JsString.

Inductive atom : Type :=
| Lit (c : ascii)            (* a literal character *)
| AnyChar                    (* .  *)
| Digit                      (* \d *)
| Space                      (* \s *)
| OneOf (cs : list ascii).   (* [...] *)

Inductive regex : Type :=
| Void
| Eps
| Atom (a : atom)
| Seq (r1 r2 : regex)
| Alt (r1 r2 : regex)
| Star (r : regex).

Definition Plus (r : regex) : regex := Seq r (Star r).
Definition Opt (r : regex) : regex := Alt r Eps.

(** A literal run of characters, e.g. [prompt is too long]. *)
Fixpoint Str (s : string) : regex :=
  match s with
  | EmptyString => Eps
  | String c s' => Seq (Atom (Lit c)) (Str s')
  end.

(** A regular expression object: the pattern, whether it starts with
    [^], and the flag [i]. *)
Record RegExp : Type := mkRegExp {
  anchored : bool;
  ignoreCase : bool;
  body : regex
}.

Definition same_char (i : bool) (c x : ascii) : bool :=
  if i then Ascii.eqb (canonicalize c) (canonicalize x) else Ascii.eqb c x.

Definition atom_ok (i : bool) (a : atom) (x : ascii) : bool :=
  match a with
  | Lit c => same_char i c x
  | AnyChar => negb (is_line_terminator x)
  | Digit => is_digit x
  | Space => is_space x
  | OneOf cs => existsb (fun c => same_char i c x) cs
  end.

Fixpoint nullable (r : regex) : bool :=
  match r with
  | Void => false
  | Eps => true
  | Atom _ => false
  | Seq r1 r2 => nullable r1 && nullable r2
  | Alt r1 r2 => nullable r1 || nullable r2
  | Star _ => true
  end.

Fixpoint deriv (i : bool) (x : ascii) (r : regex) : regex :=
  match r with
  | Void => Void
  | Eps => Void
  | Atom a => if atom_ok i a x then Eps else Void
  | Seq r1 r2 =>
      if nullable r1
      then Alt (Seq (deriv i x r1) r2) (deriv i x r2)
      else Seq (deriv i x r1) r2
  | Alt r1 r2 => Alt (deriv i x r1) (deriv i x r2)
  | Star r1 => Seq (deriv i x r1) (Star r1)
  end.

(** Does some prefix of [s] match [r]? *)
Fixpoint match_prefix (i : bool) (r : regex) (s : string) : bool :=
  nullable r ||
  match s with
  | EmptyString => false
  | String x s' => match_prefix i (deriv i x r) s'
  end.

(** Does a match start at some position of [s]? *)
Fixpoint search (i : bool) (r : regex) (s : string) : bool :=
  match_prefix i r s ||
  match s with
  | EmptyString => false
  | String _ s' => search i r s'
  end.

(** [re.test(s)] *)
Definition test (re : RegExp) (s : string) : bool :=
  if anchored re then match_prefix (ignoreCase re) (body re) s
  else search (ignoreCase re) (body re) s.

(** Declarative meaning. *)
Inductive Matches (i : bool) : regex -> string -> Prop :=
| MEps : Matches i Eps ""
| MAtom a x : atom_ok i a x = true -> Matches i (Atom a) (String x "")
| MSeq r1 r2 s1 s2 :
    Matches i r1 s1 -> Matches i r2 s2 -> Matches i (Seq r1 r2) (s1 +:+ s2)
| MAltL r1 r2 s : Matches i r1 s -> Matches i (Alt r1 r2) s
| MAltR r1 r2 s : Matches i r2 s -> Matches i (Alt r1 r2) s
| MStarNil r : Matches i (Star r) ""
| MStarApp r s1 s2 :
    Matches i r s1 -> Matches i (Star r) s2 -> Matches i (Star r) (s1 +:+ s2).

(** [s] contains a match of [re]: [s = pre +:+ m +:+ post] with [m] in the
    language of the pattern, and [pre] empty under [^]. *)
Definition Found (re : RegExp) (s : string) : Prop :=
  exists pre m post,
    s = pre +:+ m +:+ post /\
    Matches (ignoreCase re) (body re) m /\
    (anchored re = true -> pre = "").

End Regex.

(** ** Messages (ai/types) *)

Module Types.

(** Modelled from the spec: the declarations of ai/types (stop reasons,
    usage, content blocks, messages, models) are not among the sources.
    They follow the data model of the specification and the fields that
    the code and the tests read and write. *)
Inductive StopReason : Type :=
| stop | length | toolUse | error | aborted.

Definition StopReason_eqb (a b : StopReason) : bool :=
  match a, b with
  | stop, stop | length, length | toolUse, toolUse
  | error, error | aborted, aborted => true
  | _, _ => false
  end.

(** Token counts; the derived [cost] record is not needed here. *)
Record Usage : Type := mkUsage {
  input : Z;
  output : Z;
  cacheRead : Z;
  cacheWrite : Z;
  totalTokens : Z
}.

(** Tool-call arguments are opaque to everything modelled here. *)
Definition Args : Type := string.

Record ToolCall : Type := mkToolCall {
  id : string;
  name : string;
  arguments : Args;
  thoughtSignature : option string
}.

Inductive Block : Type :=
| TextBlock (text : string)
| ThinkingBlock (thinking : string) (thinkingSignature : option string)
| ToolCallBlock (tc : ToolCall).

Record AssistantMessage : Type := mkAssistant {
  content : list Block;
  api : string;
  provider : string;
  model : string;
  usage : Usage;
  stopReason : StopReason;
  errorMessage : option string;
  timestamp : Z
}.

Record ToolResultMessage : Type := mkToolResult {
  toolCallId : string;
  toolName : string;
  resultContent : list Block;
  isError : bool;
  resultTimestamp : Z
}.

Record UserMessage : Type := mkUser {
  userContent : string;
  userTimestamp : Z
}.

Inductive Message : Type :=
| User (m : UserMessage)
| Assistant (m : AssistantMessage)
| ToolResult (m : ToolResultMessage).

Record Model : Type := mkModel {
  model_id : string;
  model_api : string;
  model_provider : string
}.

End Types.

(** ** Overflow detection (ai/utils/overflow) *)

Module Overflow.
Import JsString Regex Types.

Record OverflowPatternConfig : Type := mkEntry {
  pattern : RegExp;
  suggestion : string
}.

(** [/src/i] *)
Definition re_i (r : regex) : RegExp := mkRegExp false true r.

Definition digits : regex := Plus (Atom Digit).

Definition OVERFLOW_PATTERN_CONFIG : list OverflowPatternConfig :=
  [ mkEntry (re_i (Str "prompt is too long"))
      "Trim prior messages or reduce system prompt size.";
    mkEntry (re_i (Str "input is too long for requested model"))
      "Use a larger context model or shorten history.";
    mkEntry (re_i (Str "exceeds the context window"))
      "Drop old turns and retry with summarized context.";
    mkEntry (re_i (Seq (Str "input token count")
                    (Seq (Star (Atom AnyChar)) (Str "exceeds the maximum"))))
      "Reduce attachments or split the request.";
    mkEntry (re_i (Seq (Str "maximum prompt length is ") digits))
      "Decrease prompt/tool-result verbosity.";
    mkEntry (re_i (Str "reduce the length of the messages"))
      "Compress or summarize conversation state.";
    mkEntry (re_i (Seq (Str "maximum context length is ")
                    (Seq digits (Str " tokens"))))
      "Select a provider/model with larger window.";
    mkEntry (re_i (Seq (Str "exceeds the limit of ") digits))
      "Remove large blocks in latest user/tool messages.";
    mkEntry (re_i (Str "exceeds the available context size"))
      "Increase server context if supported.";
    mkEntry (re_i (Str "greater than the context length"))
      "Lower keep tokens / trim prompt.";
    mkEntry (re_i (Str "context window exceeds limit"))
      "Summarize earlier turns before retrying.";
    mkEntry (re_i (Seq (Str "context")
                    (Seq (Atom (OneOf ["_"; " "]%char))
                       (Seq (Str "length")
                          (Seq (Atom (OneOf ["_"; " "]%char))
                             (Str "exceeded"))))))
      "Prune context to fit model limits.";
    mkEntry (re_i (Str "too many tokens"))
      "Shorten request and retry.";
    mkEntry (re_i (Str "token limit exceeded"))
      "Trim input and reduce output token budget." ].

(** [/^4(00|13|29)\s*(status code)?\s*\(no body\)/i] *)
Definition STATUS_NO_BODY : RegExp :=
  mkRegExp true true
    (Seq (Str "4")
       (Seq (Alt (Str "00") (Alt (Str "13") (Str "29")))
          (Seq (Star (Atom Space))
             (Seq (Opt (Str "status code"))
                (Seq (Star (Atom Space)) (Str "(no body)")))))).

Definition isContextOverflow (message : AssistantMessage)
    (contextWindow : option Z) : bool :=
  let by_error :=
    match errorMessage message with
    | Some e =>
        StopReason_eqb (stopReason message) error && truthy e &&
        (existsb (fun entry => test (pattern entry) e) OVERFLOW_PATTERN_CONFIG
         || test STATUS_NO_BODY e)
    | None => false
    end in
  if by_error then true
  else
    match contextWindow with
    | Some w =>
        if negb (w =? 0)%Z && StopReason_eqb (stopReason message) stop then
          let inputTokens := input (usage message) + cacheRead (usage message) in
          inputTokens >? w
        else false
    | None => false
    end.

Definition getOverflowPatterns : list RegExp :=
  map pattern OVERFLOW_PATTERN_CONFIG.

Definition getOverflowSuggestion (errorMessage : option string)
    : option string :=
  match errorMessage with
  | None => None
  | Some e =>
      if negb (truthy e) then None
      else
        match find (fun entry => test (pattern entry) e)
                OVERFLOW_PATTERN_CONFIG with
        | Some entry => Some (suggestion entry)
        | None =>
            if test STATUS_NO_BODY e
            then Some "Provider returned a generic overflow-like status. Retry with shorter context."
            else None
        end
  end.

(** The condition under which the specification says an overflow is
    reported: an error message that contains one of the phrasings, or a
    normal stop whose input side exceeds a supplied window. *)
Definition overflow_as_specified (m : AssistantMessage) (w : option Z) : Prop :=
  (stopReason m = error /\
   exists e, errorMessage m = Some e /\
     ((exists entry, In entry OVERFLOW_PATTERN_CONFIG /\ Found (pattern entry) e)
      \/ Found STATUS_NO_BODY e))
  \/
  (exists cw, w = Some cw /\ stopReason m = stop /\
     input (usage m) + cacheRead (usage m) > cw).

(** The condition the code implements: as above, and a window of 0
    counts as no window. *)
Definition overflow_condition (m : AssistantMessage) (w : option Z) : Prop :=
  (stopReason m = error /\
   exists e, errorMessage m = Some e /\
     ((exists entry, In entry OVERFLOW_PATTERN_CONFIG /\ Found (pattern entry) e)
      \/ Found STATUS_NO_BODY e))
  \/
  (exists cw, w = Some cw /\ cw <> 0 /\ stopReason m = stop /\
     input (usage m) + cacheRead (usage m) > cw).

Definition zeroUsage : Usage := mkUsage 0 0 0 0 0.

Definition errorMsg (e : string) : AssistantMessage :=
  mkAssistant [] "" "" "" zeroUsage error (Some e) 0.

Definition stopMsg (inp cr : Z) : AssistantMessage :=
  mkAssistant [] "" "" "" (mkUsage inp 0 cr 0 0) stop None 0.

End Overflow.

(** ** Completions: a value returned or a value thrown *)

Module Completion.

Inductive completion (E A : Type) : Type :=
| Returns (a : A)
| Throws (e : E).

Arguments Returns {E A} a.
Arguments Throws {E A} e.

(** [try { body } catch (e) { handler(e) }] *)
Definition try_catch {E A} (body : completion E A)
    (handler : E -> completion E A) : completion E A :=
  match body with
  | Returns a => Returns a
  | Throws e => handler e
  end.

End Completion.

(** ** The retry executor (ai/providers/simple-options) *)

Module Retry.
Import JsString Completion.

Inductive ErrorCode : Type :=
| rate_limit | timeout | network | validation | auth | unknown.

(** A value that was thrown: a [SimpleOptionsProviderError] (with the
    error it wraps, if any), some other [Error], or a value that is not
    an [Error] at all (shown by a description of it).  A missing
    [cause] is the value [undefined]. *)
Inductive thrown : Type :=
| ProviderError (message : string) (code : ErrorCode) (cause : thrown)
| JsError (message : string)
| NotAnError (description : string).

Definition undefined : thrown := NotAnError "undefined".

Definition code_of (e : thrown) : option ErrorCode :=
  match e with
  | ProviderError _ c _ => Some c
  | _ => None
  end.

Definition normalizeProviderError (error : thrown) : thrown :=
  match error with
  | ProviderError _ _ _ => error
  | JsError msg =>
      let message := toLowerCase msg in
      if includes message "rate" && includes message "limit"
      then ProviderError msg rate_limit error
      else if includes message "timeout" || includes message "timed out"
      then ProviderError msg timeout error
      else if includes message "network" || includes message "fetch"
      then ProviderError msg network error
      else if includes message "auth" || includes message "unauthorized"
              || includes message "forbidden"
      then ProviderError msg auth error
      else if includes message "invalid" || includes message "schema"
              || includes message "validation"
      then ProviderError msg validation error
      else ProviderError msg unknown error
  | NotAnError _ => ProviderError "Unknown provider error" unknown error
  end.

Record RetryPolicy : Type := mkPolicy {
  maxAttempts : Z;
  baseDelayMs : Z;
  maxDelayMs : option Z;
  shouldRetry : option (thrown -> Z -> bool)
}.

Definition MAX_SAFE_INTEGER : Z := 2 ^ 53 - 1.

Definition defaultRetryable (normalized : thrown) : bool :=
  match code_of normalized with
  | Some rate_limit | Some timeout | Some network => true
  | _ => false
  end.

Section Executor.
(** The operation is a closure over some state [S] of its own (a
    connection, a counter, an abort signal): one invocation takes the
    state to a new one and returns or throws. *)
Context {S T : Type}.
Variable operation : S -> completion thrown T * S.
Variable policy : RetryPolicy.

(** What an execution leaves behind: the operation's state, how often
    the operation was invoked, and the delays slept, oldest first. *)
Record trace : Type := mkTrace {
  opState : S;
  invocations : nat;
  delays : list Z
}.

(** The [while] loop.  [fuel] bounds the iterations; [attempt] and
    [lastError] are the loop's variables. *)
Fixpoint retry_loop (fuel : nat) (attempt : Z) (lastError : thrown)
    (t : trace) : option (completion thrown T * trace) :=
  match fuel with
  | O => None
  | Datatypes.S fuel' =>
      if attempt <? maxAttempts policy then
        let attempt := attempt + 1 in
        let '(r, s') := operation (opState t) in
        let t := mkTrace s' (Datatypes.S (invocations t)) (delays t) in
        match r with
        | Returns v => Some (Returns v, t)
        | Throws error =>
            let lastError := error in
            let normalized := normalizeProviderError error in
            let retryable :=
              match shouldRetry policy with
              | Some f => f error attempt
              | None => defaultRetryable normalized
              end in
            if negb retryable || (attempt >=? maxAttempts policy)
            then Some (Throws normalized, t)
            else
              let maxDelay :=
                match maxDelayMs policy with
                | Some d => d
                | None => MAX_SAFE_INTEGER
                end in
              let backoff :=
                Z.min (baseDelayMs policy * 2 ^ (attempt - 1)) maxDelay in
              retry_loop fuel' attempt lastError
                (mkTrace (opState t) (invocations t) (delays t ++ [backoff]))
        end
      else Some (Throws (normalizeProviderError lastError), t)
  end.

(** Every iteration but the last adds one to [attempt], so
    [maxAttempts + 1] iterations are enough. *)
Definition executeWithRetry (s : S) : option (completion thrown T * trace) :=
  retry_loop (Datatypes.S (Z.to_nat (maxAttempts policy))) 0 undefined
    (mkTrace s O []).

End Executor.

Arguments mkTrace {S} _ _ _.
Arguments opState {S} _.
Arguments invocations {S} _.
Arguments delays {S} _.

(** *** Cancellation, as the callers arrange it (providers/kimi) *)

Record AbortSignal : Type := mkSignal { aborted : bool }.

(** The policy a provider passes: one attempt when the request carries a
    signal, three otherwise. *)
Definition requestPolicy (signal : option AbortSignal) : RetryPolicy :=
  mkPolicy (match signal with Some _ => 1 | None => 3 end) 250 None None.

(** [fetch(url, { signal })]: it rejects at once when the signal is
    already aborted, and answers otherwise. *)
Definition fetch (signal : option AbortSignal) :
    unit -> completion thrown string * unit :=
  fun s =>
    match signal with
    | Some sg => if aborted sg
                 then (Throws (JsError "This operation was aborted"), s)
                 else (Returns "response", s)
    | None => (Returns "response", s)
    end.

End Retry.
(** ** The message transformation pipeline (ai/providers/transform-messages) *)

Module Transform.
Import JsString Completion Types.
Local Close Scope string_scope.

(** [normalizeToolCallId?: (id, model, source) => string] *)
Definition Normalizer : Type := string -> Model -> AssistantMessage -> string.

Record MessageTransformContext : Type := mkContext {
  ctx_model : Model;
  normalizeToolCallId : option Normalizer
}.

Record MessageTransformation : Type := mkTransformation {
  transformation_name : string;
  apply : list Message -> MessageTransformContext -> list Message
}.

(** *** Stage 1: normalize-assistant-content *)

Definition isSameModel (model : Model) (assistantMsg : AssistantMessage) : bool :=
  String.eqb (provider assistantMsg) (model_provider model) &&
  String.eqb (api assistantMsg) (model_api model) &&
  String.eqb (Types.model assistantMsg) (model_id model).

(** Truthiness of an optional string field. *)
Definition present (s : option string) : bool :=
  match s with Some s => truthy s | None => false end.

(** The callback of [content.flatMap]: the blocks that replace [block],
    and the id table after it. *)
Definition normalizeBlock (context : MessageTransformContext)
    (assistantMsg : AssistantMessage) (toolCallIdMap : gmap string string)
    (block : Block) : list Block * gmap string string :=
  let same := isSameModel (ctx_model context) assistantMsg in
  match block with
  | ThinkingBlock thinking signature =>
      if same && present signature then ([block], toolCallIdMap)
      else if negb (truthy thinking) || String.eqb (trim thinking) ""%string
      then ([], toolCallIdMap)
      else if same then ([block], toolCallIdMap)
      else ([TextBlock thinking], toolCallIdMap)
  | TextBlock text =>
      if same then ([block], toolCallIdMap)
      else ([TextBlock text], toolCallIdMap)
  | ToolCallBlock toolCall =>
      let normalizedToolCall :=
        if negb same && present (thoughtSignature toolCall)
        then mkToolCall (id toolCall) (name toolCall) (arguments toolCall) None
        else toolCall in
      match normalizeToolCallId context with
      | Some normalize =>
          if negb same then
            let normalizedId :=
              normalize (id toolCall) (ctx_model context) assistantMsg in
            if negb (String.eqb normalizedId (id toolCall)) then
              ([ToolCallBlock
                  (mkToolCall normalizedId (name normalizedToolCall)
                     (arguments normalizedToolCall)
                     (thoughtSignature normalizedToolCall))],
               <[id toolCall := normalizedId]> toolCallIdMap)
            else ([ToolCallBlock normalizedToolCall], toolCallIdMap)
          else ([ToolCallBlock normalizedToolCall], toolCallIdMap)
      | None => ([ToolCallBlock normalizedToolCall], toolCallIdMap)
      end
  end.

Fixpoint normalizeContent (context : MessageTransformContext)
    (assistantMsg : AssistantMessage) (toolCallIdMap : gmap string string)
    (blocks : list Block) : list Block * gmap string string :=
  match blocks with
  | [] => ([], toolCallIdMap)
  | block :: rest =>
      let '(bs, m1) := normalizeBlock context assistantMsg toolCallIdMap block in
      let '(bs', m2) := normalizeContent context assistantMsg m1 rest in
      (bs ++ bs', m2)
  end.

Definition withContent (a : AssistantMessage) (c : list Block) : AssistantMessage :=
  mkAssistant c (api a) (provider a) (model a) (usage a) (stopReason a)
    (errorMessage a) (timestamp a).

Definition withToolCallId (r : ToolResultMessage) (i : string) : ToolResultMessage :=
  mkToolResult i (toolName r) (resultContent r) (isError r) (resultTimestamp r).

(** The callback of [messages.map]. *)
Definition normalizeMessage (context : MessageTransformContext)
    (toolCallIdMap : gmap string string) (msg : Message)
    : Message * gmap string string :=
  match msg with
  | User _ => (msg, toolCallIdMap)
  | ToolResult r =>
      match toolCallIdMap !! toolCallId r with
      | Some normalizedId =>
          if truthy normalizedId && negb (String.eqb normalizedId (toolCallId r))
          then (ToolResult (withToolCallId r normalizedId), toolCallIdMap)
          else (msg, toolCallIdMap)
      | None => (msg, toolCallIdMap)
      end
  | Assistant assistantMsg =>
      let '(transformedContent, m) :=
        normalizeContent context assistantMsg toolCallIdMap (content assistantMsg) in
      (Assistant (withContent assistantMsg transformedContent), m)
  end.

Fixpoint normalizeMessages (context : MessageTransformContext)
    (toolCallIdMap : gmap string string) (messages : list Message)
    : list Message :=
  match messages with
  | [] => []
  | msg :: rest =>
      let '(msg', m) := normalizeMessage context toolCallIdMap msg in
      msg' :: normalizeMessages context m rest
  end.

Definition NormalizeAssistantContentTransformation : MessageTransformation :=
  mkTransformation "normalize-assistant-content"
    (fun messages context => normalizeMessages context ∅ messages).

(** *** Stage 2: insert-synthetic-tool-results *)

(** The loop's variables, and how many times [Date.now()] was read. *)
Record RepairState : Type := mkRepair {
  result : list Message;
  pendingToolCalls : list ToolCall;
  existingToolResultIds : gset string;
  ticks : nat
}.

Section Repair.
(** [clock n] is what the [n]-th reading of [Date.now()] gives. *)
Variable clock : nat -> Z.

Definition syntheticToolResult (toolCall : ToolCall) (now : Z)
    : ToolResultMessage :=
  mkToolResult (id toolCall) (name toolCall)
    [TextBlock "No result provided"%string] true now.

Definition push (msg : Message) (st : RepairState) : RepairState :=
  mkRepair (result st ++ [msg]) (pendingToolCalls st)
    (existingToolResultIds st) (ticks st).

(** [for (const tc of pendingToolCalls) if (!existing.has(tc.id)) ...] *)
Fixpoint insertMissing (pending : list ToolCall) (st : RepairState)
    : RepairState :=
  match pending with
  | [] => st
  | tc :: rest =>
      if decide (id tc ∈ existingToolResultIds st)
      then insertMissing rest st
      else
        insertMissing rest
          (mkRepair
             (result st ++ [ToolResult (syntheticToolResult tc (clock (ticks st)))])
             (pendingToolCalls st) (existingToolResultIds st)
             (Datatypes.S (ticks st)))
  end.

(** The block guarded by [pendingToolCalls.length > 0]. *)
Definition flushPending (st : RepairState) : RepairState :=
  match pendingToolCalls st with
  | [] => st
  | _ :: _ =>
      let st := insertMissing (pendingToolCalls st) st in
      mkRepair (result st) [] ∅ (ticks st)
  end.

Definition toolCallsOf (blocks : list Block) : list ToolCall :=
  flat_map (fun b => match b with ToolCallBlock tc => [tc] | _ => [] end) blocks.

Definition dropped (a : AssistantMessage) : bool :=
  StopReason_eqb (stopReason a) error || StopReason_eqb (stopReason a) aborted.

(** One iteration of [for (const msg of messages)]. *)
Definition repairStep (st : RepairState) (msg : Message) : RepairState :=
  match msg with
  | Assistant assistantMsg =>
      let st := flushPending st in
      if dropped assistantMsg then st
      else
        let toolCalls := toolCallsOf (content assistantMsg) in
        let st :=
          match toolCalls with
          | [] => st
          | _ :: _ => mkRepair (result st) toolCalls ∅ (ticks st)
          end in
        push msg st
  | ToolResult r =>
      push msg
        (mkRepair (result st) (pendingToolCalls st)
           ({[toolCallId r]} ∪ existingToolResultIds st) (ticks st))
  | User _ => push msg (flushPending st)
  end.

Definition repairInit : RepairState := mkRepair [] [] ∅ O.

Definition insertSyntheticToolResults (messages : list Message) : list Message :=
  result (fold_left repairStep messages repairInit).

Definition InsertSyntheticToolResultsTransformation : MessageTransformation :=
  mkTransformation "insert-synthetic-tool-results"
    (fun messages _ => insertSyntheticToolResults messages).

End Repair.

(** *** The pipeline *)

(** Modelled from the spec: [validateMessage] of ai/types, which is not
    among the sources.  It rejects a value that is not structurally a
    user, assistant or tool-result message; every value of [Message] is
    one by construction, so it accepts. *)
Definition validateMessage (m : Message) : completion string unit :=
  match m with
  | User _ | Assistant _ | ToolResult _ => Returns tt
  end.

Fixpoint validateAll (messages : list Message) : completion string unit :=
  match messages with
  | [] => Returns tt
  | m :: rest =>
      match validateMessage m with
      | Returns _ => validateAll rest
      | Throws e => Throws e
      end
  end.

Fixpoint runTransformations (transformations : list MessageTransformation)
    (current : list Message) (context : MessageTransformContext)
    : completion string (list Message) :=
  match transformations with
  | [] => Returns current
  | transformation :: rest =>
      let current := apply transformation current context in
      match validateAll current with
      | Returns _ => runTransformations rest current context
      | Throws e => Throws e
      end
  end.

(** [MessageTransformationPipeline.transform]; the [debug] hook is left
    out, [transformMessages] passes none. *)
Definition transform (transformations : list MessageTransformation)
    (messages : list Message) (context : MessageTransformContext)
    : completion string (list Message) :=
  match validateAll messages with
  | Returns _ => runTransformations transformations messages context
  | Throws e => Throws e
  end.

Definition transformMessages (clock : nat -> Z) (messages : list Message)
    (model : Model) (normalizeToolCallId : option Normalizer)
    : completion string (list Message) :=
  transform
    [NormalizeAssistantContentTransformation;
     InsertSyntheticToolResultsTransformation clock]
    messages (mkContext model normalizeToolCallId).

(** The normalizer of the specification's example: [id => "norm-" + id]. *)
Definition normPrefix : Normalizer := fun id _ _ => ("norm-" +:+ id)%string.

(** A result message made by [syntheticToolResult]. *)
Definition isSynthetic (m : Message) : bool :=
  match m with
  | ToolResult r =>
      isError r &&
      match resultContent r with
      | [TextBlock t] => String.eqb t "No result provided"%string
      | _ => false
      end
  | _ => false
  end.

End Transform.
(** ** The streaming JSON parser (ai/utils/json-parse) *)

Module JsonParse.
Import JsString Completion.

(** A parsed value.  Numbers and strings keep their source text. *)
#[warnings="-register-all"]
Inductive json : Type :=
| JNull
| JBool (b : bool)
| JNumber (lexeme : string)
| JString (text : string)
| JArray (items : list json)
| JObject (members : list (string * json)).

(** What a parser throws: an [Error] with its message, or any other
    value with what [String(...)] makes of it. *)
Inductive thrownValue : Type :=
| ErrorObject (message : string)
| OtherValue (asString : string).

(** [e instanceof Error ? e.message : String(e)] *)
Definition errorText (e : thrownValue) : string :=
  match e with
  | ErrorObject m => m
  | OtherValue s => s
  end.

Record StreamingJsonParseOptions : Type := mkOptions {
  fallbackValue : option json;
  allowPartial : option bool;
  trimInput : option bool
}.

(** [options = {}] *)
Definition noOptions : StreamingJsonParseOptions := mkOptions None None None.

Record StreamingJsonParseResult : Type := mkResult {
  value : json;
  parsed : bool;
  usedPartialParser : bool;
  error : option string
}.

(** [a ?? b], with [None] for [undefined]. *)
Definition nullish (a : option json) (b : json) : json :=
  match a with
  | None | Some JNull => b
  | Some v => v
  end.

Section Parser.
(** [JSON.parse] and the [parse] of the package partial-json: each
    returns a value or throws. *)
Variable JSON_parse : string -> completion thrownValue json.
Variable partialParse : string -> completion thrownValue json.

Definition parseStreamingJsonWithDiagnostics (partialJson : option string)
    (options : StreamingJsonParseOptions)
    : completion thrownValue StreamingJsonParseResult :=
  let fallback := nullish (fallbackValue options) (JObject []) in
  let input :=
    match trimInput options with
    | Some false => partialJson
    | _ => option_map trim partialJson
    end in
  match input with
  | None => Returns (mkResult fallback false false None)
  | Some input =>
      if negb (truthy input)
      then Returns (mkResult fallback false false None)
      else
        try_catch
          (match JSON_parse input with
           | Returns v => Returns (mkResult v true false None)
           | Throws e => Throws e
           end)
          (fun jsonError =>
             match allowPartial options with
             | Some false =>
                 Returns (mkResult fallback false false
                            (Some (errorText jsonError)))
             | _ =>
                 try_catch
                   (match partialParse input with
                    | Returns result =>
                        Returns (mkResult (nullish (Some result) fallback)
                                   true true None)
                    | Throws e => Throws e
                    end)
                   (fun partialError =>
                      Returns (mkResult fallback false true
                                 (Some (errorText partialError))))
             end)
  end.

Definition parseStreamingJson (partialJson : option string)
    (options : StreamingJsonParseOptions) : completion thrownValue json :=
  match parseStreamingJsonWithDiagnostics partialJson options with
  | Returns r => Returns (value r)
  | Throws e => Throws e
  end.

End Parser.

(** The two texts of the specification's example. *)
Definition quote : string := String "034"%char EmptyString.
Definition openObject : string := "{" +:+ quote +:+ "a" +:+ quote +:+ ":".
Definition notJson : string := "not json".

End JsonParse.

(** ** A reader of JSON text

    A strict reader after RFC 8259, standing for [JSON.parse], and a
    tolerant one that keeps what was complete when the text ends early,
    standing for partial-json.  Both are one recursive descent; they
    differ in what they do at the end of the text. *)

Module JsonText.
Import JsString Completion JsonParse.

Inductive presult : Type :=
| POk (v : json) (rest : string)   (* a value, and the text after it *)
| PCut (v : option json)           (* the text ended inside the value *)
| PBad (msg : string).

Definition is_ws (c : ascii) : bool :=
  (code c =? 32)%N || (code c =? 9)%N || (code c =? 10)%N || (code c =? 13)%N.

Fixpoint skipWs (s : string) : string :=
  match s with
  | String c s' => if is_ws c then skipWs s' else s
  | EmptyString => s
  end.

(** [null], [true], [false]: [w] is what is left of the word. *)
Fixpoint literal (w : string) (v : json) (s : string) : presult :=
  match w, s with
  | EmptyString, _ => POk v s
  | String _ _, EmptyString => PCut (Some v)
  | String a w', String b s' =>
      if Ascii.eqb a b then literal w' v s' else PBad "Unexpected token"
  end.

(** Numbers: an optional minus, an integer part without a leading zero,
    an optional fraction and an optional exponent, as an automaton. *)
Inductive nstate : Type :=
| NStart | NMinus | NZero | NInt | NDot | NFrac | NExp | NExpSign | NExpDigits
| NFail.

Definition nstep (st : nstate) (c : ascii) : nstate :=
  let d := is_digit c in
  let z := (code c =? 48)%N in
  let e := (code c =? 101)%N || (code c =? 69)%N in
  let sign := (code c =? 43)%N || (code c =? 45)%N in
  match st with
  | NStart => if (code c =? 45)%N then NMinus
              else if z then NZero else if d then NInt else NFail
  | NMinus => if z then NZero else if d then NInt else NFail
  | NZero => if (code c =? 46)%N then NDot else if e then NExp else NFail
  | NInt => if d then NInt else if (code c =? 46)%N then NDot
            else if e then NExp else NFail
  | NDot => if d then NFrac else NFail
  | NFrac => if d then NFrac else if e then NExp else NFail
  | NExp => if sign then NExpSign else if d then NExpDigits else NFail
  | NExpSign => if d then NExpDigits else NFail
  | NExpDigits => if d then NExpDigits else NFail
  | NFail => NFail
  end.

Definition naccepts (st : nstate) : bool :=
  match st with
  | NZero | NInt | NFrac | NExpDigits => true
  | _ => false
  end.

Definition is_numchar (c : ascii) : bool :=
  is_digit c || (code c =? 45)%N || (code c =? 43)%N || (code c =? 46)%N
  || (code c =? 101)%N || (code c =? 69)%N.

(** Reads the run of number characters; [best] is the longest prefix
    read so far that is a number. *)
Fixpoint number (st : nstate) (acc : string) (best : option string)
    (s : string) : presult :=
  match s with
  | EmptyString =>
      if naccepts st then POk (JNumber acc) EmptyString
      else PCut (option_map JNumber best)
  | String c s' =>
      if is_numchar c then
        let st' := nstep st c in
        let acc' := acc +:+ String c EmptyString in
        match st' with
        | NFail => PBad "Invalid number"
        | _ => number st' acc' (if naccepts st' then Some acc' else best) s'
        end
      else if naccepts st then POk (JNumber acc) s
      else PBad "Invalid number"
  end.

Definition is_hex (c : ascii) : bool :=
  is_digit c || in_range 65 70 c || in_range 97 102 c.

Definition is_escape (c : ascii) : bool :=
  existsb (Ascii.eqb c) ["034"; "\"; "/"; "b"; "f"; "n"; "r"; "t"]%char.

(** The text of a string after its opening quote, up to the closing one. *)
Fixpoint stringBody (acc : string) (s : string) : presult :=
  match s with
  | EmptyString => PCut (Some (JString acc))
  | String c s' =>
      if (code c =? 34)%N then POk (JString acc) s'
      else if (code c <? 32)%N then PBad "Bad control character in string literal"
      else if (code c =? 92)%N then
        match s' with
        | EmptyString => PCut (Some (JString acc))
        | String e s'' =>
            if is_escape e
            then stringBody (acc +:+ String c (String e EmptyString)) s''
            else if (code e =? 117)%N then
              match s'' with
              | String h1 (String h2 (String h3 (String h4 s3))) =>
                  if is_hex h1 && is_hex h2 && is_hex h3 && is_hex h4
                  then stringBody
                         (acc +:+ String c (String e (String h1 (String h2
                                   (String h3 (String h4 EmptyString)))))) s3
                  else PBad "Bad Unicode escape"
              | _ => PCut (Some (JString acc))
              end
            else PBad "Bad escaped character"
        end
      else stringBody (acc +:+ String c EmptyString) s'
  end.

Definition textOf (v : json) : string :=
  match v with JString t => t | _ => EmptyString end.

Fixpoint parseValue (fuel : nat) (s : string) : presult :=
  match fuel with
  | O => PBad "Nesting too deep"
  | S fuel' =>
      match s with
      | EmptyString => PCut None
      | String c s' =>
          if (code c =? 123)%N then
            match skipWs s' with
            | EmptyString => PCut (Some (JObject []))
            | String d s'' =>
                if (code d =? 125)%N then POk (JObject []) s''
                else parseMembers fuel' [] (String d s'')
            end
          else if (code c =? 91)%N then
            match skipWs s' with
            | EmptyString => PCut (Some (JArray []))
            | String d s'' =>
                if (code d =? 93)%N then POk (JArray []) s''
                else parseElements fuel' [] (String d s'')
            end
          else if (code c =? 34)%N then stringBody EmptyString s'
          else if (code c =? 110)%N then literal "ull" JNull s'
          else if (code c =? 116)%N then literal "rue" (JBool true) s'
          else if (code c =? 102)%N then literal "alse" (JBool false) s'
          else if is_digit c || (code c =? 45)%N then number NStart EmptyString None s
          else PBad "Unexpected token"
      end
  end

with parseElements (fuel : nat) (acc : list json) (s : string) : presult :=
  match fuel with
  | O => PBad "Nesting too deep"
  | S fuel' =>
      match parseValue fuel' (skipWs s) with
      | POk v rest =>
          match skipWs rest with
          | EmptyString => PCut (Some (JArray (acc ++ [v])%list))
          | String c rest' =>
              if (code c =? 44)%N then parseElements fuel' (acc ++ [v])%list rest'
              else if (code c =? 93)%N then POk (JArray (acc ++ [v])%list) rest'
              else PBad "Expected ',' or ']' after array element"
          end
      | PCut (Some v) => PCut (Some (JArray (acc ++ [v])%list))
      | PCut None => PCut (Some (JArray acc))
      | PBad m => PBad m
      end
  end

with parseMembers (fuel : nat) (acc : list (string * json)) (s : string)
    : presult :=
  match fuel with
  | O => PBad "Nesting too deep"
  | S fuel' =>
      match skipWs s with
      | EmptyString => PCut (Some (JObject acc))
      | String q s' =>
          if negb (code q =? 34)%N
          then PBad "Expected double-quoted property name"
          else
            match stringBody EmptyString s' with
            | POk key rest =>
                match skipWs rest with
                | EmptyString => PCut (Some (JObject acc))
                | String c rest' =>
                    if negb (code c =? 58)%N
                    then PBad "Expected ':' after property name"
                    else
                      match parseValue fuel' (skipWs rest') with
                      | POk v rest'' =>
                          let acc' := (acc ++ [(textOf key, v)])%list in
                          match skipWs rest'' with
                          | EmptyString => PCut (Some (JObject acc'))
                          | String d rest3 =>
                              if (code d =? 44)%N
                              then parseMembers fuel' acc' rest3
                              else if (code d =? 125)%N
                              then POk (JObject acc') rest3
                              else PBad "Expected ',' or '}' after property value"
                          end
                      | PCut (Some v) =>
                          PCut (Some (JObject (acc ++ [(textOf key, v)])%list))
                      | PCut None => PCut (Some (JObject acc))
                      | PBad m => PBad m
                      end
                end
            | PCut _ => PCut (Some (JObject acc))
            | PBad m => PBad m
            end
      end
  end.

Definition fuelFor (s : string) : nat := 2 * String.length s + 2.

(** The strict reader: the whole text is one value. *)
Definition strictParse (s : string) : completion thrownValue json :=
  match parseValue (fuelFor s) (skipWs s) with
  | POk v rest =>
      match skipWs rest with
      | EmptyString => Returns v
      | _ => Throws (ErrorObject "Unexpected non-whitespace character after JSON")
      end
  | PCut _ => Throws (ErrorObject "Unexpected end of JSON input")
  | PBad m => Throws (ErrorObject m)
  end.

(** The tolerant reader: a text that ends early gives what was read. *)
Definition tolerantParse (s : string) : completion thrownValue json :=
  match parseValue (fuelFor s) (skipWs s) with
  | POk v rest =>
      match skipWs rest with
      | EmptyString => Returns v
      | _ => Throws (ErrorObject "Unexpected non-whitespace character after JSON")
      end
  | PCut (Some v) => Returns v
  | PCut None => Throws (ErrorObject "Unexpected end of input")
  | PBad m => Throws (ErrorObject m)
  end.

End JsonText.

(** ** The event stream (ai/utils/event-stream) *)

Module EventStream.
Local Close Scope string_scope.

Section Stream.
Context {T R : Type}.
(** The constructor's arguments. *)
Variable isComplete : T -> bool.
Variable extractResult : T -> R.
Variable historyLimit : option Z.

(** What a pending [next()] is resolved with. *)
Inductive IteratorResult : Type :=
| Yield (value : T)    (* [{ value, done: false }] *)
| Finished.            (* [{ done: true }] *)

(** The fields of the object.  A waiting consumer is a number that
    names its pending [next()]; [resumed] lists what such consumers
    were resolved with, oldest first.  [finalResult] is the deferred
    result: [None] while the promise is pending. *)
Record state : Type := mkState {
  queue : list T;
  waiting : list nat;
  done : bool;
  finalResult : option R;
  history : list T;
  resumed : list (nat * IteratorResult)
}.

Definition init : state := mkState [] [] false None [] [].

(** Resolving a promise a second time does nothing. *)
Definition resolveFinalResult (r : R) (s : state) : state :=
  match finalResult s with
  | Some _ => s
  | None => mkState (queue s) (waiting s) (done s) (Some r) (history s) (resumed s)
  end.

Definition pushHistory (event : T) (s : state) : state :=
  let h := history s ++ [event] in
  let h :=
    match historyLimit with
    | Some limit =>
        if negb (limit =? 0)%Z && (limit >? 0) && (Z.of_nat (List.length h) >? limit)
        then drop (Z.to_nat (Z.of_nat (List.length h) - limit)) h
        else h
    | None => h
    end in
  mkState (queue s) (waiting s) (done s) (finalResult s) h (resumed s).

Definition push (event : T) (s : state) : state :=
  if done s then s
  else
    let s := pushHistory event s in
    let s :=
      if isComplete event
      then resolveFinalResult (extractResult event)
             (mkState (queue s) (waiting s) true (finalResult s) (history s)
                (resumed s))
      else s in
    match waiting s with
    | waiter :: rest =>
        mkState (queue s) rest (done s) (finalResult s) (history s)
          (resumed s ++ [(waiter, Yield event)])
    | [] =>
        mkState (queue s ++ [event]) [] (done s) (finalResult s) (history s)
          (resumed s)
    end.

(** [end(result?)]; [None] is a call without a result. *)
Definition end_ (result : option R) (s : state) : state :=
  let s := mkState (queue s) (waiting s) true (finalResult s) (history s)
             (resumed s) in
  let s :=
    match result with
    | Some r => resolveFinalResult r s
    | None => s
    end in
  mkState (queue s) [] (done s) (finalResult s) (history s)
    (resumed s ++ map (fun waiter => (waiter, Finished)) (waiting s)).

(** One turn of the iterator's loop for the consumer [waiter]: an
    event from the queue, the end of the iteration, or a wait
    ([None]) until [push] or [end] resumes it. *)
Definition next (waiter : nat) (s : state) : state * option IteratorResult :=
  match queue s with
  | event :: rest =>
      (mkState rest (waiting s) (done s) (finalResult s) (history s) (resumed s),
       Some (Yield event))
  | [] =>
      if done s then (s, Some Finished)
      else
        (mkState [] (waiting s ++ [waiter]) (done s) (finalResult s)
           (history s) (resumed s),
         None)
  end.

(** [result()]: the value the promise has settled to, if it has. *)
Definition result (s : state) : option R := finalResult s.

Definition getHistory (s : state) : list T := history s.

(** Calls made on a stream, by the producer and by consumers. *)
Inductive call : Type :=
| Push (event : T)
| End (result : option R)
| Next (waiter : nat).

Definition perform (s : state) (c : call) : state :=
  match c with
  | Push event => push event s
  | End r => end_ r s
  | Next waiter => fst (next waiter s)
  end.

Definition run (calls : list call) (s : state) : state :=
  fold_left perform calls s.

(** A call that cannot settle the final result of a stream that is
    not done: anything but a completing [push] and an [end] with a
    result. *)
Definition settlesNothing (c : call) : bool :=
  match c with
  | Push event => negb (isComplete event)
  | End (Some _) => false
  | End None => true
  | Next _ => true
  end.

(** A call other than an [end] with a result. *)
Definition endsWithoutResult (c : call) : bool :=
  match c with
  | End (Some _) => false
  | _ => true
  end.

(** The iterator, run to its end: what it yields from [s] on.  It
    stops at a wait as well ([None] at the end of the list marks
    that), so [fuel] queue entries and one more turn are enough. *)
Fixpoint drain (fuel : nat) (waiter : nat) (s : state)
    : list T * option state :=
  match fuel with
  | O => ([], None)
  | Datatypes.S fuel' =>
      match next waiter s with
      | (s', Some (Yield event)) =>
          let '(events, final) := drain fuel' waiter s' in
          (event :: events, final)
      | (s', Some Finished) => ([], Some s')
      | (_, None) => ([], None)
      end
  end.

End Stream.

Arguments Yield {T} value.
Arguments Finished {T}.
Arguments mkState {T R} _ _ _ _ _ _.
Arguments queue {T R} _.
Arguments waiting {T R} _.
Arguments done {T R} _.
Arguments finalResult {T R} _.
Arguments history {T R} _.
Arguments resumed {T R} _.
Arguments init {T R}.
Arguments Push {T R} event.
Arguments End {T R} result.
Arguments Next {T R} waiter.
Arguments result {T R} s.

End EventStream.
(** ** The provider registry (ai/api-registry) and the entry point (ai/stream) *)

Module Registry.
Import JsString Completion Types.
Local Close Scope string_scope.

Section Providers.
(** The context, the options and the stream a provider is called with
    and answers with are opaque here. *)
Variables Context Options Stream : Type.

Definition ApiStreamFunction : Type :=
  Model -> Context -> option Options -> completion string Stream.

(** [ApiProvider], what a caller registers, and [ApiProviderInternal],
    what the registry keeps, have the same fields. *)
Record ApiProvider : Type := mkProvider {
  api : string;
  stream : ApiStreamFunction;
  streamSimple : ApiStreamFunction
}.

Record ApiProviderMetadata : Type := mkMetadata {
  sourceId : option string;
  version : option string;
  enabled : bool;
  registeredAt : Z;
  updatedAt : Z
}.

Record RegisteredApiProvider : Type := mkRegistered {
  provider : ApiProvider;
  metadata : ApiProviderMetadata
}.

Record RegisterApiProviderOptions : Type := mkRegisterOptions {
  opt_sourceId : option string;
  opt_version : option string;
  opt_enabled : option bool
}.

Definition wrapStream (api : string) (stream : ApiStreamFunction)
    : ApiStreamFunction :=
  fun model context options =>
    if negb (String.eqb (model_api model) api)
    then Throws ("Mismatched api: " +:+ model_api model +:+ " expected " +:+ api)%string
    else stream model context options.

(** The typed part of [validateProvider]: the api is not empty. *)
Definition validateProvider (p : ApiProvider) : completion string unit :=
  if negb (truthy (api p))
  then Throws "Invalid API provider: api must be a non-empty string"%string
  else Returns tt.

(** A [Map] from api to entry, in insertion order. *)
Definition registry : Type := list (string * RegisteredApiProvider).

Fixpoint map_get (k : string) (m : registry) : option RegisteredApiProvider :=
  match m with
  | [] => None
  | (k', v) :: rest => if String.eqb k' k then Some v else map_get k rest
  end.

(** [Map.prototype.set]: an existing key keeps its place. *)
Fixpoint map_set (k : string) (v : RegisteredApiProvider) (m : registry)
    : registry :=
  match m with
  | [] => [(k, v)]
  | (k', v') :: rest =>
      if String.eqb k' k then (k', v) :: rest else (k', v') :: map_set k v rest
  end.

Fixpoint map_delete (k : string) (m : registry) : registry :=
  match m with
  | [] => []
  | (k', v') :: rest =>
      if String.eqb k' k then rest else (k', v') :: map_delete k rest
  end.

(** [register(provider, options)] at time [now]. *)
Definition register (p : ApiProvider) (options : RegisterApiProviderOptions)
    (now : Z) (reg : registry) : completion string registry :=
  match validateProvider p with
  | Throws e => Throws e
  | Returns _ =>
      let existing := map_get (api p) reg in
      let md :=
        mkMetadata (opt_sourceId options) (opt_version options)
          (match opt_enabled options with Some b => b | None => true end)
          (match existing with
           | Some e => registeredAt (metadata e)
           | None => now
           end)
          now in
      Returns
        (map_set (api p)
           (mkRegistered
              (mkProvider (api p) (wrapStream (api p) (stream p))
                 (wrapStream (api p) (streamSimple p)))
              md)
           reg)
  end.

Definition get (api : string) (reg : registry) : option ApiProvider :=
  match map_get api reg with
  | Some entry => if enabled (metadata entry) then Some (provider entry) else None
  | None => None
  end.

Definition getWithMetadata (api : string) (reg : registry)
    : option RegisteredApiProvider :=
  map_get api reg.

Definition list (includeDisabled : bool) (reg : registry) : list ApiProvider :=
  map provider
    (List.filter (fun entry => includeDisabled || enabled (metadata entry))
       (map snd reg)).

Definition setEnabled (b : bool) (now : Z) (entry : RegisteredApiProvider)
    : RegisteredApiProvider :=
  mkRegistered (provider entry)
    (mkMetadata (sourceId (metadata entry)) (version (metadata entry)) b
       (registeredAt (metadata entry)) now).

(** [enable(api)] and [disable(api)] at time [now]: the answer and the
    registry afterwards. *)
Definition enable (api : string) (now : Z) (reg : registry) : bool * registry :=
  match map_get api reg with
  | None => (false, reg)
  | Some entry => (true, map_set api (setEnabled true now entry) reg)
  end.

Definition disable (api : string) (now : Z) (reg : registry) : bool * registry :=
  match map_get api reg with
  | None => (false, reg)
  | Some entry => (true, map_set api (setEnabled false now entry) reg)
  end.

Definition unregisterBySource (source : string) (reg : registry) : registry :=
  List.filter
    (fun kv =>
       match sourceId (metadata (snd kv)) with
       | Some s => negb (String.eqb s source)
       | None => true
       end)
    reg.

Definition clear (reg : registry) : registry := [].

(** *** ai/stream *)

Definition validateModel (model : Model) : completion string unit :=
  if negb (truthy (model_api model))
  then Throws "Invalid model: api is required"%string
  else if negb (truthy (model_id model))
  then Throws "Invalid model: id is required"%string
  else if negb (truthy (model_provider model))
  then Throws "Invalid model: provider is required"%string
  else Returns tt.

Definition resolveApiProvider (api : string) (reg : registry)
    : completion string ApiProvider :=
  match get api reg with
  | Some p => Returns p
  | None => Throws ("No API provider registered for api: " +:+ api)%string
  end.

(** [validateContext] of ai/types is not among the sources; it is a
    parameter of the entry point. *)
Variable validateContext : Context -> completion string unit.

(** [stream(model, context, options)] against the registry [reg]. *)
Definition streamEntry (model : Model) (context : Context)
    (options : option Options) (reg : registry) : completion string Stream :=
  match validateModel model with
  | Throws e => Throws e
  | Returns _ =>
      match validateContext context with
      | Throws e => Throws e
      | Returns _ =>
          match resolveApiProvider (model_api model) reg with
          | Throws e => Throws e
          | Returns p => stream p model context options
          end
      end
  end.

End Providers.

Arguments mkProvider {Context Options Stream} _ _ _.
Arguments api {Context Options Stream} _.
Arguments stream {Context Options Stream} _.
Arguments streamSimple {Context Options Stream} _.
Arguments mkRegistered {Context Options Stream} _ _.
Arguments provider {Context Options Stream} _.
Arguments metadata {Context Options Stream} _.
Arguments map_get {Context Options Stream} _ _.
Arguments map_set {Context Options Stream} _ _ _.
Arguments map_delete {Context Options Stream} _ _.
Arguments register {Context Options Stream} _ _ _ _.
Arguments get {Context Options Stream} _ _.
Arguments getWithMetadata {Context Options Stream} _ _.
Arguments list {Context Options Stream} _ _.
Arguments setEnabled {Context Options Stream} _ _ _.
Arguments enable {Context Options Stream} _ _ _.
Arguments disable {Context Options Stream} _ _ _.
Arguments resolveApiProvider {Context Options Stream} _ _.
Arguments streamEntry {Context Options Stream} _ _ _ _ _.

End Registry.
(** ** Simple options (ai/providers/simple-options) *)

Module SimpleOptions.
Import JsString Completion Types.
Local Close Scope string_scope.

(** Modelled from the spec: [ThinkingLevel] and [ThinkingBudgets] of
    ai/types are not among the sources; the levels are the keys the code
    uses, and a budget that is not given is [None]. *)
Inductive ThinkingLevel : Type :=
| minimal | low | medium | high | xhigh.

Record ThinkingBudgets : Type := mkBudgets {
  budget_minimal : option Z;
  budget_low : option Z;
  budget_medium : option Z;
  budget_high : option Z
}.

Inductive XhighSupport : Type :=
| supports_xhigh | clamp_xhigh.

Definition clampReasoning (effort : option ThinkingLevel) : option ThinkingLevel :=
  match effort with
  | Some xhigh => Some high
  | _ => effort
  end.

Definition mapThinkingLevel (level : option ThinkingLevel) (provider : XhighSupport)
    : option ThinkingLevel :=
  match level with
  | None => None
  | Some _ =>
      match provider with
      | supports_xhigh => level
      | clamp_xhigh => clampReasoning level
      end
  end.

Definition defaultBudgets : ThinkingBudgets :=
  mkBudgets (Some 1024) (Some 2048) (Some 8192) (Some 16384).

Definition orElse (a b : option Z) : option Z :=
  match a with Some _ => a | None => b end.

(** [{ ...defaultBudgets, ...customBudgets }] *)
Definition mergeBudgets (custom : option ThinkingBudgets) : ThinkingBudgets :=
  match custom with
  | None => defaultBudgets
  | Some c =>
      mkBudgets (orElse (budget_minimal c) (budget_minimal defaultBudgets))
        (orElse (budget_low c) (budget_low defaultBudgets))
        (orElse (budget_medium c) (budget_medium defaultBudgets))
        (orElse (budget_high c) (budget_high defaultBudgets))
  end.

(** [budgets[level]!] for a level other than [xhigh]; the merged record
    has all four. *)
Definition budgetOf (budgets : ThinkingBudgets) (level : ThinkingLevel) : Z :=
  let entry :=
    match level with
    | minimal => budget_minimal budgets
    | low => budget_low budgets
    | medium => budget_medium budgets
    | high | xhigh => budget_high budgets
    end in
  match entry with Some b => b | None => 0 end.

Record Adjusted : Type := mkAdjusted {
  adj_maxTokens : Z;
  adj_thinkingBudget : Z
}.

Definition adjustMaxTokensForThinking (baseMaxTokens modelMaxTokens : Z)
    (reasoningLevel : ThinkingLevel) (customBudgets : option ThinkingBudgets)
    : Adjusted :=
  let budgets := mergeBudgets customBudgets in
  let minOutputTokens := 1024 in
  let level :=
    match clampReasoning (Some reasoningLevel) with
    | Some l => l
    | None => reasoningLevel
    end in
  let thinkingBudget := budgetOf budgets level in
  let maxTokens := Z.min (baseMaxTokens + thinkingBudget) modelMaxTokens in
  let thinkingBudget :=
    if maxTokens <=? thinkingBudget
    then Z.max 0 (maxTokens - minOutputTokens)
    else thinkingBudget in
  mkAdjusted maxTokens thinkingBudget.

Section Options.
(** The temperature, the headers and the payload hook pass through as
    they are. *)
Variables Temperature Headers Hook : Type.

Record SimpleStreamOptions : Type := mkSimple {
  temperature : option Temperature;
  maxTokens : option Z;
  signal : option Retry.AbortSignal;
  apiKey : option string;
  sessionId : option string;
  headers : option Headers;
  onPayload : option Hook;
  reasoning : option ThinkingLevel;
  thinkingBudgets : option ThinkingBudgets
}.

Record StreamOptions : Type := mkStream {
  so_temperature : option Temperature;
  so_maxTokens : option Z;
  so_signal : option Retry.AbortSignal;
  so_apiKey : option string;
  so_sessionId : option string;
  so_headers : option Headers;
  so_onPayload : option Hook
}.

(** The limits of a model, next to its identity. *)
Record ModelLimits : Type := mkLimits {
  limits_model : Model;
  limits_maxTokens : Z
}.

(** [a || b] on numbers and on strings. *)
Definition numOr (a : option Z) (b : Z) : Z :=
  match a with
  | Some n => if (n =? 0)%Z then b else n
  | None => b
  end.

Definition strOr (a b : option string) : option string :=
  match a with
  | Some s => if truthy s then a else b
  | None => b
  end.

Definition buildBaseOptions (model : ModelLimits)
    (options : option SimpleStreamOptions) (key : option string) : StreamOptions :=
  mkStream
    (match options with Some o => temperature o | None => None end)
    (Some (numOr (match options with Some o => maxTokens o | None => None end)
             (Z.min (limits_maxTokens model) 32000)))
    (match options with Some o => signal o | None => None end)
    (strOr key (match options with Some o => apiKey o | None => None end))
    (match options with Some o => sessionId o | None => None end)
    (match options with Some o => headers o | None => None end)
    (match options with Some o => onPayload o | None => None end).

(** *** providers/anthropic: the options [streamSimpleAnthropic] hands on *)

Record AnthropicOptions : Type := mkAnthropic {
  base : StreamOptions;
  thinkingEnabled : bool;
  thinkingBudgetTokens : option Z
}.

Definition withMaxTokens (o : StreamOptions) (n : Z) : StreamOptions :=
  mkStream (so_temperature o) (Some n) (so_signal o) (so_apiKey o)
    (so_sessionId o) (so_headers o) (so_onPayload o).

(** [envApiKey] is what [getEnvApiKey(model.provider)] finds. *)
Definition streamSimpleAnthropic (envApiKey : option string) (model : ModelLimits)
    (options : option SimpleStreamOptions) : completion string AnthropicOptions :=
  let key :=
    strOr (match options with Some o => apiKey o | None => None end) envApiKey in
  match strOr key None with
  | None =>
      Throws ("No API key for provider: " +:+ model_provider (limits_model model))%string
  | Some _ =>
      let b := buildBaseOptions model options key in
      match (match options with Some o => reasoning o | None => None end) with
      | None => Returns (mkAnthropic b false None)
      | Some level =>
          let adjusted :=
            adjustMaxTokensForThinking (numOr (so_maxTokens b) 0)
              (limits_maxTokens model) level
              (match options with Some o => thinkingBudgets o | None => None end) in
          Returns (mkAnthropic (withMaxTokens b (adj_maxTokens adjusted)) true
                     (Some (adj_thinkingBudget adjusted)))
      end
  end.

End Options.

Arguments mkSimple {Temperature Headers Hook} _ _ _ _ _ _ _ _ _.
Arguments mkStream {Temperature Headers Hook} _ _ _ _ _ _ _.
Arguments so_maxTokens {Temperature Headers Hook} _.
Arguments so_apiKey {Temperature Headers Hook} _.
Arguments base {Temperature Headers Hook} _.
Arguments thinkingEnabled {Temperature Headers Hook} _.
Arguments thinkingBudgetTokens {Temperature Headers Hook} _.
Arguments buildBaseOptions {Temperature Headers Hook} _ _ _.
Arguments streamSimpleAnthropic {Temperature Headers Hook} _ _ _.

End SimpleOptions.

(** ** Shared provider helpers (ai/utils/provider-consolidation,
    ai/utils/provider-errors, ai/utils/tool-converter) *)

Module Consolidation.
Import JsString Completion Types.

(** The class [[a-zA-Z0-9_-]]. *)
Definition is_id_char (c : ascii) : bool :=
  in_range 97 122 c || in_range 65 90 c || in_range 48 57 c ||
  (code c =? 95)%N || (code c =? 45)%N.

(** [s.replace(/[^a-zA-Z0-9_-]/g, "_")] *)
Fixpoint sanitize (s : string) : string :=
  match s with
  | EmptyString => EmptyString
  | String c s' => String (if is_id_char c then c else "_"%char) (sanitize s')
  end.

(** [s.slice(0, n)] for an integer [n]; a negative [n] counts from the
    end. *)
Definition slice0 (s : string) (n : Z) : string :=
  let len := Z.of_nat (String.length s) in
  let stop := if n <? 0 then Z.max (len + n) 0 else Z.min n len in
  substring 0 (Z.to_nat stop) s.

(** The second argument of [normalizeToolCallId]: a number, or anything
    else (a model, or nothing). *)
Inductive LengthOrModel : Type :=
| IsNumber (n : Z)
| NotNumber.

Definition normalizeToolCallId (id : string) (maxLengthOrModel : LengthOrModel)
    : string :=
  let maxLength :=
    match maxLengthOrModel with
    | IsNumber n => n
    | NotNumber => 64
    end in
  slice0 (sanitize id) maxLength.

(** The function as [transformMessages] calls it: with the id, the model
    and the source message. *)
Definition asNormalizer : Transform.Normalizer :=
  fun id _ _ => normalizeToolCallId id NotNumber.

(** The copy in providers/amazon-bedrock. *)
Definition bedrockNormalizeToolCallId (id : string) : string :=
  let sanitized := sanitize id in
  if 64 <? Z.of_nat (String.length sanitized) then slice0 sanitized 64
  else sanitized.

(** [normalizeToolName(name, maxLength = 64)] of tool-converter. *)
Definition normalizeToolName (name : string) (maxLength : option Z) : string :=
  slice0 (sanitize name) (match maxLength with Some n => n | None => 64 end).

Definition oneOf (s : string) (cases : list string) : bool :=
  existsb (String.eqb s) cases.

(** [mapStopReason(reason, provider?)] of provider-consolidation; [None]
    is [null] or [undefined]. *)
Definition mapStopReason (reason : option string) (provider : option string)
    : StopReason :=
  match reason with
  | None => stop
  | Some reason =>
      if negb (truthy reason) then stop
      else if oneOf reason ["end_turn"; "stop"; "STOP"; "stop_sequence"] then stop
      else if oneOf reason ["max_tokens"; "length"; "MAX_TOKENS"] then Types.length
      else if oneOf reason ["tool_use"; "tool_calls"; "function_call"; "TOOL_USE"]
           then toolUse
      else if oneOf reason ["content_filter"; "refusal"] then error
      else if match provider with
              | Some p => String.eqb p "bedrock"
              | None => false
              end && includes reason "CONTEXT_WINDOW"
           then Types.length
      else error
  end.

(** [mapProviderStopReason(reason, provider)] of provider-errors. *)
Definition mapProviderStopReason (reason : option string) (provider : string)
    : StopReason :=
  match reason with
  | None => stop
  | Some reason =>
      if negb (truthy reason) then stop
      else
        let lower := toLowerCase reason in
        if oneOf lower ["stop"; "end_turn"; "stop_sequence"] then stop
        else if oneOf lower ["max_tokens"; "length"] then Types.length
        else if oneOf lower ["tool_use"; "tool_calls"; "function_call"] then toolUse
        else if oneOf lower ["content_filter"; "refusal"; "safety"] then error
        else error
  end.

(** The local [mapStopReason] of providers/anthropic, which throws on a
    reason it does not know. *)
Definition anthropicMapStopReason (reason : string) : completion string StopReason :=
  if String.eqb reason "end_turn" then Returns stop
  else if String.eqb reason "max_tokens" then Returns Types.length
  else if String.eqb reason "tool_use" then Returns toolUse
  else if String.eqb reason "refusal" then Returns error
  else if String.eqb reason "pause_turn" then Returns stop
  else if String.eqb reason "stop_sequence" then Returns stop
  else Throws ("Unhandled stop reason: " +:+ reason).

End Consolidation.

(** ** The stream of assistant-message events (ai/utils/event-stream)
    and the handler that settles it (ai/utils/base-stream-handler) *)

Module AssistantStream.
Import Completion Types EventStream.

Inductive DoneReason : Type :=
| done_stop | done_length | done_toolUse.

Inductive ErrorReason : Type :=
| error_aborted | error_error.

Definition stopReasonOfDone (r : DoneReason) : StopReason :=
  match r with
  | done_stop => stop
  | done_length => Types.length
  | done_toolUse => toolUse
  end.

Definition stopReasonOfError (r : ErrorReason) : StopReason :=
  match r with
  | error_aborted => aborted
  | error_error => error
  end.

Section Events.
(** What an event carries as its message: the object itself, so two
    events that carry the same object show the same, latest, fields. *)
Variable Msg : Type.

Inductive AssistantMessageEvent : Type :=
| ev_start (partial : Msg)
| ev_text_start (contentIndex : Z) (partial : Msg)
| ev_text_delta (contentIndex : Z) (delta : string) (partial : Msg)
| ev_text_end (contentIndex : Z) (content : string) (partial : Msg)
| ev_thinking_start (contentIndex : Z) (partial : Msg)
| ev_thinking_delta (contentIndex : Z) (delta : string) (partial : Msg)
| ev_thinking_end (contentIndex : Z) (content : string) (partial : Msg)
| ev_toolcall_start (contentIndex : Z) (partial : Msg)
| ev_toolcall_delta (contentIndex : Z) (delta : string) (partial : Msg)
| ev_toolcall_end (contentIndex : Z) (toolCall : ToolCall) (partial : Msg)
| ev_done (reason : DoneReason) (message : Msg)
| ev_error (reason : ErrorReason) (error : Msg).

(** The two functions the constructor hands to [EventStream]. *)
Definition isComplete (event : AssistantMessageEvent) : bool :=
  match event with
  | ev_done _ _ | ev_error _ _ => true
  | _ => false
  end.

Definition extractResult (event : AssistantMessageEvent) : completion string Msg :=
  match event with
  | ev_done _ message => Returns message
  | ev_error _ e => Returns e
  | _ => Throws "Unexpected event type for final result"
  end.

(** The stream object: its result is kept as a completion, so that the
    [throw] of [extractResult] has a place. *)
Definition AssistantMessageEventStream : Type :=
  @EventStream.state AssistantMessageEvent (completion string Msg).

Variable historyLimit : option Z.

Definition pushEvent (event : AssistantMessageEvent)
    (s : AssistantMessageEventStream) : AssistantMessageEventStream :=
  EventStream.push isComplete extractResult historyLimit event s.

Definition pushDone (reason : DoneReason) (message : Msg) :=
  pushEvent (ev_done reason message).

Definition pushError (reason : ErrorReason) (error : Msg) :=
  pushEvent (ev_error reason error).

(** [end(result?)] *)
Definition endStream (result : option Msg) (s : AssistantMessageEventStream)
    : AssistantMessageEventStream :=
  EventStream.end_ (option_map Returns result) s.

(** The calls a producer and its consumers make on the stream. *)
Inductive streamCall : Type :=
| CallPush (event : AssistantMessageEvent)
| CallEnd (result : option Msg)
| CallNext (waiter : nat).

Definition asCall (c : streamCall)
    : @EventStream.call AssistantMessageEvent (completion string Msg) :=
  match c with
  | CallPush event => Push event
  | CallEnd result => End (option_map Returns result)
  | CallNext waiter => Next waiter
  end.

Definition runStream (calls : list streamCall) (s : AssistantMessageEventStream)
    : AssistantMessageEventStream :=
  EventStream.run isComplete extractResult historyLimit (map asCall calls) s.

End Events.

Arguments ev_done {Msg} reason message.
Arguments ev_error {Msg} reason error.
Arguments CallPush {Msg} event.
Arguments CallEnd {Msg} result.
Arguments CallNext {Msg} waiter.

(** *** BaseStreamHandler *)

(** The one output object of a handler; the events of its stream carry
    this object. *)
Inductive OutputRef : Type := TheOutput.

(** What [fail] is given: an [Error] with its message, or another value
    with what [JSON.stringify] makes of it: a text, [undefined], or a
    [TypeError]. *)
Inductive Failure : Type :=
| ErrorObject (message : string)
| OtherValue (stringified : completion string (option string)).

Record StreamHandlerContext : Type := mkHandler {
  output : AssistantMessage;
  stream : AssistantMessageEventStream OutputRef;
  signal : option Retry.AbortSignal
}.

Section Handler.
Variable historyLimit : option Z.

Definition withStopReason (a : AssistantMessage) (r : StopReason) : AssistantMessage :=
  mkAssistant (content a) (api a) (provider a) (model a) (usage a) r
    (errorMessage a) (timestamp a).

Definition withErrorMessage (a : AssistantMessage) (e : option string)
    : AssistantMessage :=
  mkAssistant (content a) (api a) (provider a) (model a) (usage a)
    (stopReason a) e (timestamp a).

(** [done(reason)]; a handler without a context is [None]. *)
Definition handlerDone (reason : DoneReason) (context : option StreamHandlerContext)
    : option StreamHandlerContext :=
  match context with
  | None => None
  | Some c =>
      let out := withStopReason (output c) (stopReasonOfDone reason) in
      let s := pushDone OutputRef historyLimit reason TheOutput (stream c) in
      let s := endStream OutputRef None s in
      Some (mkHandler out s (signal c))
  end.

(** [fail(error)]: the context after the call, and whether the call
    returned. *)
Definition handlerFail (failure : Failure) (context : option StreamHandlerContext)
    : completion string unit * option StreamHandlerContext :=
  match context with
  | None => (Returns tt, None)
  | Some c =>
      let reason :=
        match signal c with
        | Some sg => if Retry.aborted sg then error_aborted else error_error
        | None => error_error
        end in
      let out := withStopReason (output c) (stopReasonOfError reason) in
      match
        match failure with
        | ErrorObject message => Returns (Some message)
        | OtherValue stringified => stringified
        end
      with
      | Throws e => (Throws e, Some (mkHandler out (stream c) (signal c)))
      | Returns text =>
          let out := withErrorMessage out text in
          let s := pushError OutputRef historyLimit reason TheOutput (stream c) in
          let s := endStream OutputRef None s in
          (Returns tt, Some (mkHandler out s (signal c)))
      end
  end.

End Handler.

End AssistantStream.

(** ** The other entry points of ai/stream, and the registry as an object *)

Module StreamApi.
Import JsString Completion Types.
Local Close Scope string_scope.

Section Providers.
Variables Context Options Stream : Type.
Variable validateContext : Context -> completion string unit.

Local Abbreviation registry := (Registry.registry Context Options Stream).
Local Abbreviation ApiProvider := (Registry.ApiProvider Context Options Stream).

(** [streamSimple(model, context, options)] against the registry [reg]. *)
Definition streamSimpleEntry (model : Model) (context : Context)
    (options : option Options) (reg : registry) : completion string Stream :=
  match Registry.validateModel model with
  | Throws e => Throws e
  | Returns _ =>
      match validateContext context with
      | Throws e => Throws e
      | Returns _ =>
          match Registry.resolveApiProvider (model_api model) reg with
          | Throws e => Throws e
          | Returns p => Registry.streamSimple p model context options
          end
      end
  end.

(** [streamByApi(api, model, context, options)] *)
Definition streamByApi (api : string) (model : Model) (context : Context)
    (options : option Options) (reg : registry) : completion string Stream :=
  if negb (String.eqb (model_api model) api)
  then Throws ("Mismatched api: model=" +:+ model_api model
               +:+ " expected=" +:+ api)%string
  else Registry.streamEntry validateContext model context options reg.

(** The methods of [ProviderRegistry] that change it.  The time is what
    [Date.now()] gives during the call. *)
Inductive registryCall : Type :=
| CallRegister (provider : ApiProvider)
    (options : Registry.RegisterApiProviderOptions) (now : Z)
| CallEnable (api : string) (now : Z)
| CallDisable (api : string) (now : Z)
| CallUnregisterBySource (sourceId : string)
| CallClear.

(** The registry after a call; a [register] that throws leaves it as it
    was. *)
Definition afterCall (reg : registry) (c : registryCall) : registry :=
  match c with
  | CallRegister provider options now =>
      match Registry.register provider options now reg with
      | Returns reg' => reg'
      | Throws _ => reg
      end
  | CallEnable api now => snd (Registry.enable api now reg)
  | CallDisable api now => snd (Registry.disable api now reg)
  | CallUnregisterBySource sourceId => Registry.unregisterBySource _ _ _ sourceId reg
  | CallClear => Registry.clear _ _ _ reg
  end.

Definition afterCalls (calls : list registryCall) (reg : registry) : registry :=
  fold_left afterCall calls reg.

End Providers.

Arguments streamSimpleEntry {Context Options Stream} _ _ _ _ _.
Arguments streamByApi {Context Options Stream} _ _ _ _ _ _.
Arguments CallRegister {Context Options Stream} _ _ _.
Arguments CallEnable {Context Options Stream} _ _.
Arguments CallDisable {Context Options Stream} _ _.
Arguments CallUnregisterBySource {Context Options Stream} _.
Arguments CallClear {Context Options Stream}.
Arguments afterCall {Context Options Stream} _ _.
Arguments afterCalls {Context Options Stream} _ _.

End StreamApi.

(** ** The Kimi provider: reading the event stream of a response
    (ai/providers/kimi) *)

Module Kimi.
Import JsString Completion Types EventStream AssistantStream.
Local Close Scope string_scope.

(** [KimiStreamEvent], what [JSON.parse] gives for one [data:] line. *)
Record KimiDelta : Type := mkDelta {
  delta_role : option string;
  delta_content : option string
}.

Record KimiChoice : Type := mkChoice {
  choice_index : Z;
  choice_delta : option KimiDelta;
  finish_reason : option string
}.

Record KimiUsage : Type := mkKimiUsage {
  prompt_tokens : option Z;
  completion_tokens : option Z;
  total_tokens : option Z
}.

Record KimiStreamEvent : Type := mkEvent {
  choices : option (list KimiChoice);
  event_usage : option KimiUsage
}.

(** The two objects [processKimiChunk] writes to: the output message and
    the stream.  The events carry the output object itself. *)
Record Sink : Type := mkSink {
  sink_output : AssistantMessage;
  sink_stream : AssistantMessageEventStream OutputRef
}.

(** [n || 0] *)
Definition tokens (n : option Z) : Z :=
  match n with
  | Some n => n
  | None => 0
  end.

Definition withContentAndRest (a : AssistantMessage) (c : list Block)
    (u : Usage) (r : StopReason) : AssistantMessage :=
  mkAssistant c (api a) (provider a) (model a) u r (errorMessage a) (timestamp a).

(** [processKimiChunk(event, output, stream)].  The cost fields of the
    usage are left out. *)
Definition processKimiChunk (event : KimiStreamEvent) (k : Sink) : Sink :=
  match choices event with
  | None | Some [] => k
  | Some (choice :: _) =>
      match choice_delta choice with
      | None => k
      | Some delta =>
          match delta_content delta with
          | None => k
          | Some content =>
              if negb (truthy content) then k
              else
                let blocks := Types.content (sink_output k) in
                let '(blocks, contentIndex) :=
                  match last blocks with
                  | Some (TextBlock text) =>
                      (removelast blocks ++ [TextBlock (text +:+ content)],
                       Z.of_nat (List.length blocks) - 1)
                  | _ => (blocks ++ [TextBlock content],
                          Z.of_nat (List.length blocks))
                  end in
                let stream :=
                  pushEvent OutputRef None
                    (ev_text_delta OutputRef contentIndex content TheOutput)
                    (sink_stream k) in
                let reason :=
                  match finish_reason choice with
                  | Some r =>
                      if String.eqb r "stop"%string then stop
                      else if String.eqb r "length"%string then Types.length
                      else stopReason (sink_output k)
                  | None => stopReason (sink_output k)
                  end in
                let usage :=
                  match event_usage event with
                  | Some u =>
                      mkUsage (tokens (prompt_tokens u))
                        (tokens (completion_tokens u))
                        (cacheRead (usage (sink_output k)))
                        (cacheWrite (usage (sink_output k)))
                        (tokens (total_tokens u))
                  | None => usage (sink_output k)
                  end in
                mkSink (withContentAndRest (sink_output k) blocks usage reason)
                  stream
          end
      end
  end.

(** [s.split("\n")] *)
Fixpoint splitLines (s : string) : list string :=
  match s with
  | EmptyString => [EmptyString]
  | String c s' =>
      if Ascii.eqb c "010"%char then EmptyString :: splitLines s'
      else
        match splitLines s' with
        | line :: rest => String c line :: rest
        | [] => [String c EmptyString]
        end
  end.

(** [s.slice(n)] *)
Fixpoint sliceFrom (n : nat) (s : string) : string :=
  match n, s with
  | O, _ => s
  | Datatypes.S n', String _ s' => sliceFrom n' s'
  | Datatypes.S _, EmptyString => EmptyString
  end.

Section Reader.
(** [JSON.parse(data)] read as an event; [None] when the [try] around
    it and [processKimiChunk] ends in its [catch]. *)
Variable parseEvent : string -> option KimiStreamEvent.

Definition processData (data : string) (k : Sink) : Sink :=
  match parseEvent data with
  | Some event => processKimiChunk event k
  | None => k
  end.

(** One turn of the [for] loop over the complete lines: [None] is the
    [break] at [data: [DONE]]. *)
Definition processLine (line : string) (k : Sink) : option Sink :=
  let line := trim line in
  if negb (truthy line) then Some k
  else if startsWith "data: "%string line then
    let data := sliceFrom 6 line in
    if String.eqb data "[DONE]"%string then None
    else Some (processData data k)
  else Some k.

Fixpoint processLines (lines : list string) (k : Sink) : Sink :=
  match lines with
  | [] => k
  | line :: rest =>
      match processLine line k with
      | Some k' => processLines rest k'
      | None => k
      end
  end.

(** The [while] loop over what [reader.read()] gives, decoded. *)
Fixpoint readLoop (reads : list string) (buffer : string) (k : Sink)
    : string * Sink :=
  match reads with
  | [] => (buffer, k)
  | value :: rest =>
      let buffer := (buffer +:+ value)%string in
      let lines := splitLines buffer in
      readLoop rest (List.last lines EmptyString) (processLines (removelast lines) k)
  end.

(** [processKimiStream(body, output, stream)] for a body that is read to
    its end. *)
Definition processKimiStream (reads : list string) (k : Sink) : Sink :=
  let '(buffer, k) := readLoop reads EmptyString k in
  if startsWith "data: "%string (trim buffer) then
    let data := sliceFrom 6 (trim buffer) in
    if negb (String.eqb data "[DONE]"%string) then processData data k else k
  else k.

End Reader.

(** *** streamKimi *)

(** What [fetch] resolves with: [statusText] is the status as the error
    message prints it, [errorText] what [response.text()] gives, and
    [body] the decoded reads of a body that is read to its end. *)
Record Response : Type := mkResponse {
  ok : bool;
  statusText : string;
  errorText : string;
  body : option (list string)
}.

Definition signalAborted (signal : option Retry.AbortSignal) : bool :=
  match signal with
  | Some sg => Retry.aborted sg
  | None => false
  end.

(** The [catch] block, for an [Error] with the message [message]. *)
Definition settleError (signal : option Retry.AbortSignal) (message : string)
    (k : Sink) : Sink :=
  let reason := if signalAborted signal then error_aborted else error_error in
  let out :=
    withErrorMessage
      (withStopReason (sink_output k) (stopReasonOfError reason))
      (Some message) in
  mkSink out
    (endStream OutputRef None
       (pushError OutputRef None reason TheOutput (sink_stream k))).

Definition settleDone (reason : DoneReason) (k : Sink) : Sink :=
  mkSink (sink_output k)
    (endStream OutputRef None
       (pushDone OutputRef None reason TheOutput (sink_stream k))).

Section Stream.
Variable parseEvent : string -> option KimiStreamEvent.
Context {S : Type}.
(** The [fetch] call, with the state of the network. *)
Variable request : S -> completion Retry.thrown Response * S.

(** The function that [streamKimi] hands to its handler, from the new
    stream and output [k] on: the sink at its end and the number of
    requests sent.  [optionsKey] and [envKey] are [options?.apiKey] and
    [getEnvApiKey(model.provider)]; [signal] is [options?.signal], with
    the state it has when it is read.  The preparation of the request
    is taken to return.  [None] stands for what is outside the model: a
    thrown value that is not an [Error] in the [catch] block. *)
Definition streamKimi (providerName : string) (optionsKey envKey : option string)
    (signal : option Retry.AbortSignal) (s : S) (k : Sink)
    : option (Sink * nat) :=
  match SimpleOptions.strOr (SimpleOptions.strOr optionsKey envKey) None with
  | None =>
      Some (settleError signal ("No API key for provider: " +:+ providerName) k, O)
  | Some _ =>
      match Retry.executeWithRetry request (Retry.requestPolicy signal) s with
      | None => None
      | Some (Throws e, t) =>
          match e with
          | Retry.ProviderError message _ _ | Retry.JsError message =>
              Some (settleError signal message k, Retry.invocations t)
          | Retry.NotAnError _ => None
          end
      | Some (Returns response, t) =>
          let n := Retry.invocations t in
          if negb (ok response) then
            Some (settleError signal
                    ("Kimi API error: " +:+ statusText response +:+ " "
                     +:+ errorText response) k, n)
          else
            let k :=
              mkSink (sink_output k)
                (pushEvent OutputRef None (ev_start OutputRef TheOutput)
                   (sink_stream k)) in
            match body response with
            | None => Some (settleError signal "No response body"%string k, n)
            | Some reads =>
                let k := processKimiStream parseEvent reads k in
                if signalAborted signal then
                  Some (settleError signal "Request was aborted"%string k, n)
                else
                  match stopReason (sink_output k) with
                  | aborted | error =>
                      Some (settleError signal
                              (match errorMessage (sink_output k) with
                               | Some m =>
                                   if truthy m then m
                                   else "An unknown error occurred"%string
                               | None => "An unknown error occurred"%string
                               end) k, n)
                  | stop => Some (settleDone done_stop k, n)
                  | Types.length => Some (settleDone done_length k, n)
                  | toolUse => Some (settleDone done_toolUse k, n)
                  end
            end
      end
  end.

End Stream.

End Kimi.

(** ** Message utilities (the message helpers among ai/utils) *)

Module MessageUtils.
Import JsString.
Local Close Scope string_scope.

(** Modelled from the spec: [TextContent] and [ImageContent] of ai/types
    are not among the sources; a text part holds its text, an image part
    its data and its MIME type. *)
Inductive ContentPart : Type :=
| TextPart (text : string)
| ImagePart (data : string) (mimeType : string).

(** [string | (TextContent | ImageContent)[]] *)
Inductive MessageContent : Type :=
| Plain (text : string)
| Parts (parts : list ContentPart).

Definition isText (c : ContentPart) : bool :=
  match c with TextPart _ => true | ImagePart _ _ => false end.

Definition isImage (c : ContentPart) : bool :=
  match c with ImagePart _ _ => true | TextPart _ => false end.

(** [texts.join("\n")] *)
Fixpoint joinLines (texts : list string) : string :=
  match texts with
  | [] => EmptyString
  | [t] => t
  | t :: rest => t +:+ String "010"%char (joinLines rest)
  end.

Definition textOf (c : ContentPart) : string :=
  match c with TextPart t => t | ImagePart _ _ => EmptyString end.

Definition messageContentToString (content : MessageContent) : string :=
  match content with
  | Plain s => s
  | Parts parts => joinLines (map textOf (List.filter isText parts))
  end.

Definition messageHasImages (content : MessageContent) : bool :=
  match content with
  | Plain _ => false
  | Parts parts => existsb isImage parts
  end.

Definition extractTextBlocks (content : MessageContent) : list ContentPart :=
  match content with
  | Plain s => [TextPart s]
  | Parts parts => List.filter isText parts
  end.

Definition extractImageBlocks (content : MessageContent) : list ContentPart :=
  match content with
  | Plain _ => []
  | Parts parts => List.filter isImage parts
  end.

(** The classes [\x00] and [[\x01-\x1F\x7F]]. *)
Definition is_control (c : ascii) : bool :=
  (code c =? 0)%N || in_range 1 31 c || (code c =? 127)%N.

(** [s.replace(re, "")] for a class of single code units. *)
Fixpoint removeAll (drop : ascii -> bool) (s : string) : string :=
  match s with
  | EmptyString => EmptyString
  | String c s' =>
      if drop c then removeAll drop s' else String c (removeAll drop s')
  end.

Definition sanitizeContentString (text : string) : string :=
  removeAll (fun c => in_range 1 31 c || (code c =? 127)%N)
    (removeAll (fun c => (code c =? 0)%N) text).

Definition CR : ascii := "013"%char.
Definition LF : ascii := "010"%char.

(** [s.replace(/\r\n/g, "\n")] *)
Fixpoint replaceCRLF (s : string) : string :=
  match s with
  | EmptyString => EmptyString
  | String c s' =>
      match s' with
      | String c' s'' =>
          if Ascii.eqb c CR && Ascii.eqb c' LF
          then String LF (replaceCRLF s'')
          else String c (replaceCRLF s')
      | EmptyString => String c EmptyString
      end
  end.

(** [s.replace(/\r/g, "\n")] *)
Fixpoint replaceCR (s : string) : string :=
  match s with
  | EmptyString => EmptyString
  | String c s' => String (if Ascii.eqb c CR then LF else c) (replaceCR s')
  end.

Definition normalizeLineEndings (text : string) : string :=
  replaceCR (replaceCRLF text).

End MessageUtils.

(** * Properties *)

(** ** The regular-expression matcher agrees with its declarative meaning *)

Module RegexFacts.
Import JsString Regex.
Local Arguments String.append : simpl nomatch.

Lemma append_nil_r (s : string) : s +:+ "" = s.
Proof. induction s as [|c s IH]; simpl; [reflexivity | now rewrite IH]. Qed.

Lemma append_assoc (a b c : string) : (a +:+ b) +:+ c = a +:+ (b +:+ c).
Proof. induction a as [|x a IH]; simpl; [reflexivity | now rewrite IH]. Qed.

Lemma append_eq_nil (a b : string) : a +:+ b = "" -> a = "" /\ b = "".
Proof. destruct a; simpl; [tauto | discriminate]. Qed.

Lemma matches_nil_nullable i r s :
  Matches i r s -> s = "" -> nullable r = true.
Proof.
  induction 1 as [ | a x Hx | r1 r2 s1 s2 _ IH1 _ IH2 | r1 r2 s _ IH
                 | r1 r2 s _ IH | r | r s1 s2 _ _ _ _ ]; intros E; simpl;
    try reflexivity; try discriminate.
  - apply append_eq_nil in E as [E1 E2]. now rewrite IH1, IH2.
  - now rewrite IH.
  - rewrite (IH E). apply orb_true_r.
Qed.

Lemma nullable_matches i r : nullable r = true -> Matches i r "".
Proof.
  induction r as [ | | a | r1 IH1 r2 IH2 | r1 IH1 r2 IH2 | r IH ]; simpl;
    intros H; try discriminate.
  - constructor.
  - apply andb_true_iff in H as [H1 H2].
    change "" with ("" +:+ ""). constructor; auto.
  - apply orb_true_iff in H as [H|H]; [apply MAltL | apply MAltR]; auto.
  - constructor.
Qed.

Lemma nullable_spec i r : nullable r = true <-> Matches i r "".
Proof.
  split; [apply nullable_matches | intros H; exact (matches_nil_nullable i r "" H eq_refl)].
Qed.

(** Soundness of the derivative. *)
Lemma deriv_sound i x r : forall s, Matches i (deriv i x r) s -> Matches i r (String x s).
Proof.
  induction r as [ | | a | r1 IH1 r2 IH2 | r1 IH1 r2 IH2 | r IH ]; simpl; intros s H.
  - inversion H.
  - inversion H.
  - destruct (atom_ok i a x) eqn:E; inversion H; subst. now constructor.
  - destruct (nullable r1) eqn:N.
    + inversion H as [ | | | ? ? ? H' | ? ? ? H' | | ]; subst.
      * inversion H' as [ | | ? ? s1 s2 Ha Hb | | | | ]; subst.
        change (String x (s1 +:+ s2)) with (String x s1 +:+ s2).
        constructor; auto.
      * change (String x s) with ("" +:+ String x s).
        constructor; [now apply nullable_matches | auto].
    + inversion H as [ | | ? ? s1 s2 Ha Hb | | | | ]; subst.
      change (String x (s1 +:+ s2)) with (String x s1 +:+ s2).
      constructor; auto.
  - inversion H; subst; [apply MAltL | apply MAltR]; auto.
  - inversion H as [ | | ? ? s1 s2 Ha Hb | | | | ]; subst.
    change (String x (s1 +:+ s2)) with (String x s1 +:+ s2).
    constructor; auto.
Qed.

(** Completeness of the derivative, by induction on the match. *)
Lemma deriv_complete i r s0 :
  Matches i r s0 -> forall x s, s0 = String x s -> Matches i (deriv i x r) s.
Proof.
  induction 1 as [ | a y Hy | r1 r2 s1 s2 H1 IH1 H2 IH2 | r1 r2 s0 _ IH
                 | r1 r2 s0 _ IH | r | r s1 s2 H1 IH1 H2 IH2 ];
    intros x s E; simpl.
  - discriminate.
  - injection E as -> <-. rewrite Hy. constructor.
  - destruct s1 as [|y s1']; simpl in E.
    + subst s2. rewrite (matches_nil_nullable i r1 "" H1 eq_refl).
      apply MAltR. now apply IH2.
    + injection E as -> <-.
      destruct (nullable r1).
      * apply MAltL. constructor; auto.
      * constructor; auto.
  - apply MAltL. now apply IH.
  - apply MAltR. now apply IH.
  - discriminate.
  - destruct s1 as [|y s1']; simpl in E.
    + now apply IH2.
    + injection E as -> <-. constructor; auto.
Qed.

Lemma deriv_spec i x r s :
  Matches i (deriv i x r) s <-> Matches i r (String x s).
Proof.
  split; [apply deriv_sound | intros H; exact (deriv_complete i r _ H x s eq_refl)].
Qed.

Lemma match_prefix_spec i : forall s r,
  match_prefix i r s = true <->
  exists m post, s = m +:+ post /\ Matches i r m.
Proof.
  induction s as [|x s IH]; intros r; simpl.
  - rewrite orb_false_r, (nullable_spec i). split.
    + intros H. exists "", "". auto.
    + intros (m & post & E & H). symmetry in E.
      apply append_eq_nil in E as [-> _]. exact H.
  - rewrite orb_true_iff, IH, (nullable_spec i). split.
    + intros [H | (m & post & -> & H)].
      * exists "", (String x s). auto.
      * exists (String x m), post. split; [reflexivity | now apply deriv_spec].
    + intros (m & post & E & H). destruct m as [|y m]; simpl in E.
      * now left.
      * injection E as <- ->. right. exists m, post.
        split; [reflexivity | now apply deriv_spec].
Qed.

Lemma search_spec i r : forall s,
  search i r s = true <->
  exists pre m post, s = pre +:+ m +:+ post /\ Matches i r m.
Proof.
  induction s as [|x s IH]; cbn [search].
  - rewrite orb_false_r, match_prefix_spec. split.
    + intros (m & post & E & H). exists "", m, post. auto.
    + intros (pre & m & post & E & H). symmetry in E.
      apply append_eq_nil in E as [-> E]. simpl. eauto.
  - rewrite orb_true_iff, IH, match_prefix_spec. split.
    + intros [(m & post & E & H) | (pre & m & post & -> & H)].
      * exists "", m, post. auto.
      * exists (String x pre), m, post. auto.
    + intros (pre & m & post & E & H). destruct pre as [|y pre]; simpl in E.
      * left. eauto.
      * injection E as <- ->. right. eauto.
Qed.

(** [re.test(s)] holds exactly when [s] contains a match of [re]. *)
Lemma test_spec re s : test re s = true <-> Found re s.
Proof.
  unfold test, Found. destruct (anchored re).
  - rewrite match_prefix_spec. split.
    + intros (m & post & E & H). exists "", m, post. auto.
    + intros (pre & m & post & E & H & A). rewrite (A eq_refl) in E. simpl in E. eauto.
  - rewrite search_spec. split.
    + intros (pre & m & post & E & H). exists pre, m, post.
      repeat split; auto. discriminate.
    + intros (pre & m & post & E & H & _). eauto.
Qed.

(** A literal pattern without flags is plain substring search. *)
Lemma Str_matches s m : Matches false (Str s) m <-> m = s.
Proof.
  revert m. induction s as [|c s IH]; intros m; simpl.
  - split; [intros H; now inversion H | intros ->; constructor].
  - split.
    + intros H. inversion H as [ | | ? ? s1 s2 Ha Hb | | | | ]; subst.
      inversion Ha as [ | a x Hx | | | | | ]; subst. simpl in Hx.
      apply Ascii.eqb_eq in Hx as ->. apply IH in Hb as ->. reflexivity.
    + intros ->. change (String c s) with (String c "" +:+ s).
      constructor; [constructor; simpl; apply Ascii.eqb_refl | now apply IH].
Qed.

End RegexFacts.

(** ** Overflow detection *)

Module OverflowFacts.
Import JsString Regex Types Overflow RegexFacts.

Lemma StopReason_eqb_eq a b : StopReason_eqb a b = true <-> a = b.
Proof. destruct a, b; simpl; split; congruence. Qed.

Definition table_hit (e : string) : Prop :=
  (exists entry, In entry OVERFLOW_PATTERN_CONFIG /\ Found (pattern entry) e)
  \/ Found STATUS_NO_BODY e.

Lemma table_test_spec e :
  existsb (fun entry => test (pattern entry) e) OVERFLOW_PATTERN_CONFIG
  || test STATUS_NO_BODY e = true <-> table_hit e.
Proof.
  unfold table_hit. rewrite orb_true_iff, existsb_exists, test_spec.
  split; (intros [(entry & Hin & H) | H]; [left; exists entry | right; exact H]);
    (split; [exact Hin | now apply test_spec]).
Qed.

(** No phrasing of the table is found in the empty message, so testing
    the message for truthiness first loses nothing. *)
Lemma table_hit_truthy e : table_hit e -> truthy e = true.
Proof.
  intros H. destruct e as [|c e]; [| reflexivity].
  apply table_test_spec in H. vm_compute in H. discriminate.
Qed.

Lemma by_error_spec m :
  match errorMessage m with
  | Some e =>
      StopReason_eqb (stopReason m) error && truthy e &&
      (existsb (fun entry => test (pattern entry) e) OVERFLOW_PATTERN_CONFIG
       || test STATUS_NO_BODY e)
  | None => false
  end = true <->
  (stopReason m = error /\ exists e, errorMessage m = Some e /\ table_hit e).
Proof.
  destruct (errorMessage m) as [e|].
  - rewrite !andb_true_iff, StopReason_eqb_eq, table_test_spec. split.
    + intros [[Hs _] Hh]. split; [exact Hs | exists e; auto].
    + intros [Hs (e' & [= <-] & Hh)]. repeat split; auto.
      now apply table_hit_truthy.
  - split; [discriminate | intros [_ (e & [=] & _)]].
Qed.

Lemma by_usage_spec m w :
  match w with
  | Some cw =>
      if negb (cw =? 0)%Z && StopReason_eqb (stopReason m) stop
      then input (usage m) + cacheRead (usage m) >? cw
      else false
  | None => false
  end = true <->
  exists cw, w = Some cw /\ cw <> 0 /\ stopReason m = stop /\
    input (usage m) + cacheRead (usage m) > cw.
Proof.
  destruct w as [cw|].
  - destruct (negb (cw =? 0)%Z && StopReason_eqb (stopReason m) stop) eqn:G.
    + apply andb_true_iff in G as [G1 G2].
      apply negb_true_iff, Z.eqb_neq in G1. apply StopReason_eqb_eq in G2.
      rewrite Z.gtb_gt. split.
      * intros H. exists cw. auto.
      * intros (cw' & [= <-] & _ & _ & H). exact H.
    + split; [discriminate |].
      intros (cw' & [= <-] & Hz & Hs & _).
      apply Z.eqb_neq in Hz. apply StopReason_eqb_eq in Hs.
      rewrite Hz, Hs in G. discriminate.
  - split; [discriminate | intros (cw & [=] & _)].
Qed.

(** C1, as the code has it.  [isContextOverflow m w] is true exactly when
    the message stopped with an error whose text contains one of the
    overflow phrasings (or the bare 400/413/429 form), or a window other
    than 0 is supplied, the message stopped normally and
    [usage.input + usage.cacheRead] exceeds the window; the three sample
    calls of the specification give true, true and false. *)
Theorem isContextOverflow_iff :
  (forall m w, isContextOverflow m w = true <-> overflow_condition m w) /\
  isContextOverflow (errorMsg "input exceeds the context window") None = true /\
  isContextOverflow (stopMsg 1200 0) (Some 1000) = true /\
  isContextOverflow (stopMsg 500 0) (Some 1000) = false.
Proof.
  split; [| repeat split; vm_compute; reflexivity].
  intros m w. unfold isContextOverflow, overflow_condition.
  pose proof (by_error_spec m) as He. pose proof (by_usage_spec m w) as Hu.
  fold (table_hit) in *.
  destruct (match errorMessage m with Some _ => _ | None => _ end).
  - split; [intros _; left; now apply He | reflexivity].
  - rewrite Hu. split; [intros H; now right | intros [H | H]; [| exact H]].
    apply He in H. discriminate.
Qed.

(** C1, as the specification words it, fails for a window of 0: the
    window is tested for truthiness, so 0 is taken as no window at all.
    The message below stopped normally with 5 input tokens; the
    specified condition holds for the supplied window 0, and the code
    answers false. *)
Lemma isContextOverflow_zero_window :
  overflow_as_specified (stopMsg 5 0) (Some 0) /\
  isContextOverflow (stopMsg 5 0) (Some 0) = false.
Proof.
  split; [| vm_compute; reflexivity].
  right. exists 0.
  split; [reflexivity | split; [reflexivity | simpl; lia]].
Qed.

End OverflowFacts.

(** ** The retry executor *)

Module RetryFacts.
Import JsString Completion Retry.

Section Loop.
Context {S T : Type}.
Variable operation : S -> completion thrown T * S.
Variable policy : RetryPolicy.

(** One iteration of the loop. *)
Lemma retry_loop_step fuel attempt lastError t :
  retry_loop operation policy (Datatypes.S fuel) attempt lastError t =
  if attempt <? maxAttempts policy then
    match operation (opState t) with
    | (Returns v, s') =>
        Some (Returns v, mkTrace s' (Datatypes.S (invocations t)) (delays t))
    | (Throws e, s') =>
        if negb (match shouldRetry policy with
                 | Some f => f e (attempt + 1)
                 | None => defaultRetryable (normalizeProviderError e)
                 end) || (attempt + 1 >=? maxAttempts policy)
        then Some (Throws (normalizeProviderError e),
                   mkTrace s' (Datatypes.S (invocations t)) (delays t))
        else retry_loop operation policy fuel (attempt + 1) e
               (mkTrace s' (Datatypes.S (invocations t))
                  (delays t ++
                   [Z.min (baseDelayMs policy * 2 ^ (attempt + 1 - 1))
                      (match maxDelayMs policy with
                       | Some d => d
                       | None => MAX_SAFE_INTEGER
                       end)]))
    end
  else Some (Throws (normalizeProviderError lastError), t).
Proof.
  cbn [retry_loop]. destruct (attempt <? maxAttempts policy); [| reflexivity].
  destruct (operation (opState t)) as [[v|e] s']; reflexivity.
Qed.

(** The loop returns or throws: it does not run out of fuel. *)
Lemma retry_loop_total : forall fuel attempt lastError t,
  (Z.to_nat (maxAttempts policy - attempt) < fuel)%nat ->
  exists r, retry_loop operation policy fuel attempt lastError t = Some r.
Proof.
  induction fuel as [|fuel IH]; intros attempt lastError t Hf; [lia |].
  cbn [retry_loop]. destruct (attempt <? maxAttempts policy) eqn:Hlt; [| eauto].
  apply Z.ltb_lt in Hlt.
  destruct (operation (opState t)) as [[v|e] s']; [eauto |].
  destruct (negb _ || _); [eauto |].
  apply IH. lia.
Qed.

Lemma executeWithRetry_total s :
  exists r, executeWithRetry operation policy s = Some r.
Proof. apply retry_loop_total. rewrite Z.sub_0_r. lia. Qed.

(** The count of invocations never goes down. *)
Lemma retry_loop_invocations : forall fuel attempt lastError t r t',
  retry_loop operation policy fuel attempt lastError t = Some (r, t') ->
  (invocations t <= invocations t')%nat.
Proof.
  induction fuel as [|fuel IH]; intros attempt lastError t r t' H; [discriminate |].
  cbn [retry_loop] in H.
  destruct (attempt <? maxAttempts policy); [| injection H as <- <-; lia].
  destruct (operation (opState t)) as [[v|e] s'].
  - injection H as <- <-. simpl. lia.
  - destruct (negb _ || _).
    + injection H as <- <-. simpl. lia.
    + apply IH in H. simpl in H. lia.
Qed.

(** An iteration that enters the loop body invokes the operation. *)
Lemma retry_loop_enters : forall fuel attempt lastError t r t',
  attempt < maxAttempts policy ->
  retry_loop operation policy fuel attempt lastError t = Some (r, t') ->
  (Datatypes.S (invocations t) <= invocations t')%nat.
Proof.
  intros [|fuel] attempt lastError t r t' Hlt H; [discriminate |].
  cbn [retry_loop] in H. apply Z.ltb_lt in Hlt. rewrite Hlt in H.
  destruct (operation (opState t)) as [[v|e] s'].
  - injection H as <- <-. simpl. lia.
  - destruct (negb _ || _).
    + injection H as <- <-. simpl. lia.
    + apply retry_loop_invocations in H. simpl in H. lia.
Qed.

Lemma executeWithRetry_no_attempt s :
  maxAttempts policy <= 0 ->
  executeWithRetry operation policy s
  = Some (Throws (normalizeProviderError undefined), mkTrace s O []).
Proof.
  intros H. unfold executeWithRetry. cbn [retry_loop].
  apply Z.ltb_ge in H. now rewrite H.
Qed.

(** With [maxAttempts = 1] the operation is invoked once, and its
    completion (normalised when thrown) is the executor's. *)
Lemma executeWithRetry_single s :
  maxAttempts policy = 1 ->
  executeWithRetry operation policy s =
  Some (match fst (operation s) with
        | Returns v => Returns v
        | Throws e => Throws (normalizeProviderError e)
        end, mkTrace (snd (operation s)) 1 []).
Proof.
  intros H. unfold executeWithRetry. rewrite H. cbn [retry_loop Z.to_nat Pos.to_nat Pos.iter_op Nat.add].
  rewrite H. cbn [opState invocations delays Z.ltb Z.compare Z.add].
  destruct (operation s) as [[v|e] s']; [reflexivity |].
  cbn [fst snd]. change (1 >=? 1) with true. now rewrite orb_true_r.
Qed.

End Loop.

Definition rateLimitExceeded : thrown := JsError "rate limit exceeded".

Definition defaultPolicy : RetryPolicy := mkPolicy 3 250 None None.




End RetryFacts.

(** ** Stage 2 of the pipeline: the repair of orphaned tool calls *)

Module RepairFacts.
Import JsString Completion Types Transform.
Local Close Scope string_scope.

(** The loop's variables without the output list. *)
Record core : Type := mkCore {
  pend : list ToolCall;
  exist : gset string;
  tk : nat
}.

Definition kept (msg : Message) : bool :=
  match msg with
  | Assistant a => negb (dropped a)
  | _ => true
  end.

Section Emission.
Variable clock : nat -> Z.

(** The pending calls without a result so far. *)
Fixpoint missing (e : gset string) (p : list ToolCall) : list ToolCall :=
  match p with
  | [] => []
  | tc :: rest =>
      if decide (id tc ∈ e) then missing e rest else tc :: missing e rest
  end.

(** Their synthetic results, stamped with consecutive clock readings. *)
Fixpoint synth (n : nat) (tcs : list ToolCall) : list Message :=
  match tcs with
  | [] => []
  | tc :: rest =>
      ToolResult (syntheticToolResult tc (clock n)) :: synth (Datatypes.S n) rest
  end.

Definition flushOut (c : core) : list Message := synth (tk c) (missing (exist c) (pend c)).

Definition flushCore (c : core) : core :=
  match pend c with
  | [] => c
  | _ :: _ => mkCore [] ∅ (tk c + List.length (missing (exist c) (pend c)))
  end.

(** What one iteration appends to the output ... *)
Definition stepOut (c : core) (msg : Message) : list Message :=
  match msg with
  | Assistant a => flushOut c ++ (if dropped a then [] else [msg])
  | ToolResult _ => [msg]
  | User _ => flushOut c ++ [msg]
  end.

(** ... and what it does to the other variables. *)
Definition stepCore (c : core) (msg : Message) : core :=
  match msg with
  | Assistant a =>
      let c := flushCore c in
      if dropped a then c
      else
        match toolCallsOf (content a) with
        | [] => c
        | tcs => mkCore tcs ∅ (tk c)
        end
  | ToolResult r => mkCore (pend c) ({[toolCallId r]} ∪ exist c) (tk c)
  | User _ => flushCore c
  end.

Fixpoint runOut (c : core) (l : list Message) : list Message :=
  match l with
  | [] => []
  | msg :: rest => stepOut c msg ++ runOut (stepCore c msg) rest
  end.

Fixpoint runCore (c : core) (l : list Message) : core :=
  match l with
  | [] => c
  | msg :: rest => runCore (stepCore c msg) rest
  end.

Lemma insertMissing_spec : forall p st,
  insertMissing clock p st =
  mkRepair (result st ++ synth (ticks st) (missing (existingToolResultIds st) p))
    (pendingToolCalls st) (existingToolResultIds st)
    (ticks st + List.length (missing (existingToolResultIds st) p)).
Proof.
  induction p as [|tc p IH]; intros [r pd e t]; simpl.
  - now rewrite app_nil_r, Nat.add_0_r.
  - destruct (decide (id tc ∈ e)); rewrite IH; simpl; [reflexivity |].
    rewrite <- app_assoc. simpl. f_equal. lia.
Qed.

Lemma flushPending_spec r c :
  flushPending clock (mkRepair r (pend c) (exist c) (tk c)) =
  mkRepair (r ++ flushOut c) (pend (flushCore c)) (exist (flushCore c))
    (tk (flushCore c)).
Proof.
  destruct c as [p e t]. destruct p as [|tc p].
  - unfold flushPending, flushOut, flushCore. simpl. now rewrite app_nil_r.
  - unfold flushPending. cbn [pendingToolCalls pend exist tk].
    rewrite insertMissing_spec. reflexivity.
Qed.

Lemma repairStep_spec r c msg :
  repairStep clock (mkRepair r (pend c) (exist c) (tk c)) msg =
  mkRepair (r ++ stepOut c msg) (pend (stepCore c msg)) (exist (stepCore c msg))
    (tk (stepCore c msg)).
Proof.
  destruct msg as [u|a|tr]; unfold repairStep, stepOut, stepCore.
  - rewrite flushPending_spec. unfold push. simpl. now rewrite app_assoc.
  - rewrite flushPending_spec. destruct (dropped a).
    + now rewrite app_nil_r.
    + destruct (toolCallsOf (content a)); unfold push; simpl;
        now rewrite app_assoc.
  - reflexivity.
Qed.

Lemma fold_repairStep_spec : forall l r c,
  fold_left (repairStep clock) l (mkRepair r (pend c) (exist c) (tk c)) =
  mkRepair (r ++ runOut c l) (pend (runCore c l)) (exist (runCore c l))
    (tk (runCore c l)).
Proof.
  induction l as [|msg l IH]; intros r c; simpl.
  - now rewrite app_nil_r.
  - rewrite repairStep_spec, IH. now rewrite app_assoc.
Qed.

(** The repair stage is the concatenation of what its iterations emit. *)
Lemma insertSyntheticToolResults_spec l :
  insertSyntheticToolResults clock l = runOut (mkCore [] ∅ O) l.
Proof.
  unfold insertSyntheticToolResults, repairInit.
  exact (f_equal result (fold_repairStep_spec l [] (mkCore [] ∅ O))).
Qed.

Lemma runOut_app : forall a c b,
  runOut c (a ++ b) = runOut c a ++ runOut (runCore c a) b.
Proof.
  induction a as [|msg a IH]; intros c b; simpl; [reflexivity |].
  now rewrite IH, app_assoc.
Qed.

Lemma runCore_app : forall a c b,
  runCore c (a ++ b) = runCore (runCore c a) b.
Proof. induction a as [|msg a IH]; intros c b; simpl; auto. Qed.

Lemma synth_inv n tcs m :
  In m (synth n tcs) ->
  exists tc t, m = ToolResult (syntheticToolResult tc t) /\ In tc tcs.
Proof.
  revert n. induction tcs as [|tc tcs IH]; intros n; simpl; [tauto |].
  intros [<- | H]; [eauto |].
  destruct (IH _ H) as (tc' & t & -> & Hin). eauto.
Qed.

(** Every emitted message is the message at hand or a synthetic result. *)
Lemma stepOut_inv c msg m :
  In m (stepOut c msg) ->
  (m = msg /\ kept msg = true) \/
  exists tc t, m = ToolResult (syntheticToolResult tc t).
Proof.
  destruct msg as [u|a|tr]; unfold stepOut; simpl.
  - rewrite in_app_iff. intros [H | [<- | []]]; [| now left].
    right. apply synth_inv in H as (tc & t & -> & _). eauto.
  - rewrite in_app_iff. intros [H | H].
    + right. apply synth_inv in H as (tc & t & -> & _). eauto.
    + destruct (dropped a); simpl in *; [tauto |].
      destruct H as [<- | []]. now left.
  - intros [<- | []]. now left.
Qed.

Lemma runOut_inv : forall l c m,
  In m (runOut c l) ->
  (In m l /\ kept m = true) \/
  exists tc t, m = ToolResult (syntheticToolResult tc t).
Proof.
  induction l as [|msg l IH]; intros c m; simpl; [tauto |].
  rewrite in_app_iff. intros [H | H].
  - apply stepOut_inv in H as [[-> Hk] | H]; auto.
  - apply IH in H as [[Hin Hk] | H]; auto.
Qed.

Lemma stepOut_kept c msg :
  kept msg = true -> exists F, stepOut c msg = F ++ [msg].
Proof.
  destruct msg as [u|a|tr]; simpl; intros Hk.
  - eauto.
  - apply negb_true_iff in Hk. unfold stepOut. rewrite Hk. eauto.
  - exists []. reflexivity.
Qed.

Lemma runOut_kept : forall l c m,
  In m l -> kept m = true -> In m (runOut c l).
Proof.
  induction l as [|msg l IH]; intros c m; simpl; [tauto |].
  intros [-> | Hin] Hk; apply in_app_iff.
  - left. destruct (stepOut_kept c m Hk) as [F ->].
    apply in_app_iff. right. now left.
  - right. auto.
Qed.

End Emission.

(** *** Running the stage on its own output *)

Definition covered (c : core) : Prop :=
  forall tc, In tc (pend c) -> id tc ∈ exist c.

(** How the variables of a second run, at the end of what the first
    run has emitted so far, relate to the variables of the first run. *)
Definition inSync (c1 c2 : core) : Prop :=
  (pend c2 = pend c1 /\ exist c2 = exist c1) \/ (pend c1 = [] /\ covered c2).

Definition idsOf (tcs : list ToolCall) : gset string :=
  list_to_set (map id tcs).

Lemma missing_covered e p :
  (forall tc, In tc p -> id tc ∈ e) -> missing e p = [].
Proof.
  induction p as [|tc p IH]; simpl; intros H; [reflexivity |].
  destruct (decide (id tc ∈ e)) as [_|n]; [apply IH; auto |].
  destruct n. apply H. now left.
Qed.

Lemma missing_complete e p tc :
  In tc p -> id tc ∈ idsOf (missing e p) ∪ e.
Proof.
  unfold idsOf. induction p as [|tc' p IH]; simpl; [tauto |].
  intros [-> | Hin].
  - destruct (decide (id tc ∈ e)) as [Hy|Hn]; simpl.
    + apply elem_of_union. now right.
    + apply elem_of_union. left. apply elem_of_union. left.
      now apply elem_of_singleton.
  - specialize (IH Hin). apply elem_of_union in IH as [IH|IH];
      [| apply elem_of_union; now right].
    destruct (decide (id tc' ∈ e)); simpl; apply elem_of_union; left; [exact IH |].
    apply elem_of_union. now right.
Qed.

Lemma flushOut_covered clock c : covered c -> flushOut clock c = [].
Proof. intros H. unfold flushOut. now rewrite missing_covered. Qed.

Lemma flushCore_pend_nil c : pend c = [] -> flushCore c = c.
Proof. unfold flushCore. now intros ->. Qed.

Lemma flushCore_covered c : covered c -> covered (flushCore c).
Proof.
  unfold flushCore. destruct (pend c) eqn:E; [auto |].
  intros _ tc []. 
Qed.

Lemma flushCore_reset c :
  pend c <> [] -> pend (flushCore c) = [] /\ exist (flushCore c) = ∅.
Proof. unfold flushCore. destruct (pend c); [congruence | auto]. Qed.

Lemma pend_flushCore c : pend (flushCore c) = [].
Proof. unfold flushCore. destruct (pend c) eqn:E; [exact E | reflexivity]. Qed.

Section SecondRun.
Variables clock clock' : nat -> Z.

(** A run over synthetic results copies them and records their ids. *)
Lemma run_synth : forall tcs n c,
  runOut clock' c (synth clock n tcs) = synth clock n tcs /\
  runCore c (synth clock n tcs)
  = mkCore (pend c) (idsOf tcs ∪ exist c) (tk c).
Proof.
  unfold idsOf. induction tcs as [|tc tcs IH]; intros n c; simpl.
  - split; [reflexivity |]. destruct c as [p e t]; simpl. f_equal.
    now rewrite (left_id_L ∅ (∪)).
  - destruct (IH (Datatypes.S n)
                (mkCore (pend c) ({[id tc]} ∪ exist c) (tk c))) as [-> ->].
    split; [reflexivity |]. simpl. f_equal.
    rewrite (assoc_L (∪)). f_equal. apply (comm_L (∪)).
Qed.

(** The second run, after reading what a flush of the first emitted. *)
Lemma after_flush c1 c2 :
  inSync c1 c2 ->
  let c2' := runCore c2 (flushOut clock c1) in
  runOut clock' c2 (flushOut clock c1) = flushOut clock c1 /\
  covered c2' /\
  (pend c2' = pend c1 \/ pend c1 = []).
Proof.
  intros H. unfold flushOut.
  destruct (run_synth (missing (exist c1) (pend c1)) (tk c1) c2) as [Ho Hc].
  cbv zeta. rewrite Ho, Hc. split; [reflexivity |].
  destruct H as [[Hp He] | [Hp Hcov]].
  - split; [| left; exact Hp].
    intros tc Hin. simpl in *. rewrite Hp in Hin. rewrite He.
    now apply missing_complete.
  - split; [| now right].
    intros tc Hin. simpl in *. specialize (Hcov tc Hin).
    apply elem_of_union. now right.
Qed.

Lemma second_step c1 c2 msg :
  inSync c1 c2 ->
  runOut clock' c2 (stepOut clock c1 msg) = stepOut clock c1 msg /\
  inSync (stepCore c1 msg) (runCore c2 (stepOut clock c1 msg)).
Proof.
  intros H. destruct msg as [u|a|tr]; unfold stepOut.
  - (* user *)
    destruct (after_flush c1 c2 H) as (Ho & Hcov & Hp).
    rewrite runOut_app, runCore_app, Ho. simpl.
    rewrite (flushOut_covered clock' _ Hcov), app_nil_r. split; [reflexivity |].
    destruct (pend c1) eqn:E1.
    + right. split; [now rewrite flushCore_pend_nil |].
      now apply flushCore_covered.
    + left. destruct Hp as [Hp | Hp]; [| discriminate].
      destruct (flushCore_reset c1) as [-> ->]; [congruence |].
      destruct (flushCore_reset (runCore c2 (flushOut clock c1)))
        as [-> ->]; [congruence | auto].
  - (* assistant *)
    destruct (after_flush c1 c2 H) as (Ho & Hcov & Hp).
    rewrite runOut_app, runCore_app, Ho. simpl.
    destruct (dropped a) eqn:D; simpl.
    + rewrite app_nil_r. split; [reflexivity |].
      right. split; [apply pend_flushCore | exact Hcov].
    + rewrite ?D, ?(flushOut_covered clock' _ Hcov). simpl.
      rewrite ?app_nil_r. split; [reflexivity |].
      destruct (toolCallsOf (content a)) as [|tc tcs].
      * right. split; [apply pend_flushCore | now apply flushCore_covered].
      * left. auto.
  - (* tool result *)
    simpl. split; [reflexivity |].
    destruct H as [[Hp He] | [Hp Hcov]].
    + left. simpl. rewrite Hp, He. auto.
    + right. split; [exact Hp |].
      intros tc Hin. simpl in *. specialize (Hcov tc Hin).
      apply elem_of_union. now right.
Qed.

Lemma second_run : forall l c1 c2,
  inSync c1 c2 ->
  runOut clock' c2 (runOut clock c1 l) = runOut clock c1 l.
Proof.
  induction l as [|msg l IH]; intros c1 c2 H; simpl; [reflexivity |].
  destruct (second_step c1 c2 msg H) as [Ho Hs].
  rewrite runOut_app, Ho. f_equal. now apply IH.
Qed.

(** The repair stage, run on its own output, changes nothing. *)
Lemma insertSyntheticToolResults_idempotent l :
  insertSyntheticToolResults clock'
    (insertSyntheticToolResults clock l)
  = insertSyntheticToolResults clock l.
Proof.
  rewrite !insertSyntheticToolResults_spec.
  apply second_run. left. auto.
Qed.

End SecondRun.

Lemma dropped_spec a :
  dropped a = true <-> stopReason a = error \/ stopReason a = aborted.
Proof. unfold dropped. destruct (stopReason a); simpl; intuition congruence. Qed.

(** C8.  The repair stage drops every assistant message whose stop reason
    is [error] or [aborted]: no such message is in its output.  Every
    other message of the input is in the output, and what the output
    holds besides are synthetic tool results. *)
Theorem repair_drops_failed_assistant_messages :
  forall (clock : nat -> Z) (messages : list Message),
    (forall a, In (Assistant a) (insertSyntheticToolResults clock messages) ->
               stopReason a <> error /\ stopReason a <> aborted) /\
    (forall m, In m messages -> kept m = true ->
               In m (insertSyntheticToolResults clock messages)) /\
    (forall m, In m (insertSyntheticToolResults clock messages) ->
               In m messages \/
               exists tc t, m = ToolResult (syntheticToolResult tc t)).
Proof.
  intros clock messages. rewrite insertSyntheticToolResults_spec.
  split; [| split].
  - intros a H. apply runOut_inv in H as [[_ Hk] | (tc & t & [=])].
    simpl in Hk. apply negb_true_iff in Hk.
    split; intros E; assert (dropped a = true) by (apply dropped_spec; auto);
      congruence.
  - intros m Hin Hk. now apply runOut_kept.
  - intros m H. apply runOut_inv in H as [[Hin _] | H]; auto.
Qed.

End RepairFacts.

(** ** Stage 1 of the pipeline: the normalisation of assistant content *)

Module NormalizeFacts.
Import JsString Completion Types Transform RepairFacts.
Local Close Scope string_scope.

Lemma length_append (a b : string) :
  String.length (a +:+ b) = (String.length a + String.length b)%nat.
Proof.
  induction a as [|c a IH]; [reflexivity |].
  change (String c a +:+ b)%string with (String c (a +:+ b)).
  simpl. now rewrite IH.
Qed.

Lemma normPrefix_changes id mdl src : normPrefix id mdl src <> id.
Proof.
  unfold normPrefix. intros E. apply (f_equal String.length) in E.
  rewrite length_append in E. simpl in E. lia.
Qed.

(** The pipeline never throws on messages of type [Message]; it is the
    repair stage after the normalisation stage. *)
Lemma validateAll_returns l : validateAll l = Returns tt.
Proof. induction l as [|[ | | ] l IH]; simpl; auto. Qed.

Lemma transformMessages_spec clock l mdl n :
  transformMessages clock l mdl n =
  Returns (insertSyntheticToolResults clock
             (normalizeMessages (mkContext mdl n) ∅ l)).
Proof.
  unfold transformMessages, transform. rewrite validateAll_returns. simpl.
  now rewrite !validateAll_returns.
Qed.

(** *** Remapping with [id => "norm-" + id] *)

Section Remap.
Variable mdl : Model.
Let ctx := mkContext mdl (Some normPrefix).

(** Every entry of the id table is an id with its normalised form. *)
Definition tableOk (m : gmap string string) : Prop :=
  forall k v, m !! k = Some v -> v = ("norm-" +:+ k)%string.

Definition extends (m m' : gmap string string) : Prop :=
  tableOk m' /\ forall k, is_Some (m !! k) -> is_Some (m' !! k).

Lemma extends_refl m : tableOk m -> extends m m.
Proof. split; auto. Qed.

Lemma extends_trans m1 m2 m3 : extends m1 m2 -> extends m2 m3 -> extends m1 m3.
Proof. intros [_ H1] [H2 H3]. split; auto. Qed.

Lemma extends_insert m k :
  tableOk m -> extends m (<[k := ("norm-" +:+ k)%string]> m).
Proof.
  intros H. split.
  - intros k' v. rewrite lookup_insert. case_decide; [| apply H].
    intros [= <-]. now subst.
  - intros k' Hk. rewrite lookup_insert. case_decide; eauto.
Qed.

Lemma extends_lookup m m' k :
  extends m m' -> is_Some (m !! k) -> m' !! k = Some ("norm-" +:+ k)%string.
Proof.
  intros [Hok Hm] Hk. destruct (Hm k Hk) as [v Hv].
  now rewrite Hv, (Hok k v Hv).
Qed.

Lemma normalizeBlock_extends a m b :
  tableOk m -> extends m (snd (normalizeBlock ctx a m b)).
Proof.
  intros H. destruct b as [t | t sg | tc]; simpl.
  - destruct (isSameModel mdl a); now apply extends_refl.
  - repeat (match goal with |- context [if ?c then _ else _] => destruct c end);
      now apply extends_refl.
  - destruct (negb (isSameModel mdl a)); [| now apply extends_refl].
    destruct (negb _); [| now apply extends_refl].
    simpl. now apply extends_insert.
Qed.

Lemma normalizeContent_extends a : forall bs m,
  tableOk m -> extends m (snd (normalizeContent ctx a m bs)).
Proof.
  induction bs as [|b bs IH]; intros m H; simpl; [now apply extends_refl |].
  pose proof (normalizeBlock_extends a m b H) as E1.
  destruct (normalizeBlock ctx a m b) as [o1 m1]. simpl in E1.
  pose proof (IH m1 (proj1 E1)) as E2.
  destruct (normalizeContent ctx a m1 bs) as [o2 m2]. simpl in *.
  eapply extends_trans; eauto.
Qed.

Lemma normalizeMessage_extends m msg :
  tableOk m -> extends m (snd (normalizeMessage ctx m msg)).
Proof.
  intros H. destruct msg as [u | a | r]; simpl.
  - now apply extends_refl.
  - pose proof (normalizeContent_extends a (content a) m H) as E.
    destruct (normalizeContent ctx a m (content a)); exact E.
  - destruct (m !! toolCallId r); [| now apply extends_refl].
    destruct (_ && _); now apply extends_refl.
Qed.

(** What a tool call of a foreign message becomes. *)
Definition remapped (tc : ToolCall) : ToolCall :=
  mkToolCall ("norm-" +:+ id tc)%string (name tc) (arguments tc)
    (if present (thoughtSignature tc) then None else thoughtSignature tc).

Lemma normalizeBlock_toolCall a m tc :
  isSameModel mdl a = false ->
  normalizeBlock ctx a m (ToolCallBlock tc) =
  ([ToolCallBlock (remapped tc)], <[id tc := ("norm-" +:+ id tc)%string]> m).
Proof.
  intros Hs. unfold normalizeBlock.
  cbn [ctx ctx_model normalizeToolCallId]. rewrite Hs. cbn [negb andb].
  assert (E : String.eqb (normPrefix (id tc) mdl a) (id tc) = false)
    by apply String.eqb_neq, normPrefix_changes.
  rewrite E. cbn [negb]. unfold remapped, normPrefix.
  destruct (present (thoughtSignature tc)); reflexivity.
Qed.

Lemma normalizeContent_toolCall a tc :
  isSameModel mdl a = false ->
  forall bs m, tableOk m -> In (ToolCallBlock tc) bs ->
    In (ToolCallBlock (remapped tc)) (fst (normalizeContent ctx a m bs)) /\
    is_Some (snd (normalizeContent ctx a m bs) !! id tc).
Proof.
  intros Hs. induction bs as [|b bs IH]; intros m H Hin; simpl; [destruct Hin |].
  pose proof (normalizeBlock_extends a m b H) as E1.
  destruct Hin as [-> | Hin].
  - rewrite normalizeBlock_toolCall in * by assumption. simpl in E1.
    pose proof (normalizeContent_extends a bs _ (proj1 E1)) as E2.
    destruct (normalizeContent ctx a _ bs) as [o2 m2]. simpl in *.
    split; [now left |].
    apply (proj2 E2). rewrite lookup_insert_eq. eauto.
  - destruct (normalizeBlock ctx a m b) as [o1 m1]. simpl in E1.
    destruct (IH m1 (proj1 E1) Hin) as [Hi Hk].
    destruct (normalizeContent ctx a m1 bs) as [o2 m2]. simpl in *.
    split; [apply in_app_iff; now right | exact Hk].
Qed.

(** A later result for a remapped id is rewritten. *)
Lemma normalizeMessages_result : forall l m k r,
  tableOk m -> is_Some (m !! toolCallId r) ->
  l !! k = Some (ToolResult r) ->
  normalizeMessages ctx m l !! k
  = Some (ToolResult (withToolCallId r ("norm-" +:+ toolCallId r)%string)).
Proof.
  induction l as [|msg l IH]; intros m k r H Hk Hl; [discriminate |].
  simpl. pose proof (normalizeMessage_extends m msg H) as E.
  destruct k as [|k]; simpl in Hl.
  - injection Hl as ->. simpl.
    rewrite (extends_lookup m m _ (extends_refl m H) Hk).
    destruct (String.eqb_spec ("norm-" +:+ toolCallId r)%string (toolCallId r)) as [F|_].
    + now apply (normPrefix_changes _ mdl (mkAssistant [] "" "" "" (mkUsage 0 0 0 0 0) stop None 0)) in F.
    + reflexivity.
  - destruct (normalizeMessage ctx m msg) as [msg' m']. simpl in *.
    apply IH; [apply E | apply E; exact Hk | exact Hl].
Qed.

(** The remap at positions [i < k] of the list. *)
Lemma normalizeMessages_remap : forall l m i k a tc r,
  tableOk m ->
  l !! i = Some (Assistant a) -> isSameModel mdl a = false ->
  In (ToolCallBlock tc) (content a) ->
  (i < k)%nat -> l !! k = Some (ToolResult r) -> toolCallId r = id tc ->
  exists c',
    normalizeMessages ctx m l !! i = Some (Assistant (withContent a c')) /\
    In (ToolCallBlock (remapped tc)) c' /\
    normalizeMessages ctx m l !! k
    = Some (ToolResult (withToolCallId r ("norm-" +:+ id tc)%string)).
Proof.
  induction l as [|msg l IH]; intros m i k a tc r H Hi Hs Hin Hik Hk Hid;
    [discriminate |].
  destruct k as [|k]; [lia |]. simpl in Hk.
  pose proof (normalizeMessage_extends m msg H) as E.
  destruct i as [|i]; simpl in Hi.
  - injection Hi as ->. simpl in *.
    destruct (normalizeContent_toolCall a tc Hs (content a) m H Hin) as [Hc Hm].
    destruct (normalizeContent ctx a m (content a)) as [c' m']. simpl in *.
    exists c'. split; [reflexivity |]. split; [exact Hc |].
    rewrite <- Hid. apply normalizeMessages_result; [apply E | | exact Hk].
    now rewrite Hid.
  - simpl. destruct (normalizeMessage ctx m msg) as [msg' m']. simpl in *.
    apply (IH m' i k a tc r); auto; [apply E | lia].
Qed.

End Remap.

Lemma lookup_split {A} : forall (l : list A) i k x y,
  (i < k)%nat -> l !! i = Some x -> l !! k = Some y ->
  exists l1 l2 l3, l = l1 ++ x :: l2 ++ y :: l3.
Proof.
  induction l as [|z l IH]; intros i k x y Hik Hi Hk; [discriminate |].
  destruct k as [|k]; [lia |]. simpl in Hk.
  destruct i as [|i]; simpl in Hi.
  - injection Hi as ->. exists [].
    apply list_elem_of_lookup_2, list_elem_of_split in Hk as (l2 & l3 & ->).
    eauto.
  - destruct (IH i k x y) as (l1 & l2 & l3 & ->); [lia | auto | auto |].
    exists (z :: l1), l2, l3. reflexivity.
Qed.

(** The repair stage keeps two kept messages in their order. *)
Lemma runOut_keeps_order clock c l1 x l2 y l3 :
  kept x = true -> kept y = true ->
  exists o1 o2 o3,
    runOut clock c (l1 ++ x :: l2 ++ y :: l3) = o1 ++ x :: o2 ++ y :: o3.
Proof.
  intros Hx Hy. rewrite runOut_app. simpl. rewrite runOut_app. simpl.
  destruct (stepOut_kept clock (runCore c l1) x Hx) as [F ->].
  destruct (stepOut_kept clock (runCore (stepCore (runCore c l1) x) l2) y Hy)
    as [F' ->].
  exists (runOut clock c l1 ++ F),
    (runOut clock (stepCore (runCore c l1) x) l2 ++ F'),
    (runOut clock (stepCore (runCore (stepCore (runCore c l1) x) l2) y) l3).
  rewrite <- ?app_assoc. simpl. rewrite <- ?app_assoc. reflexivity.
Qed.

Definition foreignCall : Message :=
  Assistant (mkAssistant [ToolCallBlock (mkToolCall "orig" "search" "{}" None)]
               "openai-completions" "openai" "gpt-test" (mkUsage 0 0 0 0 0)
               toolUse None 0).

Definition failedForeignCall : Message :=
  Assistant (mkAssistant [ToolCallBlock (mkToolCall "orig" "search" "{}" None)]
               "openai-completions" "openai" "gpt-test" (mkUsage 0 0 0 0 0)
               error (Some "connection reset"%string) 0).

Definition resultFor (i : string) : Message :=
  ToolResult (mkToolResult i "search" [TextBlock "found"] false 0).

Definition target : Model := mkModel "other-model" "openai-completions" "openai".

Definition wallClock (n : nat) : Z := 1700000000000 + Z.of_nat n.

(** C4, as the specification words it, fails when the assistant message
    stopped with [error]: the repair stage drops the message, so the
    output holds the rewritten result and no tool call at all. *)
Lemma remap_of_failed_message :
  isSameModel target
    (mkAssistant [ToolCallBlock (mkToolCall "orig" "search" "{}" None)]
       "openai-completions" "openai" "gpt-test" (mkUsage 0 0 0 0 0)
       error (Some "connection reset"%string) 0) = false /\
  transformMessages wallClock [failedForeignCall; resultFor "orig"] target
    (Some normPrefix)
  = Returns [resultFor "norm-orig"].
Proof. split; vm_compute; reflexivity. Qed.

(** C4, as the code has it.  Let an assistant message of another model
    than the target hold a tool call with id ["orig"], and let a later
    tool result refer to ["orig"].  With the normalizer
    [id => "norm-" + id], stage 1 rewrites the call's id to
    ["norm-orig"] in the message at the same position, and the result's
    [toolCallId] to ["norm-orig"].  [transformMessages] returns a list
    that holds the rewritten result; it holds the rewritten call, before
    that result, unless the message stopped with [error] or [aborted]. *)
Theorem toolCallId_remap_propagates
    (clock : nat -> Z) (mdl : Model) (messages : list Message)
    (i k : nat) (a : AssistantMessage) (tc : ToolCall) (r : ToolResultMessage) :
  messages !! i = Some (Assistant a) ->
  isSameModel mdl a = false ->
  In (ToolCallBlock tc) (content a) ->
  id tc = "orig"%string ->
  (i < k)%nat ->
  messages !! k = Some (ToolResult r) ->
  toolCallId r = "orig"%string ->
  exists c' tc' out,
    id tc' = "norm-orig"%string /\ name tc' = name tc /\
    arguments tc' = arguments tc /\
    In (ToolCallBlock tc') c' /\
    normalizeMessages (mkContext mdl (Some normPrefix)) ∅ messages !! i
    = Some (Assistant (withContent a c')) /\
    normalizeMessages (mkContext mdl (Some normPrefix)) ∅ messages !! k
    = Some (ToolResult (withToolCallId r "norm-orig")) /\
    transformMessages clock messages mdl (Some normPrefix) = Returns out /\
    In (ToolResult (withToolCallId r "norm-orig")) out /\
    (stopReason a <> error -> stopReason a <> aborted ->
     exists o1 o2 o3,
       out = o1 ++ Assistant (withContent a c')
                :: o2 ++ ToolResult (withToolCallId r "norm-orig") :: o3).
Proof.
  intros Hi Hs Hin Hid Hik Hk Hr.
  destruct (normalizeMessages_remap mdl messages ∅ i k a tc r)
    as (c' & Ha & Hc & Ht); auto.
  { intros ? ? H. now rewrite lookup_empty in H. }
  { now rewrite Hr, Hid. }
  rewrite Hid in Ht. change ("norm-" +:+ "orig")%string with "norm-orig"%string in Ht.
  exists c', (remapped tc), (insertSyntheticToolResults clock
    (normalizeMessages (mkContext mdl (Some normPrefix)) ∅ messages)).
  split; [unfold remapped; simpl; now rewrite Hid |].
  do 3 (split; [reflexivity || assumption |]).
  do 2 (split; [assumption |]).
  split; [apply transformMessages_spec |].
  rewrite insertSyntheticToolResults_spec. split.
  - apply runOut_kept; [| reflexivity].
    apply list_elem_of_In. eapply list_elem_of_lookup_2. exact Ht.
  - intros He Hab.
    destruct (lookup_split _ i k _ _ Hik Ha Ht) as (l1 & l2 & l3 & ->).
    apply runOut_keeps_order; [| reflexivity].
    simpl. apply negb_true_iff. change (dropped a = false).
    destruct (dropped a) eqn:D; [| reflexivity].
    apply dropped_spec in D. simpl in D. tauto.
Qed.

(** C4 at the two-message history of the specification's example. *)
Lemma toolCallId_remap_propagates_witness :
  exists c' tc' out,
    id tc' = "norm-orig"%string /\
    In (ToolCallBlock tc') c' /\
    transformMessages wallClock [foreignCall; resultFor "orig"] target
      (Some normPrefix) = Returns out /\
    In (resultFor "norm-orig") out.
Proof.
  destruct (toolCallId_remap_propagates wallClock target
              [foreignCall; resultFor "orig"] 0 1
              (mkAssistant [ToolCallBlock (mkToolCall "orig" "search" "{}" None)]
                 "openai-completions" "openai" "gpt-test" (mkUsage 0 0 0 0 0)
                 toolUse None 0)
              (mkToolCall "orig" "search" "{}" None)
              (mkToolResult "orig" "search" [TextBlock "found"] false 0))
    as (c' & tc' & out & H1 & _ & _ & H2 & _ & _ & H3 & H4 & _).
  - reflexivity.
  - reflexivity.
  - simpl. left. reflexivity.
  - reflexivity.
  - lia.
  - reflexivity.
  - reflexivity.
  - exists c', tc', out. repeat split; assumption.
Defined.

End NormalizeFacts.

(** ** Running the pipeline on its own output *)

Module PipelineFacts.
Import JsString Completion Types Transform RepairFacts NormalizeFacts.
Local Close Scope string_scope.

(** A normalizer that leaves its own results alone, for whatever source
    message it is called.  No normalizer at all counts as one. *)
Definition stableNormalizer (mdl : Model) (n : option Normalizer) : Prop :=
  match n with
  | None => True
  | Some f => forall i src src', f (f i mdl src) mdl src' = f i mdl src
  end.

(** Cutting an id to its first 64 characters, as a provider with a limit
    on the length of ids does. *)
Definition truncate64 : Normalizer := fun i _ _ => substring 0 64 i.

Lemma substring_prefix_idem : forall n s,
  substring 0 n (substring 0 n s) = substring 0 n s.
Proof.
  induction n as [|n IH]; intros [|c s]; simpl; try reflexivity.
  now rewrite IH.
Qed.

Lemma truncate64_stable mdl : stableNormalizer mdl (Some truncate64).
Proof. intros i src src'. apply substring_prefix_idem. Qed.

Section Stable.
Variable mdl : Model.
Local Abbreviation ctx n := (mkContext mdl n).

(** Stage 1 leaves the message as it is and records nothing. *)
Definition settled n (msg : Message) : Prop :=
  normalizeMessage (ctx n) ∅ msg = (msg, ∅).

Definition settledBlock n (same : bool) (b : Block) : Prop :=
  forall a', isSameModel mdl a' = same ->
    normalizeBlock (ctx n) a' ∅ b = ([b], ∅).

Lemma normalizeBlock_settles n a m b :
  stableNormalizer mdl n ->
  Forall (settledBlock n (isSameModel mdl a))
    (fst (normalizeBlock (ctx n) a m b)).
Proof.
  intros stable. destruct b as [t | t sg | tc].
  - (* text *)
    simpl. destruct (isSameModel mdl a) eqn:S; simpl;
      (constructor; [| constructor]); intros a' Ha'; simpl; now rewrite Ha'.
  - (* thinking *)
    simpl. destruct (isSameModel mdl a) eqn:S; simpl.
    + destruct (present sg) eqn:P; simpl.
      * constructor; [| constructor]. intros a' Ha'. simpl.
        now rewrite Ha', P.
      * destruct (negb (truthy t) || String.eqb (trim t) "") eqn:E; simpl;
          constructor; [| constructor].
        intros a' Ha'. simpl. now rewrite Ha', P, E.
    + destruct (negb (truthy t) || String.eqb (trim t) "") eqn:E; simpl;
        constructor; [| constructor].
      intros a' Ha'. simpl. now rewrite Ha'.
  - (* tool call *)
    unfold normalizeBlock. cbn [ctx_model normalizeToolCallId].
    destruct (isSameModel mdl a) eqn:S; cbn [negb andb].
    + assert (Hk : settledBlock n true (ToolCallBlock tc)).
      { intros a' Ha'. unfold normalizeBlock.
        cbn [ctx_model normalizeToolCallId]. rewrite Ha'. cbn [negb andb].
        destruct n; reflexivity. }
      destruct n; simpl; constructor; auto.
    + set (ntc := if present (thoughtSignature tc)
                  then mkToolCall (id tc) (name tc) (arguments tc) None
                  else tc).
      assert (Hp : present (thoughtSignature ntc) = false).
      { unfold ntc. destruct (present (thoughtSignature tc)) eqn:P; auto. }
      assert (Hi : id ntc = id tc).
      { unfold ntc. destruct (present (thoughtSignature tc)); auto. }
      destruct n as [f|].
      * assert (Hk : forall tc', id tc' = f (id tc) mdl a ->
                  present (thoughtSignature tc') = false ->
                  settledBlock (Some f) false (ToolCallBlock tc')).
        { intros tc' Hid Hsig a' Ha'. unfold normalizeBlock.
          cbn [ctx_model normalizeToolCallId]. rewrite Ha', Hsig.
          cbn [negb andb]. rewrite Hid, (stable (id tc) a a').
          now rewrite String.eqb_refl. }
        destruct (String.eqb_spec (f (id tc) mdl a) (id tc)) as [E|E];
          cbn [negb fst]; (constructor; [| constructor]); apply Hk; auto.
        now rewrite Hi, E.
      * cbn [fst]. constructor; [| constructor].
        intros a' Ha'. unfold normalizeBlock.
        cbn [ctx_model normalizeToolCallId]. rewrite Ha', Hp. reflexivity.
Qed.

Lemma normalizeContent_settles n a :
  stableNormalizer mdl n ->
  forall bs m,
    Forall (settledBlock n (isSameModel mdl a))
      (fst (normalizeContent (ctx n) a m bs)).
Proof.
  intros stable. induction bs as [|b bs IH]; intros m; simpl; [constructor |].
  pose proof (normalizeBlock_settles n a m b stable) as H1.
  destruct (normalizeBlock (ctx n) a m b) as [o1 m1].
  specialize (IH m1). destruct (normalizeContent (ctx n) a m1 bs) as [o2 m2].
  simpl in *. apply Forall_app. auto.
Qed.

Lemma settled_content n a' : forall bs,
  Forall (settledBlock n (isSameModel mdl a')) bs ->
  normalizeContent (ctx n) a' ∅ bs = (bs, ∅).
Proof.
  induction bs as [|b bs IH]; intros H; [reflexivity |].
  apply Forall_cons in H as [Hb Hbs]. simpl.
  rewrite (Hb a' eq_refl), (IH Hbs). reflexivity.
Qed.

Lemma normalizeMessage_settles n m msg :
  stableNormalizer mdl n ->
  settled n (fst (normalizeMessage (ctx n) m msg)).
Proof.
  intros stable. destruct msg as [u | a | r]; unfold settled.
  - reflexivity.
  - simpl. pose proof (normalizeContent_settles n a stable (content a) m) as H.
    destruct (normalizeContent (ctx n) a m (content a)) as [c' m']. simpl in *.
    rewrite (settled_content n (withContent a c') c' H). reflexivity.
  - simpl. destruct (m !! toolCallId r) as [v|]; [| reflexivity].
    destruct (_ && _); reflexivity.
Qed.

Lemma normalizeMessages_settles n :
  stableNormalizer mdl n ->
  forall l m, Forall (settled n) (normalizeMessages (ctx n) m l).
Proof.
  intros stable. induction l as [|msg l IH]; intros m; simpl; [constructor |].
  pose proof (normalizeMessage_settles n m msg stable) as H.
  destruct (normalizeMessage (ctx n) m msg) as [msg' m']. constructor; auto.
Qed.

Lemma normalizeMessages_settled n l :
  Forall (settled n) l -> normalizeMessages (ctx n) ∅ l = l.
Proof.
  induction 1 as [|msg l Hm _ IH]; simpl; [reflexivity |].
  rewrite Hm, IH. reflexivity.
Qed.

Lemma repair_settled n clock l :
  Forall (settled n) l ->
  Forall (settled n) (insertSyntheticToolResults clock l).
Proof.
  intros H. apply Forall_forall. intros m Hin. apply list_elem_of_In in Hin.
  rewrite insertSyntheticToolResults_spec in Hin.
  apply runOut_inv in Hin as [[Hin _] | (tc & t & ->)].
  - rewrite Forall_forall in H. apply H. now apply list_elem_of_In.
  - reflexivity.
Qed.

(** With a stable normalizer the pipeline returns, on its own output,
    that output. *)
Lemma transformMessages_idempotent n clock clock' l :
  stableNormalizer mdl n ->
  exists out,
    transformMessages clock l mdl n = Returns out /\
    transformMessages clock' out mdl n = Returns out.
Proof.
  intros stable. eexists. split; [apply transformMessages_spec |].
  rewrite transformMessages_spec. f_equal.
  rewrite normalizeMessages_settled.
  - apply insertSyntheticToolResults_idempotent.
  - now apply repair_settled, normalizeMessages_settles.
Qed.

End Stable.

(** *** A history with an id that two turns share *)

Definition callFrom (modelId i : string) : Message :=
  Assistant (mkAssistant [ToolCallBlock (mkToolCall i "search" "{}" None)]
               "openai-completions" "openai" modelId (mkUsage 0 0 0 0 0)
               toolUse None 0).

Definition userTurn : Message := User (mkUser "continue" 0).

(** A call of another model with id ["a"], answered, and a call of the
    target model with id ["norm-a"], answered too. *)
Definition history : list Message :=
  [ callFrom "gpt-test" "a"; resultFor "a"; userTurn;
    callFrom "other-model" "norm-a"; resultFor "norm-a"; userTurn ].

Definition firstOutput : list Message :=
  [ callFrom "gpt-test" "norm-a"; resultFor "norm-a"; userTurn;
    callFrom "other-model" "norm-a"; resultFor "norm-a"; userTurn ].

Definition secondOutput : list Message :=
  [ callFrom "gpt-test" "norm-norm-a"; resultFor "norm-norm-a"; userTurn;
    callFrom "other-model" "norm-a"; resultFor "norm-norm-a";
    ToolResult (syntheticToolResult (mkToolCall "norm-a" "search" "{}" None)
                  (wallClock 0));
    userTurn ].

(** C5, as the specification words it, fails for [transformMessages]
    with the normalizer [id => "norm-" + id].  In the first output every
    tool call has its result and nothing is synthetic.  The second run
    renames the first call again, and with it every later result for the
    old id, also the one that answers the target model's own call: that
    call is left without a result and gets a synthetic one. *)
Lemma second_transform_inserts_result :
  transformMessages wallClock history target (Some normPrefix)
  = Returns firstOutput /\
  existsb isSynthetic firstOutput = false /\
  transformMessages wallClock firstOutput target (Some normPrefix)
  = Returns secondOutput /\
  existsb isSynthetic secondOutput = true.
Proof. repeat split; vm_compute; reflexivity. Qed.

(** C5, as the code has it.  The repair stage alone, run on its own
    output, returns that output: it inserts nothing.  The same holds for
    [transformMessages] when no normalizer is given, or one that leaves
    its own results alone. *)
Theorem repair_idempotent :
  forall (clock clock' : nat -> Z) (messages : list Message),
    insertSyntheticToolResults clock'
      (insertSyntheticToolResults clock messages)
    = insertSyntheticToolResults clock messages
    /\
    forall mdl n, stableNormalizer mdl n ->
      exists out,
        transformMessages clock messages mdl n = Returns out /\
        transformMessages clock' out mdl n = Returns out.
Proof.
  intros clock clock' messages. split.
  - apply insertSyntheticToolResults_idempotent.
  - intros mdl n Hn. now apply transformMessages_idempotent.
Qed.

(** C5 at the history above, with ids cut to 64 characters. *)
Lemma repair_idempotent_witness :
  exists out,
    transformMessages wallClock history target (Some truncate64) = Returns out /\
    transformMessages wallClock out target (Some truncate64) = Returns out.
Proof.
  exact (proj2 (repair_idempotent wallClock wallClock history)
           target (Some truncate64) (truncate64_stable target)).
Defined.

End PipelineFacts.

(** ** The streaming JSON parser *)

Module JsonFacts.
Import JsString Completion JsonParse JsonText.

(** The text the parsers are given: trimmed unless [trimInput] is
    [false]. *)
Definition effectiveInput (partialJson : option string)
    (options : StreamingJsonParseOptions) : option string :=
  match trimInput options with
  | Some false => partialJson
  | _ => option_map trim partialJson
  end.

Definition fallbackOf (options : StreamingJsonParseOptions) : json :=
  nullish (fallbackValue options) (JObject []).

Section Parsers.
Variable JSON_parse : string -> completion thrownValue json.
Variable partialParse : string -> completion thrownValue json.

Local Abbreviation parse :=
  (parseStreamingJsonWithDiagnostics JSON_parse partialParse).

Lemma parse_no_input partialJson options :
  match effectiveInput partialJson options with
  | None => True
  | Some input => truthy input = false
  end ->
  parse partialJson options = Returns (mkResult (fallbackOf options) false false None).
Proof.
  unfold parseStreamingJsonWithDiagnostics, effectiveInput, fallbackOf.
  destruct (match trimInput options with Some false => _ | _ => _ end)
    as [input|]; [| reflexivity].
  now intros ->.
Qed.

Lemma parse_input partialJson options input :
  effectiveInput partialJson options = Some input ->
  truthy input = true ->
  parse partialJson options =
  match JSON_parse input with
  | Returns v => Returns (mkResult v true false None)
  | Throws jsonError =>
      match allowPartial options with
      | Some false =>
          Returns (mkResult (fallbackOf options) false false
                     (Some (errorText jsonError)))
      | _ =>
          match partialParse input with
          | Returns v =>
              Returns (mkResult (nullish (Some v) (fallbackOf options))
                         true true None)
          | Throws partialError =>
              Returns (mkResult (fallbackOf options) false true
                         (Some (errorText partialError)))
          end
      end
  end.
Proof.
  unfold parseStreamingJsonWithDiagnostics, effectiveInput, fallbackOf.
  intros -> ->. cbn [negb].
  destruct (JSON_parse input) as [v|e]; [reflexivity |]. cbn [try_catch].
  destruct (allowPartial options) as [[|]|];
    try reflexivity; destruct (partialParse input); reflexivity.
Qed.

Lemma parse_returns partialJson options :
  exists r, parse partialJson options = Returns r.
Proof.
  destruct (effectiveInput partialJson options) as [input|] eqn:E.
  - destruct (truthy input) eqn:Ht.
    + rewrite (parse_input _ _ input E Ht).
      destruct (JSON_parse input); [eauto |].
      destruct (allowPartial options) as [[|]|]; eauto;
        destruct (partialParse input); eauto.
    + rewrite parse_no_input; [eauto | now rewrite E].
  - rewrite parse_no_input; [eauto | now rewrite E].
Qed.

End Parsers.

Lemma trim_openObject : trim openObject = openObject.
Proof. vm_compute. reflexivity. Qed.

Lemma trim_notJson : trim notJson = notJson.
Proof. vm_compute. reflexivity. Qed.

Lemma effectiveInput_fixed s partialJson options :
  trim s = s -> partialJson = Some s ->
  effectiveInput partialJson options = Some s.
Proof.
  intros Ht ->. unfold effectiveInput.
  destruct (trimInput options) as [[|]|]; simpl; now rewrite ?Ht.
Qed.



End JsonFacts.

(** ** The event stream *)

Module EventStreamFacts.
Import EventStream.
Local Close Scope string_scope.

Section Stream.
Context {T R : Type}.
Variable isComplete : T -> bool.
Variable extractResult : T -> R.
Variable historyLimit : option Z.

Local Abbreviation state := (@EventStream.state T R).
Local Abbreviation call := (@EventStream.call T R).
Local Abbreviation push := (push isComplete extractResult historyLimit).
Local Abbreviation run := (run isComplete extractResult historyLimit).
Local Abbreviation perform := (perform isComplete extractResult historyLimit).

(** A call that ends the stream: a completing [push], or [end]. *)
Definition isTerminal (c : call) : bool :=
  match c with
  | Push event => isComplete event
  | End _ => true
  | Next _ => false
  end.

Lemma push_done s event : done s = true -> push event s = s.
Proof. unfold EventStream.push. now intros ->. Qed.

Lemma done_resolve r (s : state) : done (resolveFinalResult r s) = done s.
Proof. unfold resolveFinalResult. now destruct (finalResult s). Qed.

Lemma done_push_complete s event :
  isComplete event = true -> done (push event s) = true.
Proof.
  intros Hc. unfold EventStream.push. destruct (done s) eqn:D; [exact D |].
  rewrite Hc. destruct (waiting _); simpl; now rewrite done_resolve.
Qed.

Lemma done_end r (s : state) : done (end_ r s) = true.
Proof. unfold end_. destruct r; simpl; [now rewrite done_resolve | reflexivity]. Qed.

Lemma done_next w (s : state) : done (fst (next w s)) = done s.
Proof.
  unfold next. destruct (queue s); [| reflexivity].
  destruct (done s) eqn:D; simpl; congruence.
Qed.

Lemma done_perform s c : done s = true -> done (perform s c) = true.
Proof.
  intros D. destruct c as [event | r | w]; simpl.
  - now rewrite push_done.
  - apply done_end.
  - now rewrite done_next.
Qed.

Lemma done_perform_terminal s c : isTerminal c = true -> done (perform s c) = true.
Proof.
  destruct c as [event | r | w]; simpl; intros H.
  - now apply done_push_complete.
  - apply done_end.
  - discriminate.
Qed.

Lemma done_run : forall calls s, done s = true -> done (run calls s) = true.
Proof.
  induction calls as [|c calls IH]; intros s D; simpl; [exact D |].
  apply IH, done_perform, D.
Qed.

Lemma run_app a b (s : state) : run (a ++ b) s = run b (run a s).
Proof. apply fold_left_app. Qed.

Lemma end_end r r' (s : state) :
  (r' = None \/ r' = r) -> end_ r' (end_ r s) = end_ r s.
Proof.
  intros H. unfold end_. destruct s as [q w d f h rs]. simpl.
  assert (E : forall x : list (nat * IteratorResult (T := T)), x ++ [] = x)
    by apply app_nil_r.
  destruct H as [-> | ->].
  - destruct r as [r|]; unfold resolveFinalResult; simpl;
      [destruct f |]; simpl; now rewrite E.
  - destruct r as [r|]; unfold resolveFinalResult; simpl;
      [destruct f |]; simpl; now rewrite E.
Qed.

(** C7.  After a call that ends the stream, a [push] of an event that
    satisfies [isComplete] or an [end], and whatever is called after
    it, [push] changes nothing: the queue, the history, the final
    result and the rest of the state stay as they are.  An [end()]
    after an [end] leaves the state as it is, and so does an [end]
    with the same result. *)
Theorem push_after_terminal_is_noop
    (s0 : state) (before after : list call) (terminal : call) (event : T) :
  isTerminal terminal = true ->
  let s := run (before ++ terminal :: after) s0 in
  push event s = s /\
  (forall r, end_ None (end_ r s) = end_ r s) /\
  (forall r, end_ r (end_ r s) = end_ r s).
Proof.
  intros Ht s. split; [| split].
  - apply push_done. unfold s. rewrite run_app. simpl.
    apply done_run, done_perform_terminal, Ht.
  - intros r. apply end_end. now left.
  - intros r. apply end_end. now right.
Qed.

(** *** The final result *)

Lemma finalResult_next w (s : state) :
  finalResult (fst (next w s)) = finalResult s.
Proof. unfold next. destruct (queue s); [destruct (done s) |]; reflexivity. Qed.

Lemma finalResult_push_plain s event :
  isComplete event = false -> finalResult (push event s) = finalResult s.
Proof.
  intros Hc. unfold EventStream.push. destruct (done s); [reflexivity |].
  rewrite Hc. simpl. now destruct (waiting s).
Qed.

Lemma finalResult_end_plain (s : state) :
  finalResult (end_ None s) = finalResult s.
Proof. reflexivity. Qed.

(** Before the stream is done, only a completing [push] and an [end]
    with a result settle the final result. *)
Lemma pending_run : forall calls s,
  forallb (settlesNothing isComplete) calls = true ->
  finalResult s = None -> finalResult (run calls s) = None.
Proof.
  induction calls as [|c calls IH]; intros s Hc Hs; simpl; [exact Hs |].
  simpl in Hc. apply andb_true_iff in Hc as [H1 H2]. apply IH; [exact H2 |].
  destruct c as [event | [r|] | w]; simpl in *.
  - rewrite finalResult_push_plain; [exact Hs | now apply negb_true_iff].
  - discriminate.
  - exact Hs.
  - now rewrite finalResult_next.
Qed.

(** Once it is done, only an [end] with a result does. *)
Lemma pending_run_done : forall calls s,
  forallb endsWithoutResult calls = true ->
  done s = true -> finalResult s = None -> finalResult (run calls s) = None.
Proof.
  induction calls as [|c calls IH]; intros s Hc Hd Hs; simpl; [exact Hs |].
  simpl in Hc. apply andb_true_iff in Hc as [H1 H2].
  apply IH; [exact H2 | now apply done_perform |].
  destruct c as [event | [r|] | w]; simpl in *.
  - now rewrite push_done.
  - discriminate.
  - exact Hs.
  - now rewrite finalResult_next.
Qed.

(** On a stream that is done the iterator yields what is queued and
    returns. *)
Lemma drain_done w : forall (q : list T) wt (f : option R) h rs,
  drain (Datatypes.S (List.length q)) w (mkState q wt true f h rs)
  = (q, Some (mkState [] wt true f h rs)).
Proof.
  induction q as [|event q IH]; intros wt f h rs; [reflexivity |].
  change (drain (Datatypes.S (List.length (event :: q))) w
            (mkState (event :: q) wt true f h rs))
    with (let '(events, final) :=
            drain (Datatypes.S (List.length q)) w (mkState q wt true f h rs) in
          (event :: events, final)).
  now rewrite IH.
Qed.

Lemma drain_when_done w (s : state) :
  done s = true ->
  drain (Datatypes.S (List.length (queue s))) w s
  = (queue s,
     Some (mkState [] (waiting s) true (finalResult s) (history s) (resumed s))).
Proof. destruct s as [q wt d f h rs]. simpl. intros ->. apply drain_done. Qed.

(** C9.  Let no call so far have settled the final result: no pushed
    event satisfied [isComplete] and no [end] carried a result.  After
    an [end()] without a result the final result is still pending,
    and it stays pending whatever is called next, short of an [end]
    with a result.  The consumers that waited are all resumed with
    the end of the iteration, and an iterator started now yields the
    queued events and returns. *)
Theorem end_without_result_leaves_result_pending
    (before after : list call) (waiter : nat) :
  forallb (settlesNothing isComplete) before = true ->
  forallb endsWithoutResult after = true ->
  let s0 := run before init in
  let s1 := end_ None s0 in
  result (run (before ++ End None :: after) init) = None /\
  result s1 = None /\
  waiting s1 = [] /\
  resumed s1 = resumed s0 ++ map (fun w => (w, Finished)) (waiting s0) /\
  exists final,
    drain (Datatypes.S (List.length (queue s1))) waiter s1
    = (queue s1, Some final) /\
    result final = None.
Proof.
  intros Hb Ha s0 s1.
  assert (H0 : finalResult s0 = None) by (now apply pending_run).
  assert (H1 : finalResult s1 = None) by exact H0.
  split; [| split; [exact H1 | split; [reflexivity | split; [reflexivity |]]]].
  - unfold result. rewrite run_app. simpl.
    apply pending_run_done; [exact Ha | apply done_end | exact H1].
  - rewrite (drain_when_done waiter s1 (done_end None s0)).
    eexists. split; [reflexivity |]. exact H1.
Qed.

End Stream.

(** A stream of numbers that is complete at 3, as in the tests. *)
Definition isThree (n : Z) : bool := (n =? 3)%Z.

(** C7 on that stream: 1, then the completing 3, then a consumer and an
    [end]; a further push of 4 is dropped. *)
Lemma push_after_terminal_is_noop_witness :
  EventStream.push isThree (fun n => n) None 4
    (EventStream.run isThree (fun n => n) None
       ([Push 1] ++ Push 3 :: [Next 0; End None]) init)
  = EventStream.run isThree (fun n => n) None
      ([Push 1] ++ Push 3 :: [Next 0; End None]) init.
Proof.
  exact (proj1 (push_after_terminal_is_noop isThree (fun n => n) None init
                  [Push 1] [Next 0; End None] (Push 3) 4 eq_refl)).
Defined.

(** C9 on that stream: 1 and 2 are pushed, a consumer takes 1, the
    stream is ended without a result, and a late 3 is pushed. *)
Lemma end_without_result_leaves_result_pending_witness :
  result (EventStream.run isThree (fun n => n) None
            ([Push 1; Push 2; Next 0] ++ End None :: [Push 3; Next 0; Next 0])
            init) = None.
Proof.
  exact (proj1 (end_without_result_leaves_result_pending isThree (fun n => n) None
                  [Push 1; Push 2; Next 0] [Push 3; Next 0; Next 0] 0
                  eq_refl eq_refl)).
Defined.

End EventStreamFacts.

(** ** The provider registry *)

Module RegistryFacts.
Import JsString Completion Types.
Local Close Scope string_scope.

Section Providers.
Variables Context Options Stream : Type.
Variable validateContext : Context -> completion string unit.

Local Abbreviation registry := (Registry.registry Context Options Stream).
Local Abbreviation entry := (Registry.RegisteredApiProvider Context Options Stream).

Lemma map_get_set (k : string) (v : entry) : forall m : registry,
  Registry.map_get k (Registry.map_set k v m) = Some v.
Proof.
  induction m as [|[k' v'] m IH]; simpl.
  - now rewrite String.eqb_refl.
  - destruct (String.eqb k' k) eqn:E; simpl; now rewrite E.
Qed.

(** An entry that is switched off adds nothing to [list()]. *)
Lemma list_set_disabled (k : string) (v e : entry) : forall m : registry,
  Registry.map_get k m = Some e ->
  Registry.enabled (Registry.metadata v) = false ->
  Registry.list false (Registry.map_set k v m)
  = Registry.list false (Registry.map_delete k m).
Proof.
  unfold Registry.list.
  induction m as [|[k' v'] m IH]; intros Hg Hv; [discriminate |].
  simpl in *. destruct (String.eqb k' k) eqn:E; simpl.
  - now rewrite Hv.
  - destruct (Registry.enabled (Registry.metadata v')); simpl;
      rewrite IH; auto.
Qed.

Lemma list_set_all (k : string) (v e : entry) : forall m : registry,
  Registry.map_get k m = Some e ->
  In (Registry.provider v) (Registry.list true (Registry.map_set k v m)).
Proof.
  unfold Registry.list.
  induction m as [|[k' v'] m IH]; intros Hg; [discriminate |].
  simpl in *. destruct (String.eqb k' k) eqn:E; simpl; [now left |].
  right. now apply IH.
Qed.

Definition notRegistered (api : string) : string :=
  ("No API provider registered for api: " +:+ api)%string.

(** C10.  Let [api] be registered with entry [e].  [disable(api)]
    answers [true], and after it [get(api)] is undefined, as it is for
    an api that was never registered; [getWithMetadata(api)] still
    gives the entry, now switched off; [list(true)] holds the provider
    and [list()] is what it would be without the entry; the entry
    point throws [No API provider registered for api: ...].  After
    [enable(api)], [get(api)] gives the provider again. *)
Theorem disabled_provider_is_not_resolved
    (reg : registry) (api : string) (e : entry) (now now' : Z) :
  Registry.map_get api reg = Some e ->
  let reg1 := snd (Registry.disable api now reg) in
  let reg2 := snd (Registry.enable api now' reg1) in
  fst (Registry.disable api now reg) = true /\
  Registry.get api reg1 = None /\
  (forall other : registry,
     Registry.map_get api other = None ->
     Registry.get api other = Registry.get api reg1) /\
  Registry.getWithMetadata api reg1 = Some (Registry.setEnabled false now e) /\
  In (Registry.provider e) (Registry.list true reg1) /\
  Registry.list false reg1 = Registry.list false (Registry.map_delete api reg) /\
  Registry.resolveApiProvider api reg1 = Throws (notRegistered api) /\
  (forall model context options,
     Registry.validateModel model = Returns tt ->
     validateContext context = Returns tt ->
     model_api model = api ->
     Registry.streamEntry validateContext model context options reg1
     = Throws (notRegistered api)) /\
  fst (Registry.enable api now' reg1) = true /\
  Registry.get api reg2 = Some (Registry.provider e).
Proof.
  intros Hg reg1 reg2.
  assert (H1 : reg1 = Registry.map_set api (Registry.setEnabled false now e) reg).
  { unfold reg1, Registry.disable. now rewrite Hg. }
  assert (G1 : Registry.map_get api reg1 = Some (Registry.setEnabled false now e)).
  { rewrite H1. apply map_get_set. }
  assert (N1 : Registry.get api reg1 = None).
  { unfold Registry.get. now rewrite G1. }
  assert (H2 : reg2 = Registry.map_set api
                        (Registry.setEnabled true now'
                           (Registry.setEnabled false now e)) reg1).
  { unfold reg2, Registry.enable. now rewrite G1. }
  assert (R1 : Registry.resolveApiProvider api reg1 = Throws (notRegistered api)).
  { unfold Registry.resolveApiProvider. now rewrite N1. }
  repeat split.
  - unfold Registry.disable. now rewrite Hg.
  - exact N1.
  - intros other Ho. rewrite N1. unfold Registry.get. now rewrite Ho.
  - exact G1.
  - rewrite H1. exact (list_set_all api (Registry.setEnabled false now e) e reg Hg).
  - rewrite H1. now apply list_set_disabled with (e := e).
  - exact R1.
  - intros model context options Hm Hc Ha. unfold Registry.streamEntry.
    now rewrite Hm, Hc, Ha, R1.
  - unfold Registry.enable. now rewrite G1.
  - rewrite H2. unfold Registry.get. now rewrite map_get_set.
Qed.

End Providers.

(** A registry with one provider, registered at time 100. *)
Definition answering : Registry.ApiStreamFunction unit unit unit :=
  fun _ _ _ => Returns tt.

Definition anthropic : Registry.ApiProvider unit unit unit :=
  Registry.mkProvider "anthropic-messages" answering answering.

Definition registered : Registry.registry unit unit unit :=
  match Registry.register anthropic (Registry.mkRegisterOptions None None None)
          100 [] with
  | Returns reg => reg
  | Throws _ => []
  end.

(** C10 on that registry: disabled at 200, enabled again at 300. *)
Lemma disabled_provider_is_not_resolved_witness :
  Registry.get "anthropic-messages"
    (snd (Registry.disable "anthropic-messages" 200 registered)) = None /\
  Registry.resolveApiProvider "anthropic-messages"
    (snd (Registry.disable "anthropic-messages" 200 registered))
  = Throws "No API provider registered for api: anthropic-messages"%string /\
  exists p,
    Registry.get "anthropic-messages"
      (snd (Registry.enable "anthropic-messages" 300
              (snd (Registry.disable "anthropic-messages" 200 registered))))
    = Some p /\ Registry.api p = "anthropic-messages"%string.
Proof.
  destruct (disabled_provider_is_not_resolved unit unit unit
              (fun _ => Returns tt) registered "anthropic-messages"
              (Registry.mkRegistered
                 (Registry.mkProvider "anthropic-messages"
                    (Registry.wrapStream unit unit unit "anthropic-messages" answering)
                    (Registry.wrapStream unit unit unit "anthropic-messages" answering))
                 (Registry.mkMetadata None None true 100 100))
              200 300 eq_refl)
    as (_ & H1 & _ & _ & _ & _ & H2 & _ & _ & H3).
  split; [exact H1 | split; [exact H2 |]].
  eexists. split; [exact H3 | reflexivity].
Defined.

End RegistryFacts.

(** ** The repository's own tests, replayed on the model *)

Module RepositoryTests.
Import Completion Types.
Local Close Scope string_scope.

(** tests/ai/utils/overflow.test.ts *)
Example detects_overflow_by_error_pattern :
  Overflow.isContextOverflow
    (Overflow.errorMsg "input exceeds the context window") None = true
  /\ Overflow.getOverflowSuggestion (Some "input exceeds the context window"%string)
     = Some "Drop old turns and retry with summarized context."%string.
Proof. split; vm_compute; reflexivity. Qed.

Example detects_silent_overflow_via_usage :
  Overflow.isContextOverflow (Overflow.stopMsg 1200 0) (Some 1000) = true.
Proof. vm_compute. reflexivity. Qed.

(** tests/ai/providers/transform-messages.test.ts: ids are normalised and
    the missing tool result is injected before the user's turn. *)
Example normalizes_ids_and_injects_missing_tool_results :
  Transform.transformMessages NormalizeFacts.wallClock
    [PipelineFacts.callFrom "gpt-test" "orig-id"; PipelineFacts.userTurn]
    NormalizeFacts.target (Some Transform.normPrefix)
  = Returns
      [PipelineFacts.callFrom "gpt-test" "norm-orig-id";
       ToolResult
         (Transform.syntheticToolResult
            (mkToolCall "norm-orig-id" "search" "{}" None)
            (NormalizeFacts.wallClock 0));
       PipelineFacts.userTurn].
Proof. vm_compute. reflexivity. Qed.

(** tests/ai/models.test.ts (streaming json parse), with the readers of
    JSON text as the parsers. *)
Example parses_complete_json :
  JsonParse.parseStreamingJson JsonText.strictParse JsonText.tolerantParse
    (Some (JsonParse.openObject +:+ "1}")%string) JsonParse.noOptions
  = Returns (JsonParse.JObject [("a"%string, JsonParse.JNumber "1")]).
Proof. vm_compute. reflexivity. Qed.

Example parses_partial_json_with_diagnostics :
  JsonParse.parseStreamingJsonWithDiagnostics JsonText.strictParse
    JsonText.tolerantParse (Some JsonParse.openObject)
    (JsonParse.mkOptions None (Some true) None)
  = Returns (JsonParse.mkResult (JsonParse.JObject []) true true None).
Proof. vm_compute. reflexivity. Qed.

(** tests/ai/utils/event-stream.test.ts: a history limit of 2. *)
Example stores_bounded_history :
  EventStream.getHistory
    (EventStream.run EventStreamFacts.isThree (fun n => n) (Some 2)
       [EventStream.Push 1; EventStream.Push 2; EventStream.Push 3]
       EventStream.init)
  = [2; 3].
Proof. vm_compute. reflexivity. Qed.

(** The same test's stream, read to its end by one consumer. *)
Example iterates_in_arrival_order :
  fst (EventStream.drain 4 0
         (EventStream.run EventStreamFacts.isThree (fun n => n) None
            [EventStream.Push 1; EventStream.Push 2; EventStream.Push 3]
            EventStream.init))
  = [1; 2; 3].
Proof. vm_compute. reflexivity. Qed.

End RepositoryTests.

(** ** More on the retry executor and the simple options *)

Module RetryMore.
Import JsString Completion Retry RetryFacts.
Local Close Scope string_scope.

Lemma normalizeProviderError_shape (e : thrown) :
  (exists message code cause,
     normalizeProviderError e = ProviderError message code cause) /\
  (forall message code cause,
     normalizeProviderError (ProviderError message code cause)
     = ProviderError message code cause).
Proof.
  split; [| reflexivity].
  destruct e as [m c x | m | d]; simpl; eauto.
  repeat match goal with
         | |- context [if ?b then _ else _] => destruct b
         end; eauto.
Qed.

(** X1.  [normalizeProviderError] always gives a
    [SimpleOptionsProviderError]; it keeps the message of an [Error] and
    wraps the error as the cause; and it leaves its own results as they
    are, so normalising twice is normalising once. *)
Theorem normalizeProviderError_idempotent (e : thrown) :
  (exists message code cause,
     normalizeProviderError e = ProviderError message code cause) /\
  normalizeProviderError (normalizeProviderError e) = normalizeProviderError e /\
  (forall message, e = JsError message ->
     exists code, normalizeProviderError e = ProviderError message code e).
Proof.
  assert (H : exists message code cause,
            normalizeProviderError e = ProviderError message code cause).
  { destruct e as [m c x | m | d]; simpl; eauto.
    repeat match goal with
           | |- context [if ?b then _ else _] => destruct b
           end; eauto. }
  split; [exact H | split].
  - destruct H as (m & c & x & ->). reflexivity.
  - intros message ->. simpl.
    repeat match goal with
           | |- context [if ?b then _ else _] => destruct b
           end; eauto.
Qed.

Section Loop.
Context {S T : Type}.
Variable operation : S -> completion thrown T * S.
Variable policy : RetryPolicy.

Definition maxDelay : Z :=
  match maxDelayMs policy with
  | Some d => d
  | None => MAX_SAFE_INTEGER
  end.

(** The waits before the second, third, ... attempt. *)
Definition backoffs (n : nat) : list Z :=
  map (fun i => Z.min (baseDelayMs policy * 2 ^ Z.of_nat i) maxDelay) (seq 0 n).

Lemma backoffs_S n :
  backoffs (Datatypes.S n)
  = backoffs n ++ [Z.min (baseDelayMs policy * 2 ^ Z.of_nat n) maxDelay].
Proof. unfold backoffs. now rewrite seq_S, map_app. Qed.

(** What holds at the head of the loop after [a] attempts. *)
Definition atHead (a : nat) (attempt : Z) (t : @trace S) : Prop :=
  attempt = Z.of_nat a /\ invocations t = a /\ delays t = backoffs a /\
  (a <> O -> attempt < maxAttempts policy).

Lemma retry_loop_accounting : forall fuel a attempt lastError t r t',
  atHead a attempt t ->
  retry_loop operation policy fuel attempt lastError t = Some (r, t') ->
  Z.of_nat (invocations t') <= Z.max 0 (maxAttempts policy) /\
  delays t' = backoffs (Nat.pred (invocations t')).
Proof.
  induction fuel as [|fuel IH]; intros a attempt lastError t r t' Hh H;
    [discriminate |].
  destruct Hh as (Ha & Hi & Hd & Hn). rewrite retry_loop_step in H.
  destruct (attempt <? maxAttempts policy) eqn:Hlt.
  - apply Z.ltb_lt in Hlt.
    assert (Hfin : forall s',
              let t1 := @mkTrace S s' (Datatypes.S (invocations t)) (delays t) in
              Z.of_nat (invocations t1) <= Z.max 0 (maxAttempts policy) /\
              delays t1 = backoffs (Nat.pred (invocations t1))).
    { intros s'. simpl. rewrite Hi. split; [lia | exact Hd]. }
    destruct (operation (opState t)) as [[v|e] s'].
    + injection H as <- <-. apply Hfin.
    + destruct (negb _ || _) eqn:G.
      * injection H as <- <-. apply Hfin.
      * apply orb_false_iff in G as [_ G].
        assert (G' : attempt + 1 < maxAttempts policy).
        { destruct (Z_lt_ge_dec (attempt + 1) (maxAttempts policy)) as [L|L];
            [exact L |].
          apply Z.ge_le, Z.geb_le in L. congruence. }
        apply (IH (Datatypes.S a)) in H; [exact H |].
        unfold atHead. cbn [invocations delays].
        split; [lia |]. split; [now rewrite Hi |]. split; [| intros _; exact G'].
        rewrite Hd, backoffs_S.
        replace (attempt + 1 - 1) with (Z.of_nat a) by lia. reflexivity.
  - injection H as <- <-. apply Z.ltb_ge in Hlt.
    destruct a as [|a]; [| exfalso; specialize (Hn ltac:(discriminate)); lia].
    rewrite Hi, Hd. split; [lia | reflexivity].
Qed.

Lemma executeWithRetry_trace (s : S) r t :
  executeWithRetry operation policy s = Some (r, t) ->
  Z.of_nat (invocations t) <= Z.max 0 (maxAttempts policy) /\
  delays t = backoffs (Nat.pred (invocations t)).
Proof.
  intros H.
  assert (H0 : atHead O 0 (@mkTrace S s O [])).
  { unfold atHead. simpl. repeat split. intros F. now contradiction F. }
  exact (retry_loop_accounting _ O 0 _ _ _ _ H0 H).
Qed.


(** How the executor decides to go on after the failure [e] of attempt
    [k]: the caller's [shouldRetry] if there is one, the default rule
    otherwise. *)
Definition retries (e : thrown) (k : Z) : bool :=
  match shouldRetry policy with
  | Some f => f e k
  | None => defaultRetryable (normalizeProviderError e)
  end.

(** The states the operation goes through. *)
Fixpoint stateAfter (n : nat) (s : S) : S :=
  match n with
  | O => s
  | Datatypes.S n' => stateAfter n' (snd (operation s))
  end.

Lemma retry_loop_failures : forall k fuel a t lastError,
  (forall i, (i < k)%nat ->
     exists e, fst (operation (stateAfter i (opState t))) = Throws e /\
               retries e (Z.of_nat a + Z.of_nat i + 1) = true) ->
  Z.of_nat a + Z.of_nat k < maxAttempts policy ->
  (k <= fuel)%nat ->
  exists lastError' ds,
    retry_loop operation policy (fuel + 1) (Z.of_nat a) lastError t
    = retry_loop operation policy (fuel - k + 1) (Z.of_nat a + Z.of_nat k) lastError'
        (mkTrace (stateAfter k (opState t)) (invocations t + k) (delays t ++ ds)).
Proof.
  induction k as [|k IH]; intros fuel a t lastError Hf Hm Hk.
  - exists lastError, []. destruct t as [s i d]. simpl.
    now rewrite Nat.sub_0_r, Z.add_0_r, Nat.add_0_r, app_nil_r.
  - destruct fuel as [|fuel]; [lia |].
    change (Datatypes.S fuel + 1)%nat with (Datatypes.S (fuel + 1)).
    rewrite retry_loop_step.
    assert (Hlt : (Z.of_nat a <? maxAttempts policy) = true)
      by (apply Z.ltb_lt; lia).
    rewrite Hlt.
    destruct (Hf O ltac:(lia)) as (e & He & Hr). simpl in He.
    destruct (operation (opState t)) as [r s'] eqn:Hop. simpl in He. subst r.
    unfold retries in Hr. rewrite Z.add_0_r in Hr. rewrite Hr.
    assert (Hge : (Z.of_nat a + 1 >=? maxAttempts policy) = false).
    { destruct (Z.of_nat a + 1 >=? maxAttempts policy) eqn:G; [| reflexivity].
      apply Z.geb_le in G. lia. }
    rewrite Hge. cbn [negb orb].
    replace (Z.of_nat a + 1) with (Z.of_nat (Datatypes.S a)) by lia.
    edestruct (IH fuel (Datatypes.S a)
                 (mkTrace s' (Datatypes.S (invocations t))
                    (delays t ++ [Z.min (baseDelayMs policy * 2 ^ (Z.of_nat (Datatypes.S a) - 1))
                                    match maxDelayMs policy with
                                    | Some d => d
                                    | None => MAX_SAFE_INTEGER
                                    end])) e) as (le' & ds & Heq).
    + intros i Hi. destruct (Hf (Datatypes.S i) ltac:(lia)) as (e' & He' & Hr').
      simpl in He'. rewrite Hop in He'. simpl in He'.
      exists e'. split; [exact He' |].
      replace (Z.of_nat (Datatypes.S a) + Z.of_nat i + 1)
        with (Z.of_nat a + Z.of_nat (Datatypes.S i) + 1) by lia. exact Hr'.
    + lia.
    + lia.
    + rewrite Heq. simpl. rewrite Hop. simpl.
      eexists le', _. f_equal; [lia |].
      f_equal; [lia |]. now rewrite <- app_assoc.
Qed.

(** X3.  A transient failure is absorbed: when the first [k] invocations
    fail with errors the executor goes on after, and the next one
    returns [v] within the allowed attempts, the executor returns [v]
    after [k + 1] invocations and [k] sleeps. *)
Theorem executeWithRetry_recovers (s : S) (k : nat) (v : T) :
  (forall i, (i < k)%nat ->
     exists e, fst (operation (stateAfter i s)) = Throws e /\
               retries e (Z.of_nat i + 1) = true) ->
  fst (operation (stateAfter k s)) = Returns v ->
  Z.of_nat k < maxAttempts policy ->
  executeWithRetry operation policy s
  = Some (Returns v,
          mkTrace (stateAfter (Datatypes.S k) s) (Datatypes.S k) (backoffs k)).
Proof.
  intros Hf Hv Hm.
  destruct (executeWithRetry_total operation policy s) as [[r t] H].
  destruct (executeWithRetry_trace s r t H) as [_ Hd].
  rewrite H. unfold executeWithRetry in H.
  replace (Datatypes.S (Z.to_nat (maxAttempts policy)))
    with (Z.to_nat (maxAttempts policy) + 1)%nat in H by lia.
  destruct (retry_loop_failures k (Z.to_nat (maxAttempts policy)) O
              (mkTrace s O []) undefined) as (le' & ds & Heq).
  { intros i Hi. destruct (Hf i Hi) as (e & He & Hr). exists e. split; auto. }
  { simpl. lia. }
  { lia. }
  change (Z.of_nat 0) with 0 in Heq. rewrite Z.add_0_l in Heq. rewrite Heq in H. simpl in H.
  replace (Z.to_nat (maxAttempts policy) - k + 1)%nat
    with (Datatypes.S (Z.to_nat (maxAttempts policy) - k)) in H by lia.
  rewrite retry_loop_step in H.
  assert (Hlt : (Z.of_nat k <? maxAttempts policy) = true)
    by (apply Z.ltb_lt; lia).
  rewrite Hlt in H. cbn [opState invocations delays] in H.
  destruct (operation (stateAfter k s)) as [r' s'] eqn:Hop. simpl in Hv. subst r'.
  injection H as <- <-. simpl in Hd. f_equal. f_equal.
  assert (Hs : stateAfter (Datatypes.S k) s = s').
  { clear - Hop. revert s Hop. induction k as [|k IH]; intros s Hop; simpl in *.
    - now rewrite Hop.
    - now apply IH. }
  rewrite Hs. f_equal. exact Hd.
Qed.

(** X4.  A failure that never stops the executor is tried [maxAttempts]
    times: when every invocation throws and the executor goes on after
    each of these errors, the operation is invoked exactly [maxAttempts]
    times, with [maxAttempts - 1] sleeps in between, and the error of the
    last invocation is thrown, normalised. *)
Theorem executeWithRetry_exhausts (s : S) :
  1 <= maxAttempts policy ->
  (forall i, exists e, fst (operation (stateAfter i s)) = Throws e /\
                       retries e (Z.of_nat i + 1) = true) ->
  exists e,
    fst (operation (stateAfter (Z.to_nat (maxAttempts policy) - 1) s)) = Throws e /\
    executeWithRetry operation policy s
    = Some (Throws (normalizeProviderError e),
            mkTrace (stateAfter (Z.to_nat (maxAttempts policy)) s)
              (Z.to_nat (maxAttempts policy))
              (backoffs (Z.to_nat (maxAttempts policy) - 1))).
Proof.
  intros Hm Hf.
  set (k := (Z.to_nat (maxAttempts policy) - 1)%nat).
  destruct (Hf k) as (e & He & _). exists e. split; [exact He |].
  destruct (executeWithRetry_total operation policy s) as [[r t] H].
  destruct (executeWithRetry_trace s r t H) as [_ Hd].
  rewrite H. unfold executeWithRetry in H.
  destruct (retry_loop_failures k (Z.to_nat (maxAttempts policy)) O
              (mkTrace s O []) undefined) as (le' & ds & Heq).
  { intros i _. destruct (Hf i) as (e' & He' & Hr'). exists e'. split; auto. }
  { simpl. unfold k. lia. }
  { unfold k. lia. }
  replace (Datatypes.S (Z.to_nat (maxAttempts policy)))
    with (Z.to_nat (maxAttempts policy) + 1)%nat in H by lia.
  change (Z.of_nat 0) with 0 in Heq. rewrite Z.add_0_l in Heq.
  rewrite Heq in H. simpl in H.
  replace (Z.to_nat (maxAttempts policy) - k + 1)%nat
    with (Datatypes.S (Z.to_nat (maxAttempts policy) - k)) in H by lia.
  rewrite retry_loop_step in H.
  assert (Hlt : (Z.of_nat k <? maxAttempts policy) = true)
    by (apply Z.ltb_lt; unfold k; lia).
  rewrite Hlt in H. cbn [opState invocations delays] in H.
  destruct (operation (stateAfter k s)) as [r' s'] eqn:Hop. simpl in He. subst r'.
  assert (Hge : (Z.of_nat k + 1 >=? maxAttempts policy) = true).
  { apply Z.geb_le. unfold k. lia. }
  rewrite Hge, orb_true_r in H. injection H as <- <-. simpl in Hd.
  assert (Hs : stateAfter (Datatypes.S k) s = s').
  { clear - Hop. revert s Hop. generalize k as n.
    induction n as [|n IH]; intros s Hop; simpl in *.
    - now rewrite Hop.
    - now apply IH. }
  replace (Z.to_nat (maxAttempts policy)) with (Datatypes.S k) by (unfold k; lia).
  rewrite Hs, Hd. reflexivity.
Qed.

End Loop.

Arguments stateAfter {S T} _ _ _.
Arguments retries _ _ _ : clear implicits.

Definition limited : thrown := JsError "429: rate limit reached".

(** [{ maxAttempts: 3, baseDelayMs: 250 }] *)
Definition threeAttempts : RetryPolicy := mkPolicy 3 250 None None.

(** An operation that fails twice with a rate-limit error, then returns;
    its state counts the invocations. *)
Definition flaky (n : nat) : completion thrown Z * nat :=
  ((if (n <? 2)%nat then Throws limited else Returns 42),
   Datatypes.S n).

Lemma executeWithRetry_recovers_witness :
  executeWithRetry flaky threeAttempts O
  = Some (Returns 42, mkTrace 3%nat 3%nat [250; 500]).
Proof.
  apply (executeWithRetry_recovers flaky threeAttempts O 2 42).
  - intros i Hi. exists limited.
    destruct i as [|[|i]]; [split; reflexivity | split; reflexivity | lia].
  - reflexivity.
  - reflexivity.
Defined.

(** An operation that always fails with a rate-limit error. *)
Definition alwaysLimited (n : nat) : completion thrown Z * nat :=
  (Throws limited, Datatypes.S n).

Lemma executeWithRetry_exhausts_witness :
  exists e,
    fst (alwaysLimited 2) = Throws e /\
    executeWithRetry alwaysLimited threeAttempts O
    = Some (Throws (normalizeProviderError e), mkTrace 3%nat 3%nat [250; 500]).
Proof.
  apply (executeWithRetry_exhausts alwaysLimited threeAttempts O).
  - vm_compute. discriminate.
  - intros i. exists limited. split; reflexivity.
Defined.

End RetryMore.

(** ** The default rule of the retry executor *)

Module RetryDefault.
Import JsString Completion Retry RetryFacts RetryMore.
Local Close Scope string_scope.

Section Loop.
Context {S T : Type}.
Variable operation : S -> completion thrown T * S.
Variable policy : RetryPolicy.

Lemma stateAfter_S : forall n (s : S),
  stateAfter operation (Datatypes.S n) s
  = snd (operation (stateAfter operation n s)).
Proof.
  induction n as [|n IH]; intros s; [reflexivity |].
  change (stateAfter operation (Datatypes.S (Datatypes.S n)) s)
    with (stateAfter operation (Datatypes.S n) (snd (operation s))).
  now rewrite IH.
Qed.

Lemma stateAfter_add : forall n m (s : S),
  stateAfter operation (n + m) s
  = stateAfter operation m (stateAfter operation n s).
Proof. induction n as [|n IH]; intros m s; [reflexivity | apply IH]. Qed.

(** The state the loop leaves behind is the state after as many
    invocations as it has counted. *)
Lemma retry_loop_state : forall fuel attempt lastError (t : @trace S) r t',
  retry_loop operation policy fuel attempt lastError t = Some (r, t') ->
  exists n, invocations t' = (invocations t + n)%nat /\
            opState t' = stateAfter operation n (opState t).
Proof.
  induction fuel as [|fuel IH]; intros attempt lastError t r t' H;
    [discriminate |].
  rewrite retry_loop_step in H.
  destruct (attempt <? maxAttempts policy).
  - destruct (operation (opState t)) as [[v|e] s'] eqn:Hop.
    + injection H as <- <-. exists 1%nat. cbn [invocations opState stateAfter].
      rewrite Hop. split; [lia | reflexivity].
    + destruct (negb _ || _).
      * injection H as <- <-. exists 1%nat. cbn [invocations opState stateAfter].
        rewrite Hop. split; [lia | reflexivity].
      * apply IH in H as (n & Hi & Hs). cbn [invocations opState] in Hi, Hs.
        exists (Datatypes.S n). split; [lia |].
        cbn [stateAfter]. now rewrite Hop.
  - injection H as <- <-. exists O. split; [lia | reflexivity].
Qed.

Lemma executeWithRetry_state (s : S) r t :
  executeWithRetry operation policy s = Some (r, t) ->
  opState t = stateAfter operation (invocations t) s.
Proof.
  intros H. apply retry_loop_state in H as (n & Hi & Hs).
  cbn [invocations opState] in Hi, Hs. now rewrite Hi.
Qed.

(** The executor under the default rule, at the failure [e] of invocation
    [k + 1], after [k] failures that the rule retries. *)
Lemma executeWithRetry_default_rule (s : S) (k : nat) (e : thrown) :
  shouldRetry policy = None ->
  Z.of_nat k < maxAttempts policy ->
  (forall i, (i < k)%nat ->
     exists e', fst (operation (stateAfter operation i s)) = Throws e' /\
                defaultRetryable (normalizeProviderError e') = true) ->
  fst (operation (stateAfter operation k s)) = Throws e ->
  if defaultRetryable (normalizeProviderError e)
     && (Z.of_nat k + 1 <? maxAttempts policy)
  then exists r t,
         executeWithRetry operation policy s = Some (r, t) /\
         (k + 2 <= invocations t)%nat /\
         opState t = stateAfter operation (invocations t) s /\
         delays t = backoffs policy (invocations t - 1)
  else executeWithRetry operation policy s
       = Some (Throws (normalizeProviderError e),
               mkTrace (stateAfter operation (k + 1) s) (k + 1)
                 (backoffs policy k)).
Proof.
  intros Hsr Hm Hf He.
  destruct (executeWithRetry_total operation policy s) as [[r t] H].
  destruct (executeWithRetry_trace operation policy s r t H) as [_ Hd].
  pose proof (executeWithRetry_state s r t H) as Hst.
  rewrite H. unfold executeWithRetry in H.
  destruct (retry_loop_failures operation policy k (Z.to_nat (maxAttempts policy)) O
              (mkTrace s O []) undefined) as (le' & ds & Heq).
  { intros i Hi. destruct (Hf i Hi) as (e' & He' & Hr'). exists e'.
    split; [exact He' |]. unfold retries. now rewrite Hsr. }
  { simpl. lia. }
  { lia. }
  replace (Datatypes.S (Z.to_nat (maxAttempts policy)))
    with (Z.to_nat (maxAttempts policy) + 1)%nat in H by lia.
  change (Z.of_nat 0) with 0 in Heq. rewrite Z.add_0_l in Heq.
  rewrite Heq in H. simpl in H.
  replace (Z.to_nat (maxAttempts policy) - k + 1)%nat
    with (Datatypes.S (Z.to_nat (maxAttempts policy) - k)) in H by lia.
  rewrite retry_loop_step in H.
  assert (Hlt : (Z.of_nat k <? maxAttempts policy) = true)
    by (apply Z.ltb_lt; lia).
  rewrite Hlt in H. cbn [opState invocations delays] in H.
  assert (Hs : stateAfter operation (k + 1) s
               = snd (operation (stateAfter operation k s))).
  { rewrite Nat.add_1_r. apply stateAfter_S. }
  destruct (operation (stateAfter operation k s)) as [r' s'] eqn:Hop.
  cbn [fst] in He. subst r'. cbn [snd] in Hs. rewrite Hsr in H.
  assert (Hge : (Z.of_nat k + 1 >=? maxAttempts policy)
                = negb (Z.of_nat k + 1 <? maxAttempts policy)).
  { destruct (Z.of_nat k + 1 <? maxAttempts policy) eqn:L.
    - apply Z.ltb_lt in L.
      destruct (Z.of_nat k + 1 >=? maxAttempts policy) eqn:G; [| reflexivity].
      apply Z.geb_le in G. lia.
    - apply Z.ltb_ge in L. apply Z.geb_le. lia. }
  rewrite Hge in H.
  destruct (defaultRetryable (normalizeProviderError e));
    destruct (Z.of_nat k + 1 <? maxAttempts policy) eqn:L;
    cbn [negb orb andb] in H |- *.
  - exists r, t. split; [reflexivity |].
    apply Z.ltb_lt in L.
    apply retry_loop_enters in H; [| exact L].
    cbn [invocations] in H.
    split; [lia |]. split; [exact Hst |].
    rewrite Hd. f_equal. lia.
  - injection H as <- <-. cbn [invocations] in Hd.
    rewrite Hs, Nat.add_1_r. do 3 f_equal. exact Hd.
  - injection H as <- <-. cbn [invocations] in Hd.
    rewrite Hs, Nat.add_1_r. do 3 f_equal. exact Hd.
  - injection H as <- <-. cbn [invocations] in Hd.
    rewrite Hs, Nat.add_1_r. do 3 f_equal. exact Hd.
Qed.

End Loop.

(** C2.  Under [{maxAttempts: 3, baseDelayMs: 250}] and no [shouldRetry],
    an operation whose invocations each throw
    [Error("rate limit exceeded")] is invoked exactly three times: the
    executor leaves it in the state that three invocations in a row lead
    to, after waits of 250 and 500 ms, and throws the normalised error
    with code [rate_limit].  The default rule, at any attempt within
    [maxAttempts] whose predecessors failed with errors the rule retries:
    a failure normalised to [auth], [validation] or [unknown] is thrown
    at once, with no further invocation and no further wait; one
    normalised to [rate_limit], [timeout] or [network] is followed by a
    wait and a further invocation when an attempt is left, and is thrown
    when none is. *)
Theorem executeWithRetry_default_retryability
    {S T} (op : S -> completion thrown T * S) (s : S) :
  ((forall i, (i < 3)%nat ->
      fst (op (stateAfter op i s)) = Throws rateLimitExceeded) ->
   executeWithRetry op defaultPolicy s
   = Some (Throws (ProviderError "rate limit exceeded"%string rate_limit
                     rateLimitExceeded),
           mkTrace (stateAfter op 3 s) 3 [250; 500]))
  /\
  (forall policy k e,
     shouldRetry policy = None ->
     Z.of_nat k < maxAttempts policy ->
     (forall i, (i < k)%nat ->
        exists e', fst (op (stateAfter op i s)) = Throws e' /\
                   defaultRetryable (normalizeProviderError e') = true) ->
     fst (op (stateAfter op k s)) = Throws e ->
     match code_of (normalizeProviderError e) with
     | Some rate_limit | Some timeout | Some network =>
         (Z.of_nat k + 1 < maxAttempts policy ->
          exists r t,
            executeWithRetry op policy s = Some (r, t) /\
            (k + 2 <= invocations t)%nat /\
            opState t = stateAfter op (invocations t) s /\
            delays t = backoffs policy (invocations t - 1))
         /\
         (Z.of_nat k + 1 = maxAttempts policy ->
          executeWithRetry op policy s
          = Some (Throws (normalizeProviderError e),
                  mkTrace (stateAfter op (k + 1) s) (k + 1)
                    (backoffs policy k)))
     | _ =>
         executeWithRetry op policy s
         = Some (Throws (normalizeProviderError e),
                 mkTrace (stateAfter op (k + 1) s) (k + 1) (backoffs policy k))
     end).
Proof.
  split.
  - intros Hop.
    assert (Hf : forall i, (i < 2)%nat ->
              exists e', fst (op (stateAfter op i s)) = Throws e' /\
                         defaultRetryable (normalizeProviderError e') = true).
    { intros i Hi. exists rateLimitExceeded.
      split; [apply Hop; lia | reflexivity]. }
    exact (executeWithRetry_default_rule op defaultPolicy s 2 rateLimitExceeded
             eq_refl eq_refl Hf (Hop 2%nat ltac:(lia))).
  - intros policy k e Hsr Hm Hf He.
    pose proof (executeWithRetry_default_rule op policy s k e Hsr Hm Hf He) as H.
    unfold defaultRetryable in H.
    destruct (code_of (normalizeProviderError e)) as [[]|];
      cbn [andb] in H; try exact H;
      (split; intros L;
       [ apply Z.ltb_lt in L; rewrite L in H; exact H
       | assert (L' : (Z.of_nat k + 1 <? maxAttempts policy) = false)
           by (apply Z.ltb_ge; lia);
         rewrite L' in H; exact H ]).
Qed.

(** Operations whose state counts their invocations: one that reports a
    rate limit each time, one that is refused, and one that is refused
    after a first rate limit. *)
Definition limitedEachTime (n : nat) : completion thrown string * nat :=
  (Throws rateLimitExceeded, Datatypes.S n).

Definition unauthorized : thrown := JsError "401 Unauthorized".

Definition refused (n : nat) : completion thrown string * nat :=
  (Throws unauthorized, Datatypes.S n).

Definition limitedThenRefused (n : nat) : completion thrown string * nat :=
  (Throws (if (n <? 1)%nat then rateLimitExceeded else unauthorized),
   Datatypes.S n).

(** C2 at these operations: three invocations, one, two, and the second
    invocation that follows a first rate limit. *)
Lemma executeWithRetry_default_retryability_witness :
  executeWithRetry limitedEachTime defaultPolicy O
  = Some (Throws (ProviderError "rate limit exceeded"%string rate_limit
                    rateLimitExceeded),
          mkTrace 3%nat 3 [250; 500])
  /\
  executeWithRetry refused defaultPolicy O
  = Some (Throws (ProviderError "401 Unauthorized"%string auth unauthorized),
          mkTrace 1%nat 1 [])
  /\
  executeWithRetry limitedThenRefused defaultPolicy O
  = Some (Throws (ProviderError "401 Unauthorized"%string auth unauthorized),
          mkTrace 2%nat 2 [250])
  /\
  (exists r t,
     executeWithRetry limitedThenRefused defaultPolicy O = Some (r, t) /\
     (0 + 2 <= invocations t)%nat /\
     opState t = stateAfter limitedThenRefused (invocations t) O /\
     delays t = backoffs defaultPolicy (invocations t - 1)).
Proof.
  split; [| split; [| split]].
  - apply (proj1 (executeWithRetry_default_retryability limitedEachTime O)).
    intros i Hi. reflexivity.
  - apply (proj2 (executeWithRetry_default_retryability refused O)
             defaultPolicy O unauthorized).
    + reflexivity.
    + reflexivity.
    + intros i Hi. lia.
    + reflexivity.
  - apply (proj2 (executeWithRetry_default_retryability limitedThenRefused O)
             defaultPolicy 1%nat unauthorized).
    + reflexivity.
    + reflexivity.
    + intros i Hi. exists rateLimitExceeded.
      destruct i as [|i]; [split; reflexivity | lia].
    + reflexivity.
  - assert (Hf : forall i, (i < 0)%nat ->
              exists e', fst (limitedThenRefused (stateAfter limitedThenRefused i O))
                         = Throws e' /\
                         defaultRetryable (normalizeProviderError e') = true)
      by (intros i Hi; lia).
    apply (proj1 (proj2 (executeWithRetry_default_retryability limitedThenRefused O)
                    defaultPolicy O rateLimitExceeded eq_refl eq_refl Hf eq_refl)).
    reflexivity.
Defined.

End RetryDefault.

(** ** Simple options: thinking levels and token budgets *)

Module SimpleOptionsFacts.
Import JsString Completion Types SimpleOptions.
Local Close Scope string_scope.

(** The budgets a caller gives are not negative. *)
Definition budgetsNonNegative (custom : option ThinkingBudgets) : Prop :=
  forall level, 0 <= budgetOf (mergeBudgets custom) level.

Lemma default_budgets_non_negative : budgetsNonNegative None.
Proof. intros level. destruct level; vm_compute; discriminate. Qed.

Lemma budgetOf_xhigh budgets : budgetOf budgets xhigh = budgetOf budgets high.
Proof. reflexivity. Qed.

Lemma adjust_bounds base modelMax level custom :
  0 < base -> 0 < modelMax -> budgetsNonNegative custom ->
  let r := adjustMaxTokensForThinking base modelMax level custom in
  0 < adj_maxTokens r <= modelMax /\
  0 <= adj_thinkingBudget r < adj_maxTokens r /\
  adj_thinkingBudget r <= budgetOf (mergeBudgets custom) level /\
  adj_maxTokens r <= base + budgetOf (mergeBudgets custom) level.
Proof.
  intros Hb Hm Hc r. subst r. unfold adjustMaxTokensForThinking.
  assert (E : budgetOf (mergeBudgets custom)
                match clampReasoning (Some level) with
                | Some l => l
                | None => level
                end = budgetOf (mergeBudgets custom) level)
    by (destruct level; reflexivity).
  rewrite E. specialize (Hc level).
  set (b := budgetOf (mergeBudgets custom) level) in *.
  cbn [adj_maxTokens adj_thinkingBudget].
  destruct (Z.min (base + b) modelMax <=? b) eqn:G.
  - apply Z.leb_le in G. lia.
  - apply Z.leb_gt in G. lia.
Qed.

(** X5.  With a positive request, a positive model limit and budgets that
    are not negative, [adjustMaxTokensForThinking] answers with a token
    limit that is positive and within the model's, and with a thinking
    budget that is not negative, below the token limit, and no more than
    the budget of the level; [xhigh] is budgeted as [high]. *)
Theorem adjustMaxTokensForThinking_bounds base modelMax level custom :
  0 < base -> 0 < modelMax -> budgetsNonNegative custom ->
  0 < adj_maxTokens (adjustMaxTokensForThinking base modelMax level custom)
    <= modelMax /\
  0 <= adj_thinkingBudget (adjustMaxTokensForThinking base modelMax level custom)
    < adj_maxTokens (adjustMaxTokensForThinking base modelMax level custom) /\
  adj_thinkingBudget (adjustMaxTokensForThinking base modelMax level custom)
    <= budgetOf (mergeBudgets custom) level /\
  adjustMaxTokensForThinking base modelMax xhigh custom
  = adjustMaxTokensForThinking base modelMax high custom.
Proof.
  intros Hb Hm Hc.
  destruct (adjust_bounds base modelMax level custom Hb Hm Hc) as (H1 & H2 & H3 & _).
  repeat split; try apply H1; try apply H2; exact H3.
Qed.

Lemma adjustMaxTokensForThinking_bounds_witness :
  0 < adj_maxTokens (adjustMaxTokensForThinking 1000 4096 xhigh None) <= 4096 /\
  0 <= adj_thinkingBudget (adjustMaxTokensForThinking 1000 4096 xhigh None)
    < adj_maxTokens (adjustMaxTokensForThinking 1000 4096 xhigh None) /\
  adj_thinkingBudget (adjustMaxTokensForThinking 1000 4096 xhigh None)
    <= budgetOf (mergeBudgets None) xhigh /\
  adjustMaxTokensForThinking 1000 4096 xhigh None
  = adjustMaxTokensForThinking 1000 4096 high None.
Proof.
  apply (adjustMaxTokensForThinking_bounds 1000 4096 xhigh None).
  - lia.
  - lia.
  - intros level. destruct level; vm_compute; discriminate.
Defined.

(** X6.  [mapThinkingLevel] answers [xhigh] only for a provider that
    supports it; for any other provider [xhigh] becomes [high], and any
    other level, or none, is handed on as it is. *)
Theorem mapThinkingLevel_xhigh level provider :
  (mapThinkingLevel level provider = Some xhigh <->
   level = Some xhigh /\ provider = supports_xhigh) /\
  (level <> Some xhigh -> mapThinkingLevel level provider = level) /\
  mapThinkingLevel (Some xhigh) clamp_xhigh = Some high /\
  mapThinkingLevel (mapThinkingLevel level provider) provider
  = mapThinkingLevel level provider.
Proof.
  split; [split |].
  - destruct level as [[| | | |]|], provider; simpl; intros H;
      try discriminate; split; reflexivity.
  - intros [-> ->]. reflexivity.
  - split; [| split].
    + destruct level as [[| | | |]|], provider; simpl; congruence.
    + reflexivity.
    + destruct level as [[| | | |]|], provider; reflexivity.
Qed.

Section Anthropic.
Variables Temperature Headers Hook : Type.

Local Abbreviation SimpleStreamOptions :=
  (SimpleStreamOptions Temperature Headers Hook).

(** The key a request goes out with: the caller's if it is not empty, the
    environment's otherwise. *)
Definition keyFor (envApiKey : option string) (options : option SimpleStreamOptions)
    : option string :=
  match strOr (match options with Some o => apiKey _ _ _ o | None => None end)
          envApiKey with
  | Some k => if truthy k then Some k else None
  | None => None
  end.

Lemma strOr_None a : strOr a None = match a with
                                    | Some k => if truthy k then Some k else None
                                    | None => None
                                    end.
Proof. destruct a as [k|]; simpl; [destruct (truthy k) |]; reflexivity. Qed.

Lemma strOr_truthy k b : truthy k = true -> strOr (Some k) b = Some k.
Proof. intros H. simpl. now rewrite H. Qed.

(** X7.  [streamSimpleAnthropic] throws exactly when neither the options
    nor the environment hold a key that is not empty.  With a key and a
    reasoning level, for a model with a positive token limit, a
    requested limit that is not negative and budgets that are not
    negative, it turns thinking on and hands on a token limit within
    the model's and a thinking budget that is not negative and below
    that limit, together with the key. *)
Theorem streamSimpleAnthropic_reasoning envApiKey model
    (o : SimpleStreamOptions) level k :
  keyFor envApiKey (Some o) = Some k ->
  reasoning _ _ _ o = Some level ->
  0 < limits_maxTokens model ->
  (forall n, maxTokens _ _ _ o = Some n -> 0 <= n) ->
  budgetsNonNegative (thinkingBudgets _ _ _ o) ->
  (forall options, 
     keyFor envApiKey options = None <->
     exists message, streamSimpleAnthropic envApiKey model options = Throws message) /\
  exists r m tb,
    streamSimpleAnthropic envApiKey model (Some o) = Returns r /\
    thinkingEnabled r = true /\
    so_apiKey (base r) = Some k /\
    so_maxTokens (base r) = Some m /\
    thinkingBudgetTokens r = Some tb /\
    0 <= tb < m /\ m <= limits_maxTokens model.
Proof.
  intros Hk Hr Hm Hn Hb. split.
  - intros options. unfold keyFor, streamSimpleAnthropic.
    rewrite strOr_None.
    destruct (strOr _ envApiKey) as [k'|]; [destruct (truthy k') |].
    + split; [discriminate |]. intros [message H].
      destruct options as [o'|]; [destruct (reasoning _ _ _ o') |]; discriminate.
    + split; eauto.
    + split; eauto.
  - unfold keyFor in Hk. unfold streamSimpleAnthropic. rewrite strOr_None.
    destruct (strOr _ envApiKey) as [k'|] eqn:Hs; [| discriminate].
    destruct (truthy k') eqn:Ht; [| discriminate]. injection Hk as ->.
    rewrite Hr.
    set (b := numOr (so_maxTokens (buildBaseOptions model (Some o) (Some k))) 0).
    assert (Hpos : 0 < b).
    { subst b. cbn [buildBaseOptions so_maxTokens].
      unfold numOr at 1.
      assert (Hd : 0 < numOr (maxTokens _ _ _ o)
                     (Z.min (limits_maxTokens model) 32000)).
      { unfold numOr. destruct (maxTokens _ _ _ o) as [n|]; [| lia].
        specialize (Hn n eq_refl).
        destruct (n =? 0) eqn:G; [lia | apply Z.eqb_neq in G; lia]. }
      destruct (_ =? 0) eqn:G; [apply Z.eqb_eq in G; lia | exact Hd]. }
    destruct (adjust_bounds b (limits_maxTokens model) level
                (thinkingBudgets _ _ _ o) Hpos Hm Hb) as (H1 & H2 & _).
    eexists _, _, _. split; [reflexivity |].
    cbn [thinkingEnabled base thinkingBudgetTokens withMaxTokens so_maxTokens
         so_apiKey buildBaseOptions].
    rewrite (strOr_truthy k _ Ht).
    repeat split; try apply H1; apply H2.
Qed.

End Anthropic.

(** A request with a key of its own, a limit of 1000 tokens and the
    highest level, for a model limited to 4096 tokens. *)
Definition thinkingRequest : SimpleOptions.SimpleStreamOptions unit unit unit :=
  mkSimple None (Some 1000) None (Some "sk-test"%string) None None None
    (Some xhigh) None.

Definition smallModel : ModelLimits :=
  mkLimits (mkModel "claude"%string "anthropic-messages"%string "anthropic"%string) 4096.

Lemma streamSimpleAnthropic_reasoning_witness :
  (forall options,
     keyFor unit unit unit None options = None <->
     exists message, streamSimpleAnthropic None smallModel options = Throws message) /\
  exists r m tb,
    streamSimpleAnthropic None smallModel (Some thinkingRequest) = Returns r /\
    thinkingEnabled r = true /\
    so_apiKey (base r) = Some "sk-test"%string /\
    so_maxTokens (base r) = Some m /\
    thinkingBudgetTokens r = Some tb /\
    0 <= tb < m /\ m <= limits_maxTokens smallModel.
Proof.
  apply (streamSimpleAnthropic_reasoning unit unit unit None smallModel
           thinkingRequest xhigh "sk-test"%string).
  - reflexivity.
  - reflexivity.
  - simpl. lia.
  - intros n H. injection H as <-. lia.
  - intros level. destruct level; vm_compute; discriminate.
Defined.

End SimpleOptionsFacts.

(** ** More on the repair stage: pairing, order, the end of the history *)

Module RepairMore.
Import JsString Completion Types Transform RepairFacts.
Local Close Scope string_scope.

Definition isToolResult (m : Message) : bool :=
  match m with ToolResult _ => true | _ => false end.

(** The ids the results among [l] answer. *)
Definition answered (l : list Message) : gset string :=
  list_to_set (flat_map (fun m => match m with
                                  | ToolResult r => [toolCallId r]
                                  | _ => []
                                  end) l).

Lemma answered_elem i : forall l,
  i ∈ answered l -> exists r, In (ToolResult r) l /\ toolCallId r = i.
Proof.
  unfold answered. induction l as [|m l IH]; simpl.
  - intros H. now apply elem_of_empty in H.
  - destruct m as [u|a|r]; simpl; intros H.
    + destruct (IH H) as (r & Hin & E). eauto.
    + destruct (IH H) as (r & Hin & E). eauto.
    + apply elem_of_union in H as [H|H].
      * apply elem_of_singleton in H. subst i. eauto.
      * destruct (IH H) as (r' & Hin & E). eauto.
Qed.

Section Fixed.
Variable clock : nat -> Z.

Lemma runOut_length : forall l c,
  forallb kept l = true -> (List.length l <= List.length (runOut clock c l))%nat.
Proof.
  induction l as [|m l IH]; intros c H; simpl; [lia |].
  simpl in H. apply andb_true_iff in H as [Hm Hl].
  destruct (stepOut_kept clock c m Hm) as [F ->].
  specialize (IH (stepCore c m) Hl).
  rewrite !length_app. simpl. lia.
Qed.

Lemma runOut_fix_cons c m l :
  forallb kept (m :: l) = true ->
  runOut clock c (m :: l) = m :: l ->
  stepOut clock c m = [m] /\ runOut clock (stepCore c m) l = l.
Proof.
  simpl. intros H E. apply andb_true_iff in H as [Hm Hl].
  destruct (stepOut_kept clock c m Hm) as [F HF]. rewrite HF in *.
  pose proof (runOut_length l (stepCore c m) Hl) as Hlen.
  pose proof (f_equal (@List.length _) E) as EL.
  rewrite !length_app in EL. simpl in EL.
  destruct F as [|x F]; [| simpl in EL; lia].
  simpl in E. injection E as E. split; [reflexivity | exact E].
Qed.

Lemma runOut_fix_app : forall x c y,
  forallb kept (x ++ y) = true ->
  runOut clock c (x ++ y) = x ++ y ->
  runOut clock (runCore c x) y = y.
Proof.
  induction x as [|m x IH]; intros c y H E; simpl in *; [exact E |].
  destruct (runOut_fix_cons c m (x ++ y) H E) as [_ E'].
  apply andb_true_iff in H as [_ H]. now apply IH.
Qed.

Lemma runCore_results : forall seg c,
  forallb isToolResult seg = true ->
  runCore c seg = mkCore (pend c) (answered seg ∪ exist c) (tk c).
Proof.
  unfold answered. induction seg as [|m seg IH]; intros c H; simpl.
  - destruct c as [p e t]. simpl. f_equal. now rewrite (left_id_L ∅ (∪)).
  - destruct m as [u|a|r]; simpl in H; try discriminate.
    rewrite (IH _ H). simpl. f_equal. now rewrite (assoc_L (∪)), (comm_L (∪) _ {[_]}).
Qed.

Lemma runOut_results : forall seg c,
  forallb isToolResult seg = true -> runOut clock c seg = seg.
Proof.
  induction seg as [|m seg IH]; intros c H; simpl; [reflexivity |].
  destruct m as [u|a|r]; simpl in H; try discriminate.
  simpl. now rewrite IH.
Qed.

Lemma missing_nil e : forall p tc,
  missing e p = [] -> In tc p -> id tc ∈ e.
Proof.
  induction p as [|tc' p IH]; intros tc H Hin; simpl in *; [destruct Hin |].
  destruct (decide (id tc' ∈ e)) as [Hy|Hn]; [| discriminate].
  destruct Hin as [-> | Hin]; auto.
Qed.

Lemma synth_nil n tcs : synth clock n tcs = [] -> tcs = [].
Proof. destruct tcs; [reflexivity | discriminate]. Qed.

Lemma output_kept l c : forallb kept (runOut clock c l) = true.
Proof.
  apply forallb_forall. intros m H.
  apply runOut_inv in H as [[_ Hk] | (tc & t & ->)]; auto.
Qed.

End Fixed.

(** X8.  In the output of the repair stage every tool call is answered
    before the conversation goes on: when an assistant message is
    followed by tool results only and then by a user or assistant
    message, each of its tool calls has a result among them. *)
Theorem repair_answers_every_call (clock : nat -> Z) (messages : list Message)
    (pre : list Message) (a : AssistantMessage) (seg : list Message)
    (m : Message) (post : list Message) :
  insertSyntheticToolResults clock messages
  = pre ++ Assistant a :: seg ++ m :: post ->
  forallb isToolResult seg = true ->
  isToolResult m = false ->
  Forall (fun tc => exists r, In (ToolResult r) seg /\ toolCallId r = id tc)
    (toolCallsOf (content a)).
Proof.
  intros Hout Hseg Hm.
  pose proof (insertSyntheticToolResults_idempotent clock clock messages) as Hid.
  rewrite !insertSyntheticToolResults_spec in *.
  pose proof (output_kept clock messages (mkCore [] ∅ O)) as Hk.
  rewrite Hout in Hid, Hk. clear Hout.
  set (c1 := runCore (mkCore [] ∅ O) pre).
  pose proof (runOut_fix_app clock pre _ _ Hk Hid) as H1. fold c1 in H1.
  rewrite forallb_app in Hk. apply andb_true_iff in Hk as [_ Hk].
  destruct (runOut_fix_cons clock c1 _ _ Hk H1) as [_ H2].
  assert (Hk2 : forallb kept (seg ++ m :: post) = true)
    by (simpl in Hk; now apply andb_true_iff in Hk as [_ Hk]).
  set (c2 := stepCore c1 (Assistant a)) in *.
  pose proof (runOut_fix_app clock seg c2 _ Hk2 H2) as H3.
  rewrite forallb_app in Hk2. apply andb_true_iff in Hk2 as [_ Hk3].
  destruct (runOut_fix_cons clock _ _ _ Hk3 H3) as [H4 _].
  rewrite (runCore_results seg c2 Hseg) in H4.
  assert (Hflush : flushOut clock (mkCore (pend c2) (answered seg ∪ exist c2) (tk c2)) = []).
  { simpl in Hk3. apply andb_true_iff in Hk3 as [Hkm _].
    destruct m as [u|a'|r]; [| | discriminate]; unfold stepOut in H4.
    - destruct (flushOut clock _); [reflexivity |].
      apply (f_equal (@List.length _)) in H4. rewrite length_app in H4.
      simpl in H4. lia.
    - simpl in Hkm. apply negb_true_iff in Hkm. rewrite Hkm in H4.
      destruct (flushOut clock _); [reflexivity |].
      apply (f_equal (@List.length _)) in H4. rewrite length_app in H4.
      simpl in H4. lia. }
  unfold flushOut in Hflush. apply synth_nil in Hflush. simpl in Hflush.
  assert (Hd : dropped a = false).
  { simpl in Hk. apply andb_true_iff in Hk as [Hka _]. now apply negb_true_iff. }
  apply Forall_forall. intros tc Hin. apply list_elem_of_In in Hin.
  assert (Hc2 : pend c2 = toolCallsOf (content a) /\ exist c2 = ∅).
  { subst c2. simpl. rewrite Hd.
    destruct (toolCallsOf (content a)) as [|tc0 tcs]; [destruct Hin |].
    split; reflexivity. }
  destruct Hc2 as [Hp He]. rewrite Hp, He in Hflush.
  pose proof (missing_nil _ _ tc Hflush Hin) as Hid'.
  apply elem_of_union in Hid' as [Hid' | Hid'].
  - now apply answered_elem.
  - now apply elem_of_empty in Hid'.
Qed.

(** X9.  The repair stage closes a call only when the conversation goes
    on.  The tool calls of the last assistant message are left as they
    are: the output ends with that message and the results the input has
    for it, and no synthetic result follows. *)
Theorem repair_leaves_last_calls_open (clock : nat -> Z)
    (pre : list Message) (a : AssistantMessage) (seg : list Message) :
  dropped a = false ->
  forallb isToolResult seg = true ->
  exists F,
    insertSyntheticToolResults clock (pre ++ [Assistant a]) = F ++ [Assistant a] /\
    insertSyntheticToolResults clock (pre ++ Assistant a :: seg)
    = F ++ Assistant a :: seg.
Proof.
  intros Hd Hseg. rewrite !insertSyntheticToolResults_spec, !runOut_app.
  set (c := runCore (mkCore [] ∅ O) pre).
  exists (runOut clock (mkCore [] ∅ O) pre ++ flushOut clock c).
  cbn [runOut]. unfold stepOut. rewrite Hd.
  rewrite (runOut_results clock seg _ Hseg), app_nil_r, <- !app_assoc.
  split; reflexivity.
Qed.

Lemma stepOut_shape clock c m :
  exists F, stepOut clock c m = F ++ (if kept m then [m] else []).
Proof.
  destruct m as [u|a|r]; unfold stepOut; simpl.
  - eauto.
  - destruct (dropped a); simpl; eauto.
  - exists []. reflexivity.
Qed.

Lemma runOut_sublist clock : forall l c,
  sublist (List.filter kept l) (runOut clock c l).
Proof.
  induction l as [|m l IH]; intros c; simpl; [constructor |].
  destruct (stepOut_shape clock c m) as [F ->]. rewrite <- app_assoc.
  apply sublist_inserts_l.
  destruct (kept m); simpl; [apply sublist_skip |]; apply IH.
Qed.

(** The calls a synthetic result can stand for. *)
Definition callOf (l : list Message) (tc : ToolCall) : Prop :=
  exists a, In (Assistant a) l /\ dropped a = false /\
            In tc (toolCallsOf (content a)).

Lemma runOut_origin clock : forall l c m,
  In m (runOut clock c l) ->
  In m l \/
  exists tc t, m = ToolResult (syntheticToolResult tc t) /\
               (In tc (pend c) \/ callOf l tc).
Proof.
  induction l as [|msg l IH]; intros c m; simpl; [tauto |].
  rewrite in_app_iff. intros [H | H].
  - assert (Hf : In m (flushOut clock c) ->
                 exists tc t, m = ToolResult (syntheticToolResult tc t) /\
                              (In tc (pend c) \/ callOf (msg :: l) tc)).
    { intros Hin. apply synth_inv in Hin as (tc & t & -> & Hin).
      exists tc, t. split; [reflexivity | left].
      clear - Hin. induction (pend c) as [|x p IH]; simpl in *; [tauto |].
      destruct (decide (id x ∈ exist c)); simpl in *; tauto. }
    destruct msg as [u|a|r]; unfold stepOut in H.
    + apply in_app_iff in H as [H | [<- | []]]; auto.
    + apply in_app_iff in H as [H | H]; auto.
      destruct (dropped a); simpl in H; [tauto |].
      destruct H as [<- | []]. auto.
    + destruct H as [<- | []]. auto.
  - apply IH in H as [H | (tc & t & -> & H)]; [auto |].
    right. exists tc, t. split; [reflexivity |].
    assert (Hl : callOf l tc -> callOf (msg :: l) tc).
    { intros (a & Hin & Hd & Htc). exists a. simpl. auto. }
    destruct H as [H | H]; [| auto].
    destruct msg as [u|a|r]; simpl in H.
    + rewrite pend_flushCore in H. destruct H.
    + destruct (dropped a) eqn:Hd.
      * rewrite pend_flushCore in H. destruct H.
      * destruct (toolCallsOf (content a)) as [|tc0 tcs] eqn:Ht.
        -- rewrite pend_flushCore in H. destruct H.
        -- right. exists a. simpl. rewrite Ht. auto.
    + auto.
Qed.

(** X10.  The repair stage keeps the order of what it keeps: the input
    without the failed assistant messages is a subsequence of the
    output.  What the output holds besides are synthetic results, each
    for a tool call of an assistant message of the input that was
    kept. *)
Theorem repair_keeps_order (clock : nat -> Z) (messages : list Message) :
  sublist (List.filter kept messages)
    (insertSyntheticToolResults clock messages) /\
  forall m, In m (insertSyntheticToolResults clock messages) ->
    In m messages \/
    exists tc t, m = ToolResult (syntheticToolResult tc t) /\
                 callOf messages tc.
Proof.
  rewrite insertSyntheticToolResults_spec. split; [apply runOut_sublist |].
  intros m H. apply runOut_origin in H as [H | (tc & t & -> & [[] | H])]; eauto.
Qed.

(** A search call with the id [i]. *)
Definition searching (i : string) : AssistantMessage :=
  mkAssistant
    [TextBlock "looking it up"%string;
     ToolCallBlock (mkToolCall i "search"%string "{}"%string None)]
    "anthropic-messages"%string "anthropic"%string "claude"%string
    (mkUsage 0 0 0 0 0) toolUse None 0.

Definition question : Message := User (mkUser "and then?"%string 0).

Definition found (i : string) : Message :=
  ToolResult (mkToolResult i "search"%string [TextBlock "42"%string] false 0).

Definition epoch (n : nat) : Z := 1700000000000 + Z.of_nat n.

(** Two calls, the first one answered, the second one not. *)
Definition brokenHistory : list Message :=
  [Assistant (searching "call-1"%string); found "call-1"%string; question;
   Assistant (searching "call-2"%string); question].

Definition noResult (i : string) (now : Z) : Message :=
  ToolResult (syntheticToolResult
                (mkToolCall i "search"%string "{}"%string None) now).

Lemma repair_answers_every_call_witness :
  Forall (fun tc => exists r,
            In (ToolResult r) [noResult "call-2"%string (epoch 0)] /\
            toolCallId r = id tc)
    (toolCallsOf (content (searching "call-2"%string))).
Proof.
  apply (repair_answers_every_call epoch brokenHistory
           [Assistant (searching "call-1"%string); found "call-1"%string; question]
           (searching "call-2"%string) [noResult "call-2"%string (epoch 0)]
           question []); reflexivity.
Defined.

(** The history so far ends with a call that has no result yet. *)
Lemma repair_leaves_last_calls_open_witness :
  exists F,
    insertSyntheticToolResults epoch
      ([Assistant (searching "call-1"%string); question]
       ++ [Assistant (searching "call-2"%string)])
    = F ++ [Assistant (searching "call-2"%string)] /\
    insertSyntheticToolResults epoch
      ([Assistant (searching "call-1"%string); question]
       ++ Assistant (searching "call-2"%string) :: [])
    = F ++ Assistant (searching "call-2"%string) :: [].
Proof.
  apply (repair_leaves_last_calls_open epoch
           [Assistant (searching "call-1"%string); question]
           (searching "call-2"%string) []); reflexivity.
Defined.

End RepairMore.

(** ** More on stage 1: what it changes and what it leaves alone *)

Module NormalizeMore.
Import JsString Completion Types Transform.
Local Close Scope string_scope.

Section Stage1.
Variable context : MessageTransformContext.

Local Abbreviation mdl := (ctx_model context).

(** What stage 1 makes of a tool call of the message [a]. *)
Definition callAfter (a : AssistantMessage) (tc : ToolCall) : ToolCall :=
  let same := isSameModel mdl a in
  mkToolCall
    (match normalizeToolCallId context with
     | Some normalize => if same then id tc else normalize (id tc) mdl a
     | None => id tc
     end)
    (name tc) (arguments tc)
    (if negb same && present (thoughtSignature tc) then None
     else thoughtSignature tc).

(** The blocks of a message of the target model that stage 1 keeps:
    all but the thinking blocks with neither a signature nor a text. *)
Definition keepsBlock (b : Block) : bool :=
  match b with
  | ThinkingBlock thinking signature =>
      present signature ||
      negb (negb (truthy thinking) || String.eqb (trim thinking) ""%string)
  | _ => true
  end.

(** The blocks that stage 1 lets through from another model's message:
    text, and tool calls without a thought signature. *)
Definition portable (b : Block) : bool :=
  match b with
  | TextBlock _ => true
  | ThinkingBlock _ _ => false
  | ToolCallBlock tc => negb (present (thoughtSignature tc))
  end.

(** Every entry of the id table is an id with what the normaliser made
    of it, and that is another id. *)
Definition tableFrom (m : gmap string string) : Prop :=
  forall k v, m !! k = Some v ->
    v <> k /\
    exists normalize src,
      normalizeToolCallId context = Some normalize /\
      v = normalize k mdl src.

Lemma callAfter_same a tc : isSameModel mdl a = true -> callAfter a tc = tc.
Proof.
  intros H. unfold callAfter. rewrite H. simpl.
  destruct tc, (normalizeToolCallId context); reflexivity.
Qed.

Lemma normalizeBlock_calls a m b :
  toolCallsOf (fst (normalizeBlock context a m b))
  = map (callAfter a) (toolCallsOf [b]).
Proof.
  destruct b as [t | t sg | tc]; simpl.
  - now destruct (isSameModel mdl a).
  - repeat (match goal with |- context [if ?c then _ else _] => destruct c end);
      reflexivity.
  - unfold callAfter.
    destruct (normalizeToolCallId context) as [f|];
      destruct (isSameModel mdl a); simpl;
      try (destruct (present (thoughtSignature tc)); destruct tc; reflexivity).
    destruct (String.eqb_spec (f (id tc) mdl a) (id tc)) as [E|E]; simpl.
    + rewrite E. destruct (present (thoughtSignature tc)); destruct tc; reflexivity.
    + destruct (present (thoughtSignature tc)); reflexivity.
Qed.

Lemma toolCallsOf_app x y : toolCallsOf (x ++ y) = toolCallsOf x ++ toolCallsOf y.
Proof. unfold toolCallsOf. apply flat_map_app. Qed.

Lemma normalizeContent_calls a : forall bs m,
  toolCallsOf (fst (normalizeContent context a m bs))
  = map (callAfter a) (toolCallsOf bs).
Proof.
  induction bs as [|b bs IH]; intros m; [reflexivity |].
  cbn [normalizeContent].
  pose proof (normalizeBlock_calls a m b) as Hb.
  destruct (normalizeBlock context a m b) as [o1 m1].
  specialize (IH m1). destruct (normalizeContent context a m1 bs) as [o2 m2].
  cbn [fst] in *. rewrite toolCallsOf_app, Hb, IH.
  change (b :: bs) with ([b] ++ bs). now rewrite toolCallsOf_app, map_app.
Qed.

Lemma normalizeBlock_same a m b :
  isSameModel mdl a = true ->
  normalizeBlock context a m b = (if keepsBlock b then [b] else [], m).
Proof.
  intros H. destruct b as [t | t sg | tc]; simpl; rewrite H; simpl.
  - reflexivity.
  - destruct (present sg); simpl; [reflexivity |].
    destruct (negb (truthy t) || String.eqb (trim t) ""%string); reflexivity.
  - destruct (normalizeToolCallId context); reflexivity.
Qed.

Lemma normalizeContent_same a :
  isSameModel mdl a = true ->
  forall bs m,
    normalizeContent context a m bs = (List.filter keepsBlock bs, m).
Proof.
  intros H. induction bs as [|b bs IH]; intros m; simpl; [reflexivity |].
  rewrite (normalizeBlock_same a m b H), IH.
  destruct (keepsBlock b); reflexivity.
Qed.

Lemma normalizeBlock_foreign a m b :
  isSameModel mdl a = false ->
  forallb portable (fst (normalizeBlock context a m b)) = true.
Proof.
  intros H. destruct b as [t | t sg | tc]; simpl; rewrite H; simpl.
  - reflexivity.
  - destruct (negb (truthy t) || String.eqb (trim t) ""%string); reflexivity.
  - destruct (present (thoughtSignature tc)) eqn:P;
      destruct (normalizeToolCallId context) as [f|]; simpl;
      try (destruct (negb (String.eqb (f (id tc) mdl a) (id tc))); simpl);
      now rewrite ?P.
Qed.

Lemma normalizeContent_foreign a :
  isSameModel mdl a = false ->
  forall bs m,
    forallb portable (fst (normalizeContent context a m bs)) = true.
Proof.
  intros H. induction bs as [|b bs IH]; intros m; simpl; [reflexivity |].
  pose proof (normalizeBlock_foreign a m b H) as Hb.
  destruct (normalizeBlock context a m b) as [o1 m1].
  specialize (IH m1). destruct (normalizeContent context a m1 bs) as [o2 m2].
  simpl in *. rewrite forallb_app, Hb, IH. reflexivity.
Qed.

Lemma normalizeBlock_table a m b :
  tableFrom m -> tableFrom (snd (normalizeBlock context a m b)).
Proof.
  intros H. destruct b as [t | t sg | tc]; simpl.
  - now destruct (isSameModel mdl a).
  - repeat (match goal with |- context [if ?c then _ else _] => destruct c end);
      exact H.
  - destruct (normalizeToolCallId context) as [f|] eqn:N; [| exact H].
    destruct (isSameModel mdl a); simpl; [exact H |].
    destruct (String.eqb_spec (f (id tc) mdl a) (id tc)) as [E|E]; simpl;
      [exact H |].
    intros k v. rewrite lookup_insert. case_decide; [| apply H].
    intros [= <-]. subst k. split; [exact E |]. exists f, a. rewrite N. auto.
Qed.

Lemma normalizeContent_table a : forall bs m,
  tableFrom m -> tableFrom (snd (normalizeContent context a m bs)).
Proof.
  induction bs as [|b bs IH]; intros m H; simpl; [exact H |].
  pose proof (normalizeBlock_table a m b H) as Hb.
  destruct (normalizeBlock context a m b) as [o1 m1].
  specialize (IH m1 Hb). destruct (normalizeContent context a m1 bs) as [o2 m2].
  exact IH.
Qed.

(** How a message and what stage 1 makes of it are related. *)
Definition normalized (msg msg' : Message) : Prop :=
  match msg with
  | User _ => msg' = msg
  | ToolResult r =>
      msg' = msg \/
      exists normalize src,
        normalizeToolCallId context = Some normalize /\
        normalize (toolCallId r) mdl src <> toolCallId r /\
        msg' = ToolResult (withToolCallId r (normalize (toolCallId r) mdl src))
  | Assistant a =>
      exists c,
        msg' = Assistant (withContent a c) /\
        toolCallsOf c = map (callAfter a) (toolCallsOf (content a)) /\
        (if isSameModel mdl a
         then c = List.filter keepsBlock (content a)
         else forallb portable c = true)
  end.

Lemma normalizeMessage_normalized m msg :
  tableFrom m ->
  normalized msg (fst (normalizeMessage context m msg)) /\
  tableFrom (snd (normalizeMessage context m msg)).
Proof.
  intros H. destruct msg as [u | a | r]; simpl.
  - auto.
  - pose proof (normalizeContent_calls a (content a) m) as Hc.
    pose proof (normalizeContent_table a (content a) m H) as Ht.
    destruct (isSameModel mdl a) eqn:S.
    + rewrite (normalizeContent_same a S) in *. simpl in *.
      split; [| exact Ht]. eexists. eauto.
    + pose proof (normalizeContent_foreign a S (content a) m) as Hf.
      destruct (normalizeContent context a m (content a)) as [c m'].
      simpl in *. split; [| exact Ht]. exists c. auto.
  - destruct (m !! toolCallId r) as [v|] eqn:L; [| auto].
    destruct (H _ _ L) as (Hne & f & src & N & ->).
    destruct (truthy _ && negb _); simpl; [| auto].
    split; [| exact H]. right. exists f, src. auto.
Qed.

Lemma normalizeMessages_normalized : forall l m,
  tableFrom m -> Forall2 normalized l (normalizeMessages context m l).
Proof.
  induction l as [|msg l IH]; intros m H; simpl; [constructor |].
  destruct (normalizeMessage_normalized m msg H) as [Hn Ht].
  destruct (normalizeMessage context m msg) as [msg' m']. simpl in *.
  constructor; auto.
Qed.

(** X11.  Stage 1 maps the history message by message.  A user message
    is left as it is.  A tool result is left as it is or gets, as its
    id, what the normaliser makes of its id, and that is another id.
    An assistant message changes in its content only; its tool calls
    stay, one for one and in order, with their names and arguments;
    from a message of the target model only the thinking blocks
    without signature and without text are taken out; from a message
    of another model no thinking block and no thought signature is
    left. *)
Theorem stage1_message_by_message (messages : list Message) :
  Forall2 normalized messages
    (apply NormalizeAssistantContentTransformation messages context) /\
  List.length (apply NormalizeAssistantContentTransformation messages context)
  = List.length messages.
Proof.
  assert (H : Forall2 normalized messages (normalizeMessages context ∅ messages)).
  { apply normalizeMessages_normalized. intros k v E.
    rewrite lookup_empty in E. discriminate. }
  split; [exact H |]. symmetry. exact (Forall2_length _ _ _ H).
Qed.

End Stage1.

(** X12.  Without a normaliser stage 1 renames nothing: tool results are
    left as they are, and so is the id of every tool call.  A history of
    the target model alone only loses its empty thinking blocks. *)
Theorem stage1_without_normalizer (mdl : Model) (messages : list Message) :
  (forall k r, messages !! k = Some (ToolResult r) ->
     normalizeMessages (mkContext mdl None) ∅ messages !! k
     = Some (ToolResult r)) /\
  (forall k a, messages !! k = Some (Assistant a) ->
     exists c,
       normalizeMessages (mkContext mdl None) ∅ messages !! k
       = Some (Assistant (withContent a c)) /\
       map id (toolCallsOf c) = map id (toolCallsOf (content a))) /\
  (forall n, Forall (fun m => match m with
                               | Assistant a => isSameModel mdl a = true
                               | _ => True
                               end) messages ->
     normalizeMessages (mkContext mdl n) ∅ messages
     = map (fun m => match m with
                     | Assistant a =>
                         Assistant (withContent a (List.filter keepsBlock (content a)))
                     | _ => m
                     end) messages).
Proof.
  pose proof (fun n => normalizeMessages_normalized (mkContext mdl n) messages ∅)
    as H.
  assert (H0 : forall n, tableFrom (mkContext mdl n) ∅).
  { intros n k v E. rewrite lookup_empty in E. discriminate. }
  split; [| split].
  - intros k r Hk. specialize (H None (H0 None)).
    destruct (Forall2_lookup_l _ _ _ _ _ H Hk) as (m' & -> & Hn).
    simpl in Hn. destruct Hn as [-> | (f & src & N & _)]; [reflexivity |].
    discriminate.
  - intros k a Hk. specialize (H None (H0 None)).
    destruct (Forall2_lookup_l _ _ _ _ _ H Hk) as (m' & -> & Hn).
    simpl in Hn. destruct Hn as (c & -> & Hc & _). exists c.
    split; [reflexivity |]. rewrite Hc, map_map. apply map_ext.
    intros tc. reflexivity.
  - intros n Hall. clear H H0. induction Hall as [|m l Hm Hl IH]; [reflexivity |].
    cbn [normalizeMessages map]. destruct m as [u | a | r].
    + cbn [normalizeMessage]. now rewrite IH.
    + cbn [normalizeMessage].
      rewrite (normalizeContent_same (mkContext mdl n) a Hm). now rewrite IH.
    + cbn [normalizeMessage]. rewrite lookup_empty. now rewrite IH.
Qed.

End NormalizeMore.

(** ** Tool-call ids and stop reasons across providers *)

Module ConsolidationFacts.
Import JsString Completion Types Transform Consolidation.
Local Close Scope string_scope.

Fixpoint all_id_chars (s : string) : bool :=
  match s with
  | EmptyString => true
  | String c s' => is_id_char c && all_id_chars s'
  end.

(** An id as the comment in transform-messages asks for: the characters
    of [[a-zA-Z0-9_-]], at most 64 of them. *)
Definition validId (s : string) : bool :=
  all_id_chars s && (String.length s <=? 64)%nat.

Lemma sanitize_length s : String.length (sanitize s) = String.length s.
Proof. induction s as [|c s IH]; simpl; congruence. Qed.

Lemma sanitize_chars s : all_id_chars (sanitize s) = true.
Proof.
  induction s as [|c s IH]; simpl; [reflexivity |].
  rewrite IH, andb_true_r. destruct (is_id_char c) eqn:E; [exact E | reflexivity].
Qed.

Lemma sanitize_fixed s : all_id_chars s = true -> sanitize s = s.
Proof.
  induction s as [|c s IH]; simpl; [reflexivity |].
  intros H. apply andb_true_iff in H as [Hc Hs]. now rewrite Hc, IH.
Qed.

Lemma substring_chars : forall n s,
  all_id_chars s = true -> all_id_chars (substring 0 n s) = true.
Proof.
  induction n as [|n IH]; intros [|c s]; simpl; try reflexivity.
  intros H. apply andb_true_iff in H as [Hc Hs]. now rewrite Hc, IH.
Qed.

Lemma substring_length : forall n s,
  String.length (substring 0 n s) = Nat.min n (String.length s).
Proof.
  induction n as [|n IH]; intros [|c s]; simpl; try reflexivity.
  now rewrite IH.
Qed.

Lemma substring_all : forall n s,
  (String.length s <= n)%nat -> substring 0 n s = s.
Proof.
  induction n as [|n IH]; intros [|c s]; simpl; try reflexivity; try lia.
  intros H. rewrite IH; [reflexivity | lia].
Qed.

Lemma slice0_prefix s n :
  0 <= n -> slice0 s n = substring 0 (Z.to_nat n) s.
Proof.
  intros H. unfold slice0.
  destruct (n <? 0) eqn:G; [apply Z.ltb_lt in G; lia |].
  destruct (Z_le_gt_dec n (Z.of_nat (String.length s))) as [L|L].
  - now rewrite Z.min_l.
  - rewrite Z.min_r by lia. rewrite Nat2Z.id.
    rewrite !substring_all; [reflexivity | lia | lia].
Qed.

Lemma normalize_default i :
  normalizeToolCallId i NotNumber = substring 0 64 (sanitize i).
Proof. unfold normalizeToolCallId. now rewrite slice0_prefix. Qed.

Lemma normalize_valid i : validId (normalizeToolCallId i NotNumber) = true.
Proof.
  rewrite normalize_default. unfold validId.
  rewrite substring_chars by apply sanitize_chars.
  rewrite substring_length, andb_true_l. apply Nat.leb_le, Nat.le_min_l.
Qed.

Lemma normalize_fixed i :
  validId i = true -> normalizeToolCallId i NotNumber = i.
Proof.
  unfold validId. intros H. apply andb_true_iff in H as [Hc Hl].
  apply Nat.leb_le in Hl. rewrite normalize_default, sanitize_fixed by exact Hc.
  now apply substring_all.
Qed.

(** X13.  [normalizeToolCallId], called without a length, answers an id
    of at most 64 characters from [[a-zA-Z0-9_-]]: the first 64
    characters of the id, each one outside the class replaced by an
    underscore.  It changes an id exactly when the id is not of that
    form already, so normalising twice is normalising once.  The copy in
    the Bedrock provider and [normalizeToolName] without a length are
    the same function.  With an explicit length that is not negative
    the id is cut to that length instead. *)
Theorem normalizeToolCallId_valid (i : string) :
  validId (normalizeToolCallId i NotNumber) = true /\
  String.length (normalizeToolCallId i NotNumber)
  = Nat.min 64 (String.length i) /\
  (normalizeToolCallId i NotNumber = i <-> validId i = true) /\
  normalizeToolCallId (normalizeToolCallId i NotNumber) NotNumber
  = normalizeToolCallId i NotNumber /\
  bedrockNormalizeToolCallId i = normalizeToolCallId i NotNumber /\
  normalizeToolName i None = normalizeToolCallId i NotNumber /\
  (forall n, 0 <= n ->
     String.length (normalizeToolCallId i (IsNumber n))
     = Nat.min (Z.to_nat n) (String.length i) /\
     all_id_chars (normalizeToolCallId i (IsNumber n)) = true /\
     normalizeToolCallId (normalizeToolCallId i (IsNumber n)) (IsNumber n)
     = normalizeToolCallId i (IsNumber n)).
Proof.
  split; [apply normalize_valid |]. split.
  { now rewrite normalize_default, substring_length, sanitize_length. }
  split.
  { split; [| apply normalize_fixed].
    intros E. rewrite <- E. apply normalize_valid. }
  split; [apply normalize_fixed, normalize_valid |]. split.
  { unfold bedrockNormalizeToolCallId. rewrite normalize_default.
    rewrite slice0_prefix by lia.
    destruct (64 <? Z.of_nat (String.length (sanitize i))) eqn:G; [reflexivity |].
    apply Z.ltb_ge in G. symmetry. apply substring_all. lia. }
  split; [reflexivity |].
  intros n H. unfold normalizeToolCallId. rewrite !slice0_prefix by exact H.
  split; [now rewrite substring_length, sanitize_length |].
  assert (Hc : all_id_chars (substring 0 (Z.to_nat n) (sanitize i)) = true)
    by apply substring_chars, sanitize_chars.
  split; [exact Hc |].
  rewrite (sanitize_fixed _ Hc). apply substring_all.
  rewrite substring_length. lia.
Qed.

(** *** The pipeline with this normaliser *)

Lemma asNormalizer_stable mdl :
  PipelineFacts.stableNormalizer mdl (Some asNormalizer).
Proof.
  intros i src src'. unfold asNormalizer.
  apply normalize_fixed, normalize_valid.
Qed.

(** The tool calls of the assistant messages of another model. *)
Definition foreignCalls (mdl : Model) (l : list Message) : list ToolCall :=
  flat_map (fun m => match m with
                     | Assistant a =>
                         if isSameModel mdl a then [] else toolCallsOf (content a)
                     | _ => []
                     end) l.

Lemma foreignCalls_in mdl tc : forall l,
  In tc (foreignCalls mdl l) ->
  exists a, In (Assistant a) l /\ isSameModel mdl a = false /\
            In tc (toolCallsOf (content a)).
Proof.
  induction l as [|m l IH]; simpl; [tauto |].
  rewrite in_app_iff. intros [H | H].
  - destruct m as [u | a | r]; simpl in H; try tauto.
    destruct (isSameModel mdl a) eqn:S; [destruct H |]. eauto.
  - destruct (IH H) as (a & Hin & Hs & Htc). eauto.
Qed.

(** X14.  [transformMessages] with [normalizeToolCallId], as the
    Anthropic and Bedrock providers call it, returns a history in which
    every tool call of a message from another model has an id of at
    most 64 characters from [[a-zA-Z0-9_-]]; and it returns that history
    unchanged when it is given it again. *)
Theorem transformMessages_ids_valid (clock clock' : nat -> Z)
    (messages : list Message) (mdl : Model) :
  exists out,
    transformMessages clock messages mdl (Some asNormalizer) = Returns out /\
    forallb (fun tc => validId (id tc)) (foreignCalls mdl out) = true /\
    transformMessages clock' out mdl (Some asNormalizer) = Returns out.
Proof.
  destruct (PipelineFacts.transformMessages_idempotent mdl (Some asNormalizer)
              clock clock' messages (asNormalizer_stable mdl))
    as (out & H1 & H2).
  exists out. split; [exact H1 |]. split; [| exact H2].
  rewrite NormalizeFacts.transformMessages_spec in H1. injection H1 as <-.
  apply forallb_forall. intros tc Hin.
  apply foreignCalls_in in Hin as (a' & Hin & Hs & Htc).
  rewrite RepairFacts.insertSyntheticToolResults_spec in Hin.
  apply RepairFacts.runOut_inv in Hin as [[Hin _] | (tc' & t & [=])].
  pose proof (NormalizeMore.normalizeMessages_normalized
                (mkContext mdl (Some asNormalizer)) messages ∅) as Hn.
  assert (H0 : NormalizeMore.tableFrom (mkContext mdl (Some asNormalizer)) ∅).
  { intros k v E. rewrite lookup_empty in E. discriminate. }
  specialize (Hn H0).
  apply list_elem_of_In, list_elem_of_lookup in Hin as [k Hk].
  destruct (Forall2_lookup_r _ _ _ _ _ Hn Hk) as (m & Hm & Hrel).
  destruct m as [u | a | r]; simpl in Hrel.
  - discriminate.
  - destruct Hrel as (c & [= ->] & Hc & _).
    assert (Hs' : isSameModel mdl a = false) by exact Hs.
    simpl in Htc. rewrite Hc in Htc. apply in_map_iff in Htc as (tc0 & <- & _).
    unfold NormalizeMore.callAfter. simpl. rewrite Hs'. simpl.
    apply normalize_valid.
  - destruct Hrel as [[=] | (f & src & _ & _ & [=])].
Qed.

(** *** Stop reasons *)

Fixpoint no_upper (s : string) : bool :=
  match s with
  | EmptyString => true
  | String c s' => negb (in_range 65 90 c) && no_upper s'
  end.

Lemma lower_char_no_upper c : in_range 65 90 (lower_char c) = false.
Proof. destruct c as [[] [] [] [] [] [] [] []]; reflexivity. Qed.

Lemma toLowerCase_no_upper s : no_upper (toLowerCase s) = true.
Proof.
  induction s as [|c s IH]; simpl; [reflexivity |].
  now rewrite lower_char_no_upper, IH.
Qed.

Lemma toLowerCase_not s k :
  no_upper k = false -> String.eqb (toLowerCase s) k = false.
Proof.
  intros H. destruct (String.eqb_spec (toLowerCase s) k) as [E|]; [| reflexivity].
  rewrite <- E, toLowerCase_no_upper in H. discriminate.
Qed.

Lemma truthy_toLowerCase s : truthy (toLowerCase s) = truthy s.
Proof. now destruct s. Qed.

Ltac by_cases s :=
  repeat match goal with
         | |- context [String.eqb s ?k] =>
             destruct (String.eqb_spec s k);
             [subst s; vm_compute; try congruence; try tauto |]
         end.

(** X15.  The two stop-reason mappers.  [mapStopReason] of
    provider-consolidation never answers [aborted], and answers [stop]
    when there is no reason.  [mapProviderStopReason] of provider-errors
    is [mapStopReason] on the reason in lower case, for a provider other
    than Bedrock; so the two agree wherever [mapStopReason] does not
    answer [error].  The local mapper of the Anthropic provider agrees
    with [mapStopReason] on every reason it knows but [pause_turn],
    which it maps to [stop] and [mapStopReason] to [error]. *)
Theorem stop_reason_mappers (reason : option string) (provider : option string)
    (name : string) :
  mapStopReason reason provider <> aborted /\
  mapStopReason None provider = stop /\
  mapProviderStopReason reason name
  = mapStopReason (option_map toLowerCase reason) None /\
  (mapStopReason reason None <> error ->
   mapProviderStopReason reason name = mapStopReason reason None) /\
  (forall r answer,
     anthropicMapStopReason r = Returns answer ->
     r <> "pause_turn"%string ->
     mapStopReason (Some r) provider = answer) /\
  anthropicMapStopReason "pause_turn" = Returns stop /\
  mapStopReason (Some "pause_turn"%string) provider = error.
Proof.
  split; [| split; [| split; [| split; [| split; [| split]]]]].
  - destruct reason as [s|]; [| discriminate]. unfold mapStopReason.
    repeat match goal with
           | |- context [if ?b then _ else _] => destruct b
           end; discriminate.
  - reflexivity.
  - destruct reason as [s|]; [| reflexivity].
    unfold mapProviderStopReason, mapStopReason, option_map.
    rewrite truthy_toLowerCase. destruct (truthy s); [| reflexivity].
    cbn [negb oneOf existsb andb].
    rewrite !(toLowerCase_not s "STOP"), !(toLowerCase_not s "MAX_TOKENS"),
      !(toLowerCase_not s "TOOL_USE") by reflexivity.
    generalize (toLowerCase s) as l. intros l.
    destruct (String.eqb l "end_turn"), (String.eqb l "stop"),
      (String.eqb l "stop_sequence"), (String.eqb l "max_tokens"),
      (String.eqb l "length"), (String.eqb l "tool_use"),
      (String.eqb l "tool_calls"), (String.eqb l "function_call"),
      (String.eqb l "content_filter"), (String.eqb l "refusal"),
      (String.eqb l "safety"); reflexivity.
  - destruct reason as [s|]; [| reflexivity].
    unfold mapProviderStopReason, mapStopReason.
    destruct (truthy s); [| reflexivity].
    cbn [negb oneOf existsb andb]. by_cases s.
    cbn [orb]. congruence.
  - intros r answer. unfold anthropicMapStopReason, mapStopReason.
    by_cases r. discriminate.
  - reflexivity.
  - destruct provider as [p|]; [| reflexivity].
    unfold mapStopReason. cbn -[String.eqb].
    destruct (String.eqb p "bedrock"); reflexivity.
Qed.

End ConsolidationFacts.

(** ** More on overflow detection: suggestions and letter case *)

Module OverflowMore.
Import JsString Regex Types Overflow.

(** Two strings of the same length whose code units have, one by one,
    the same canonical form: what a pattern with the flag [i] cannot
    tell apart. *)
Fixpoint sameCanonical (a b : string) : bool :=
  match a, b with
  | EmptyString, EmptyString => true
  | String x a', String y b' =>
      Ascii.eqb (canonicalize x) (canonicalize y) && sameCanonical a' b'
  | _, _ => false
  end.

Definition all_ascii : list ascii :=
  map (fun n => ascii_of_nat n) (seq 0 256).

Lemma all_ascii_complete c : In c all_ascii.
Proof.
  unfold all_ascii. apply in_map_iff. exists (nat_of_ascii c).
  split; [apply ascii_nat_embedding |].
  apply in_seq. pose proof (nat_ascii_bounded c). lia.
Qed.

(** Two code units with the same canonical form are in the same
    classes. *)
Definition classes_agree (x y : ascii) : bool :=
  negb (Ascii.eqb (canonicalize x) (canonicalize y)) ||
  (Bool.eqb (is_line_terminator x) (is_line_terminator y) &&
   Bool.eqb (is_digit x) (is_digit y) &&
   Bool.eqb (is_space x) (is_space y)).

Lemma classes_agree_all :
  forallb (fun x => forallb (classes_agree x) all_ascii) all_ascii = true.
Proof. vm_compute. reflexivity. Qed.

Lemma canonical_classes x y :
  canonicalize x = canonicalize y ->
  is_line_terminator x = is_line_terminator y /\
  is_digit x = is_digit y /\ is_space x = is_space y.
Proof.
  intros E. pose proof classes_agree_all as H.
  rewrite forallb_forall in H. specialize (H x (all_ascii_complete x)).
  rewrite forallb_forall in H. specialize (H y (all_ascii_complete y)).
  unfold classes_agree in H. rewrite E, Ascii.eqb_refl in H. simpl in H.
  apply andb_true_iff in H as [H H3]. apply andb_true_iff in H as [H1 H2].
  apply Bool.eqb_prop in H1, H2, H3. auto.
Qed.

Lemma atom_ok_canonical a x y :
  canonicalize x = canonicalize y -> atom_ok true a x = atom_ok true a y.
Proof.
  intros E. destruct (canonical_classes x y E) as (H1 & H2 & H3).
  destruct a as [c | | | | cs]; simpl; unfold same_char.
  - now rewrite E.
  - now rewrite H1.
  - exact H2.
  - exact H3.
  - induction cs as [|c cs IH]; simpl; [reflexivity |]. rewrite E.
    f_equal; try exact IH.
Qed.

Lemma deriv_canonical x y :
  canonicalize x = canonicalize y ->
  forall r, deriv true x r = deriv true y r.
Proof.
  intros E. induction r as [ | | a | r1 IH1 r2 IH2 | r1 IH1 r2 IH2 | r IH ];
    simpl; try reflexivity.
  - now rewrite (atom_ok_canonical a x y E).
  - now rewrite IH1, IH2.
  - now rewrite IH1, IH2.
  - now rewrite IH.
Qed.

Lemma match_prefix_canonical : forall a b r,
  sameCanonical a b = true -> match_prefix true r a = match_prefix true r b.
Proof.
  induction a as [|x a IH]; intros [|y b] r H; simpl in *; try discriminate;
    [reflexivity |].
  apply andb_true_iff in H as [Hx H]. apply Ascii.eqb_eq in Hx.
  now rewrite (deriv_canonical x y Hx), (IH b _ H).
Qed.

Lemma search_canonical : forall a b r,
  sameCanonical a b = true -> search true r a = search true r b.
Proof.
  induction a as [|x a IH]; intros [|y b] r H; try discriminate;
    [reflexivity |].
  cbn [search]. rewrite (match_prefix_canonical _ _ r H).
  simpl in H. apply andb_true_iff in H as [_ H]. now rewrite (IH b r H).
Qed.

Lemma test_canonical re a b :
  ignoreCase re = true -> sameCanonical a b = true -> test re a = test re b.
Proof.
  intros Hi H. unfold test. rewrite Hi.
  destruct (anchored re);
    [now apply match_prefix_canonical | now apply search_canonical].
Qed.

Lemma table_ignores_case :
  forallb (fun entry => ignoreCase (pattern entry)) OVERFLOW_PATTERN_CONFIG = true.
Proof. reflexivity. Qed.

Lemma table_canonical a b :
  sameCanonical a b = true ->
  forall table,
    forallb (fun entry => ignoreCase (pattern entry)) table = true ->
    existsb (fun entry => test (pattern entry) a) table
    = existsb (fun entry => test (pattern entry) b) table /\
    option_map suggestion (find (fun entry => test (pattern entry) a) table)
    = option_map suggestion (find (fun entry => test (pattern entry) b) table).
Proof.
  intros H. induction table as [|entry table IH]; simpl; [auto |].
  intros Ht. apply andb_true_iff in Ht as [He Ht].
  rewrite (test_canonical _ a b He H). destruct (IH Ht) as [-> IH2].
  split; [reflexivity |]. now destruct (test (pattern entry) b).
Qed.

Lemma sameCanonical_truthy a b : sameCanonical a b = true -> truthy a = truthy b.
Proof. destruct a, b; simpl; congruence. Qed.

(** The letters A to Z in lower case, every other code unit as it is. *)
Definition lowerAZ_char (c : ascii) : ascii :=
  if in_range 65 90 c then ascii_of_N (code c + 32) else c.

Fixpoint lowerAZ (s : string) : string :=
  match s with
  | EmptyString => EmptyString
  | String c s' => String (lowerAZ_char c) (lowerAZ s')
  end.

(** Two strings that are the same but for the case of letters A to Z:
    at each position the same code unit, or the same letter of A to Z in
    either case. *)
Fixpoint sameButCaseAZ (a b : string) : bool :=
  match a, b with
  | EmptyString, EmptyString => true
  | String x a', String y b' =>
      Ascii.eqb (lowerAZ_char x) (lowerAZ_char y) && sameButCaseAZ a' b'
  | _, _ => false
  end.

Definition canonical_agree (x y : ascii) : bool :=
  negb (Ascii.eqb (lowerAZ_char x) (lowerAZ_char y)) ||
  Ascii.eqb (canonicalize x) (canonicalize y).

Lemma canonical_agree_all :
  forallb (fun x => forallb (canonical_agree x) all_ascii) all_ascii = true.
Proof. vm_compute. reflexivity. Qed.

Lemma lowerAZ_canonical x y :
  lowerAZ_char x = lowerAZ_char y -> canonicalize x = canonicalize y.
Proof.
  intros E. pose proof canonical_agree_all as H.
  rewrite forallb_forall in H. specialize (H x (all_ascii_complete x)).
  rewrite forallb_forall in H. specialize (H y (all_ascii_complete y)).
  unfold canonical_agree in H. rewrite E, Ascii.eqb_refl in H.
  now apply Ascii.eqb_eq.
Qed.

Lemma sameButCaseAZ_canonical : forall a b,
  sameButCaseAZ a b = true -> sameCanonical a b = true.
Proof.
  induction a as [|x a IH]; intros [|y b] H; simpl in *; try discriminate;
    [reflexivity |].
  apply andb_true_iff in H as [Hx H]. apply Ascii.eqb_eq in Hx.
  rewrite (lowerAZ_canonical x y Hx), Ascii.eqb_refl. now apply IH.
Qed.

Lemma sameButCaseAZ_lower : forall s, sameButCaseAZ (lowerAZ s) s = true.
Proof.
  induction s as [|c s IH]; simpl; [reflexivity |]. rewrite IH, andb_true_r.
  apply Ascii.eqb_eq. destruct c as [[] [] [] [] [] [] [] []]; reflexivity.
Qed.

Definition withError (m : AssistantMessage) (e : string) : AssistantMessage :=
  mkAssistant (content m) (api m) (provider m) (model m) (usage m)
    (stopReason m) (Some e) (timestamp m).

(** X16.  Overflow detection does not look at the case of the letters A
    to Z: two error messages that are the same but for the case of such
    letters give the same answer of [isContextOverflow] and the same
    suggestion; so a message and the message with its letters A to Z put
    in lower case do.  (The patterns carry the flag [i] and not the flag
    [u]: the statement is about the letters A to Z, and not about
    [toLowerCase()], which maps other code units onto these letters as
    well.) *)
Theorem overflow_ignores_case (m : AssistantMessage) (w : option Z)
    (e e' : string) :
  sameButCaseAZ e e' = true ->
  isContextOverflow (withError m e) w = isContextOverflow (withError m e') w /\
  getOverflowSuggestion (Some e) = getOverflowSuggestion (Some e') /\
  isContextOverflow (withError m (lowerAZ e)) w
  = isContextOverflow (withError m e) w /\
  getOverflowSuggestion (Some (lowerAZ e)) = getOverflowSuggestion (Some e).
Proof.
  assert (H : forall a b, sameButCaseAZ a b = true ->
            isContextOverflow (withError m a) w
            = isContextOverflow (withError m b) w /\
            getOverflowSuggestion (Some a) = getOverflowSuggestion (Some b)).
  { intros a b Hab. apply sameButCaseAZ_canonical in Hab.
    destruct (table_canonical a b Hab _ table_ignores_case) as [H1 H2].
    pose proof (test_canonical STATUS_NO_BODY a b eq_refl Hab) as H3.
    pose proof (sameCanonical_truthy a b Hab) as H4.
    unfold isContextOverflow, getOverflowSuggestion.
    cbn [withError errorMessage stopReason usage]. rewrite H1, H3, H4.
    split; [reflexivity |]. destruct (negb (truthy b)); [reflexivity |].
    destruct (find _ OVERFLOW_PATTERN_CONFIG) as [x|],
             (find _ OVERFLOW_PATTERN_CONFIG) as [y|];
      simpl in H2; try discriminate; [now injection H2 as -> | reflexivity]. }
  intros Hee. destruct (H e e' Hee) as [H1 H2].
  split; [exact H1 | split; [exact H2 |]].
  exact (H _ _ (sameButCaseAZ_lower e)).
Qed.

Lemma overflow_ignores_case_witness :
  isContextOverflow (withError (errorMsg "") "Prompt Is Too Long") None
  = isContextOverflow (withError (errorMsg "") "prompt is too long") None /\
  getOverflowSuggestion (Some "Prompt Is Too Long")
  = getOverflowSuggestion (Some "prompt is too long") /\
  isContextOverflow (withError (errorMsg "") (lowerAZ "Prompt Is Too Long")) None
  = isContextOverflow (withError (errorMsg "") "Prompt Is Too Long") None /\
  getOverflowSuggestion (Some (lowerAZ "Prompt Is Too Long"))
  = getOverflowSuggestion (Some "Prompt Is Too Long").
Proof.
  apply (overflow_ignores_case (errorMsg "") None
           "Prompt Is Too Long" "prompt is too long").
  reflexivity.
Defined.

Definition GENERIC_SUGGESTION : string :=
  "Provider returned a generic overflow-like status. Retry with shorter context.".

Lemma find_existsb {A} (f : A -> bool) l :
  existsb f l = match find f l with Some _ => true | None => false end.
Proof. induction l as [|x l IH]; simpl; [reflexivity |]. now destruct (f x). Qed.

Lemma existsb_pattern (f : RegExp -> bool) table :
  existsb f (map pattern table) = existsb (fun entry => f (pattern entry)) table.
Proof. induction table as [|x l IH]; simpl; [reflexivity |]. now rewrite IH. Qed.

(** X17.  A suggestion is given exactly for the error texts that
    [isContextOverflow] takes for an overflow.  It is the suggestion of
    the first entry of the table whose pattern is found in the text, and
    the generic one when only the status pattern is found.  The patterns
    that [getOverflowPatterns] lists are those of the table, in its
    order. *)
Theorem getOverflowSuggestion_spec (e : string) :
  (isContextOverflow (errorMsg e) None = true <->
   exists s, getOverflowSuggestion (Some e) = Some s) /\
  (forall s, getOverflowSuggestion (Some e) = Some s ->
     (exists before entry after,
        OVERFLOW_PATTERN_CONFIG = (before ++ entry :: after)%list /\
        Found (pattern entry) e /\ suggestion entry = s /\
        Forall (fun x => ~ Found (pattern x) e) before) \/
     (s = GENERIC_SUGGESTION /\ Found STATUS_NO_BODY e /\
      Forall (fun x => ~ Found (pattern x) e) OVERFLOW_PATTERN_CONFIG)) /\
  getOverflowSuggestion None = None /\
  getOverflowSuggestion (Some "") = None /\
  getOverflowPatterns = map pattern OVERFLOW_PATTERN_CONFIG /\
  (existsb (fun re => test re e) getOverflowPatterns = true ->
   isContextOverflow (errorMsg e) None = true).
Proof.
  assert (Hfind : forall table,
            match find (fun entry => test (pattern entry) e) table with
            | Some entry =>
                exists before after,
                  table = (before ++ entry :: after)%list /\
                  Found (pattern entry) e /\
                  Forall (fun x => ~ Found (pattern x) e) before
            | None => Forall (fun x => ~ Found (pattern x) e) table
            end).
  { induction table as [|x table IH]; simpl; [constructor |].
    destruct (test (pattern x) e) eqn:T.
    - exists [], table. split; [reflexivity |].
      split; [now apply RegexFacts.test_spec | constructor].
    - assert (Hx : ~ Found (pattern x) e).
      { intros F. apply RegexFacts.test_spec in F. congruence. }
      destruct (find _ table) as [entry|].
      + destruct IH as (before & after & -> & HF & Hb).
        exists (x :: before), after. split; [reflexivity |].
        split; [exact HF | now constructor].
      + now constructor. }
  split; [| split; [| repeat split]].
  - unfold isContextOverflow, getOverflowSuggestion.
    cbn [errorMsg errorMessage stopReason StopReason_eqb andb].
    rewrite find_existsb. destruct e as [|c e]; [vm_compute; split; [discriminate | intros [s H]; discriminate] |].
    cbn [truthy negb andb].
    destruct (find _ OVERFLOW_PATTERN_CONFIG) as [x|]; cbn [orb].
    + split; eauto.
    + destruct (test STATUS_NO_BODY (String c e)).
      * split; eauto.
      * split; [discriminate | intros [s H]; discriminate].
  - intros s. unfold getOverflowSuggestion.
    destruct (negb (truthy e)); [discriminate |].
    specialize (Hfind OVERFLOW_PATTERN_CONFIG).
    destruct (find _ OVERFLOW_PATTERN_CONFIG) as [x|].
    + intros [= <-]. left. destruct Hfind as (before & after & E & HF & Hb).
      exists before, x, after. auto.
    + destruct (test STATUS_NO_BODY e) eqn:T; [| discriminate].
      intros [= <-]. right. split; [reflexivity |].
      split; [now apply RegexFacts.test_spec | exact Hfind].
  - unfold getOverflowPatterns. rewrite existsb_pattern. intros H.
    unfold isContextOverflow.
    cbn [errorMsg errorMessage stopReason StopReason_eqb andb].
    destruct e as [|c e]; [vm_compute in H; discriminate |].
    cbn [truthy andb]. now rewrite H.
Qed.

End OverflowMore.

(** ** More on the event stream: delivery, history, the final result *)

Module EventStreamMore.
Import EventStream.
Local Close Scope string_scope.

Section Stream.
Context {T R : Type}.
Variable isComplete : T -> bool.
Variable extractResult : T -> R.
Variable historyLimit : option Z.

Local Abbreviation state := (@EventStream.state T R).
Local Abbreviation call := (@EventStream.call T R).
Local Abbreviation push := (EventStream.push isComplete extractResult historyLimit).
Local Abbreviation perform := (EventStream.perform isComplete extractResult historyLimit).
Local Abbreviation run := (EventStream.run isComplete extractResult historyLimit).

(** The events the stream takes in: those pushed while it is not done. *)
Fixpoint accepted (calls : list call) (s : state) : list T :=
  match calls with
  | [] => []
  | c :: rest =>
      match c with
      | Push event => if done s then [] else [event]
      | _ => []
      end ++ accepted rest (perform s c)
  end.

(** What one call hands to consumers, read off the stream itself: the
    iterator result that [next] returns at once, and, for [push] and
    [end], what they resolve pending [next()] calls with, which is what
    the call adds to [resumed]. *)
Definition handedBy (c : call) (s : state) : list (nat * @IteratorResult T) :=
  match c with
  | Next waiter =>
      match snd (next waiter s) with
      | Some r => [(waiter, r)]
      | None => []
      end
  | _ => drop (List.length (resumed s)) (resumed (perform s c))
  end.

(** What consumers are handed in the course of some calls, oldest
    first. *)
Fixpoint handed (calls : list call) (s : state)
    : list (nat * @IteratorResult T) :=
  match calls with
  | [] => []
  | c :: rest => handedBy c s ++ handed rest (perform s c)
  end.

(** The events among iterator results. *)
Definition events (results : list (nat * @IteratorResult T)) : list T :=
  flat_map (fun r => match snd r with
                     | Yield event => [event]
                     | Finished => []
                     end) results.

(** A consumer waits only when the queue is empty. *)
Definition exclusive (s : state) : Prop := queue s = [] \/ waiting s = [].

Lemma resolve_fields r (s : state) :
  queue (resolveFinalResult r s) = queue s /\
  waiting (resolveFinalResult r s) = waiting s /\
  done (resolveFinalResult r s) = done s /\
  history (resolveFinalResult r s) = history s.
Proof. unfold resolveFinalResult. destruct (finalResult s); auto. Qed.

Lemma end_fields r (s : state) :
  queue (end_ r s) = queue s /\ waiting (end_ r s) = [] /\
  history (end_ r s) = history s.
Proof.
  destruct s as [q w d f h rs], r as [r|]; unfold end_, resolveFinalResult;
    simpl; [destruct f |]; auto.
Qed.

Lemma push_open (s : state) event :
  done s = false ->
  match waiting s with
  | _ :: rest =>
      queue (push event s) = queue s /\ waiting (push event s) = rest
  | [] =>
      queue (push event s) = queue s ++ [event] /\ waiting (push event s) = []
  end.
Proof.
  intros D. unfold EventStream.push. rewrite D.
  destruct (isComplete event).
  - match goal with
    | |- context [resolveFinalResult ?r ?x] =>
        destruct (resolve_fields r x) as (Hq & Hw & _ & _);
        rewrite Hw; cbn [waiting pushHistory] in *;
        destruct (waiting s); cbn [queue waiting]; rewrite ?Hq; auto
    end.
  - cbn [waiting pushHistory]. destruct (waiting s); auto.
Qed.

Lemma events_app a b : events (a ++ b) = events a ++ events b.
Proof. apply flat_map_app. Qed.

Lemma events_finished (ws : list nat) :
  events (map (fun waiter => (waiter, Finished)) ws) = [].
Proof. induction ws as [|w ws IH]; [reflexivity | exact IH]. Qed.

Lemma push_resumed (s : state) event :
  done s = false ->
  resumed (push event s)
  = resumed s ++ match waiting s with
                 | waiter :: _ => [(waiter, Yield event)]
                 | [] => []
                 end.
Proof.
  intros D. destruct s as [q w d f h rs]. simpl in D. subst d.
  unfold EventStream.push, resolveFinalResult, pushHistory. simpl.
  destruct (isComplete event); [destruct f |]; simpl; destruct w; simpl;
    now rewrite ?app_nil_r.
Qed.

Lemma end_resumed r (s : state) :
  resumed (end_ r s)
  = resumed s ++ map (fun waiter => (waiter, Finished)) (waiting s).
Proof.
  destruct s as [q w d f h rs], r as [r|]; unfold end_, resolveFinalResult;
    simpl; [destruct f |]; reflexivity.
Qed.

Lemma drop_own_length {A} (l more : list A) :
  drop (List.length l) (l ++ more) = more.
Proof. induction l as [|x l IH]; [reflexivity | exact IH]. Qed.

(** What each call hands out. *)
Lemma handedBy_push (s : state) event :
  handedBy (Push event) s
  = if done s then []
    else match waiting s with
         | waiter :: _ => [(waiter, Yield event)]
         | [] => []
         end.
Proof.
  unfold handedBy. cbn [EventStream.perform]. destruct (done s) eqn:D.
  - unfold EventStream.push. rewrite D.
    rewrite <- (app_nil_r (resumed s)) at 2. apply drop_own_length.
  - rewrite (push_resumed s event D). apply drop_own_length.
Qed.

Lemma handedBy_end (s : state) r :
  handedBy (End r) s = map (fun waiter => (waiter, Finished)) (waiting s).
Proof.
  unfold handedBy. cbn [EventStream.perform]. rewrite end_resumed.
  apply drop_own_length.
Qed.

Lemma fifo_run : forall calls (s : state),
  exclusive s ->
  events (handed calls s) ++ queue (run calls s) = queue s ++ accepted calls s /\
  exclusive (run calls s).
Proof.
  induction calls as [|c calls IH]; intros s Hx.
  - simpl. rewrite app_nil_r. auto.
  - cbn [handed accepted EventStream.run fold_left]. rewrite events_app.
    change (fold_left perform calls (perform s c)) with (run calls (perform s c)).
    destruct c as [event | r | w].
    + rewrite handedBy_push. cbn [EventStream.perform].
      destruct (done s) eqn:D.
      * unfold EventStream.push. rewrite D. simpl. now apply IH.
      * pose proof (push_open s event D) as Hp.
        destruct (waiting s) as [|w0 rest] eqn:W; destruct Hp as [Hq Hw].
        -- destruct (IH (push event s)) as [E X]; [right; exact Hw |].
           split; [| exact X]. simpl. rewrite E, Hq. now rewrite <- app_assoc.
        -- destruct Hx as [Hx | Hx]; [| congruence].
           destruct (IH (push event s)) as [E X]; [left; congruence |].
           split; [| exact X]. cbn [events flat_map snd]. rewrite app_nil_r.
           rewrite <- app_assoc, E, Hq, Hx. reflexivity.
    + rewrite handedBy_end, events_finished. cbn [EventStream.perform].
      destruct (end_fields r s) as (Hq & Hw & _).
      destruct (IH (end_ r s)) as [E X]; [right; exact Hw |].
      split; [| exact X]. rewrite !app_nil_l. now rewrite E, Hq.
    + unfold handedBy. cbn [EventStream.perform]. unfold next.
      destruct (queue s) as [|event q] eqn:Q.
      * destruct (done s) eqn:D; cbn [fst snd].
        -- destruct (IH s Hx) as [E X]. split; [| exact X].
           cbn [events flat_map snd]. rewrite !app_nil_l. now rewrite E, Q.
        -- match goal with
           | |- context [run calls ?x] =>
               destruct (IH x) as [E X]; [left; reflexivity |]
           end.
           split; [| exact X]. cbn [events flat_map]. rewrite !app_nil_l.
           now rewrite E.
      * cbn [fst snd].
        match goal with
        | |- context [run calls ?x] =>
            destruct (IH x) as [E X];
              [destruct Hx as [Hx | Hx]; [congruence | right; exact Hx] |]
        end.
        split; [| exact X]. cbn [events flat_map snd]. rewrite app_nil_r.
        rewrite <- app_assoc, E. reflexivity.
Qed.

Lemma finished_run : forall calls (s : state) waiter,
  In (waiter, Finished) (handed calls s) -> done (run calls s) = true.
Proof.
  induction calls as [|c calls IH]; intros s waiter H; [destruct H |].
  cbn [handed] in H. cbn [EventStream.run fold_left].
  change (fold_left perform calls (perform s c)) with (run calls (perform s c)).
  apply in_app_or in H as [H | H]; [| exact (IH _ _ H)].
  apply EventStreamFacts.done_run.
  destruct c as [event | r | w].
  - rewrite handedBy_push in H.
    destruct (done s); [destruct H |].
    destruct (waiting s); [destruct H |].
    destruct H as [H | []]. discriminate.
  - apply EventStreamFacts.done_end.
  - unfold handedBy in H. cbn [EventStream.perform].
    rewrite EventStreamFacts.done_next.
    unfold next in H. destruct (queue s); [| destruct H as [H | []]; discriminate].
    destruct (done s); [reflexivity | destruct H].
Qed.

(** X18.  Events reach consumers first in, first out, each one once.  On
    a new stream, whatever calls are made: the events that consumers
    were handed so far (by [next] from the queue, or by [push] to a
    pending [next()]), followed by those still in the queue, are the
    events the stream took in, in the order of their [push]; no consumer
    waits while the queue holds an event; and a consumer is told that
    the iteration is over only on a stream that is done. *)
Theorem events_are_delivered_in_order (calls : list call) :
  events (handed calls init) ++ queue (run calls init) = accepted calls init /\
  exclusive (run calls init) /\
  (forall waiter,
     In (waiter, Finished) (handed calls init) ->
     done (run calls init) = true).
Proof.
  destruct (fifo_run calls init (or_introl eq_refl)) as [E X].
  split; [exact E | split; [exact X |]].
  intros waiter. apply finished_run.
Qed.

(** *** The history *)

(** What [pushHistory] keeps of the list it has extended. *)
Definition keepLast (h : list T) : list T :=
  match historyLimit with
  | Some limit =>
      if negb (limit =? 0)%Z && (limit >? 0) && (Z.of_nat (List.length h) >? limit)
      then drop (Z.to_nat (Z.of_nat (List.length h) - limit)) h
      else h
  | None => h
  end.

Lemma keepLast_drop h :
  keepLast h =
  match historyLimit with
  | Some limit =>
      if 0 <? limit then drop (List.length h - Z.to_nat limit) h else h
  | None => h
  end.
Proof.
  unfold keepLast. destruct historyLimit as [limit|]; [| reflexivity].
  destruct (0 <? limit) eqn:P.
  - apply Z.ltb_lt in P.
    assert (E0 : (limit =? 0) = false) by (apply Z.eqb_neq; lia).
    assert (E1 : (limit >? 0) = true) by (apply Z.gtb_lt; lia).
    rewrite E0, E1. cbn [negb andb].
    destruct (Z.of_nat (List.length h) >? limit) eqn:G.
    + f_equal. lia.
    + assert (Z.of_nat (List.length h) <= limit).
      { rewrite Z.gtb_ltb in G. now apply Z.ltb_ge in G. }
      replace (List.length h - Z.to_nat limit)%nat with O by lia. reflexivity.
  - apply Z.ltb_ge in P.
    destruct (limit =? 0) eqn:E0; [reflexivity |].
    assert (E1 : (limit >? 0) = false).
    { rewrite Z.gtb_ltb. apply Z.ltb_ge. lia. }
    now rewrite E1.
Qed.

Lemma keepLast_snoc h event :
  keepLast (keepLast h ++ [event]) = keepLast (h ++ [event]).
Proof.
  rewrite !keepLast_drop. destruct historyLimit as [limit|]; [| reflexivity].
  destruct (0 <? limit) eqn:P; [| reflexivity]. apply Z.ltb_lt in P.
  set (n := Z.to_nat limit). assert (Hn : (0 < n)%nat) by (unfold n; lia).
  rewrite !length_app, length_drop. simpl List.length.
  destruct (le_lt_dec (List.length h) n) as [L|L].
  - replace (List.length h - n)%nat with O by lia. rewrite Nat.sub_0_r.
    reflexivity.
  - rewrite !drop_app_le by (rewrite ?length_drop; lia).
    rewrite drop_drop. do 2 f_equal. lia.
Qed.

Lemma history_push (s : state) event :
  done s = false -> history (push event s) = keepLast (history s ++ [event]).
Proof.
  intros D. unfold EventStream.push. rewrite D.
  destruct (isComplete event).
  - match goal with
    | |- context [resolveFinalResult ?r ?x] =>
        destruct (resolve_fields r x) as (_ & Hw & _ & Hh);
        destruct (waiting (resolveFinalResult r x)); cbn [history];
        rewrite Hh; reflexivity
    end.
  - destruct (waiting (pushHistory historyLimit event s)); reflexivity.
Qed.

Lemma history_run : forall calls (s : state) h0,
  history s = keepLast h0 ->
  history (run calls s) = keepLast (h0 ++ accepted calls s).
Proof.
  induction calls as [|c calls IH]; intros s h0 H.
  - simpl. now rewrite app_nil_r.
  - cbn [accepted EventStream.run fold_left].
    change (fold_left perform calls (perform s c)) with (run calls (perform s c)).
    destruct c as [event | r | w].
    + cbn [EventStream.perform]. destruct (done s) eqn:D.
      * unfold EventStream.push. rewrite D. now apply IH.
      * rewrite app_assoc. apply IH.
        now rewrite history_push, H, keepLast_snoc.
    + apply IH. rewrite <- H. cbn [EventStream.perform].
      apply (end_fields r s).
    + apply IH. rewrite <- H. cbn [EventStream.perform]. unfold next.
      destruct (queue s); [destruct (done s) |]; reflexivity.
Qed.

(** X19.  The history of a stream is what it took in, cut to the limit:
    with a positive [historyLimit] it holds the last [historyLimit]
    events pushed while the stream was not done, and never more; with
    no limit, or one that is not positive, it holds them all. *)
Theorem history_is_bounded (calls : list call) :
  getHistory (run calls init) =
  match historyLimit with
  | Some limit =>
      if 0 <? limit
      then drop (List.length (accepted calls init) - Z.to_nat limit)
             (accepted calls init)
      else accepted calls init
  | None => accepted calls init
  end /\
  match historyLimit with
  | Some limit =>
      0 < limit -> Z.of_nat (List.length (getHistory (run calls init))) <= limit
  | None => True
  end.
Proof.
  assert (H : getHistory (run calls init) = keepLast (accepted calls init)).
  { unfold getHistory. rewrite (history_run calls init []); [reflexivity |].
    rewrite keepLast_drop. destruct historyLimit as [limit|]; [| reflexivity].
    destruct (0 <? limit); reflexivity. }
  rewrite H, keepLast_drop. split; [reflexivity |].
  destruct historyLimit as [limit|]; [| exact I].
  intros P. assert (E : (0 <? limit) = true) by now apply Z.ltb_lt.
  rewrite E, length_drop. lia.
Qed.

(** *** The final result *)

(** A call that neither ends the stream nor completes it. *)
Definition keepsOpen (c : call) : bool :=
  match c with
  | Push event => negb (isComplete event)
  | End _ => false
  | Next _ => true
  end.

Lemma keepsOpen_perform (s : state) c :
  keepsOpen c = true ->
  done (perform s c) = done s /\ finalResult (perform s c) = finalResult s.
Proof.
  destruct c as [event | r | w]; simpl; [| discriminate |].
  - intros H. apply negb_true_iff in H. unfold EventStream.push.
    destruct (done s) eqn:D; [auto |]. rewrite H.
    destruct (waiting (pushHistory historyLimit event s)); simpl; auto.
  - intros _. unfold next. destruct (queue s); [destruct (done s) eqn:D |]; auto.
Qed.

Lemma keepsOpen_run : forall calls (s : state),
  forallb keepsOpen calls = true ->
  done (run calls s) = done s /\ finalResult (run calls s) = finalResult s.
Proof.
  induction calls as [|c calls IH]; intros s H; simpl in *; [auto |].
  apply andb_true_iff in H as [Hc H].
  destruct (keepsOpen_perform s c Hc) as [<- <-]. now apply IH.
Qed.

Lemma settled_perform (s : state) c r :
  finalResult s = Some r -> finalResult (perform s c) = Some r.
Proof.
  intros H. destruct s as [q w d f h rs]. simpl in H. subst f.
  destruct c as [event | r' | w']; simpl.
  - unfold EventStream.push, resolveFinalResult, pushHistory. simpl.
    destruct d; [reflexivity |].
    destruct (isComplete event); simpl; destruct w; reflexivity.
  - unfold end_, resolveFinalResult. destruct r'; reflexivity.
  - unfold next. simpl. destruct q; [destruct d |]; reflexivity.
Qed.

Lemma settled_run : forall calls (s : state) r,
  finalResult s = Some r -> finalResult (run calls s) = Some r.
Proof.
  induction calls as [|c calls IH]; intros s r H; simpl; [exact H |].
  apply IH. now apply settled_perform.
Qed.

Lemma settles_push (s : state) event :
  done s = false -> finalResult s = None -> isComplete event = true ->
  finalResult (push event s) = Some (extractResult event).
Proof.
  destruct s as [q w d f h rs]. simpl. intros -> -> He.
  unfold EventStream.push, resolveFinalResult, pushHistory. simpl.
  rewrite He. simpl. destruct w; reflexivity.
Qed.

(** X20.  The first completing event decides the final result, for good:
    when a new stream is pushed an event that completes it, after calls
    that neither ended nor completed it, [result()] is settled with what
    [extractResult] gives for that event, whatever calls follow. *)
Theorem first_completion_decides_result
    (before after : list call) (event : T) :
  forallb keepsOpen before = true ->
  isComplete event = true ->
  result (run (before ++ Push event :: after) init)
  = Some (extractResult event).
Proof.
  intros Hb He. unfold result, EventStream.run. rewrite fold_left_app.
  cbn [fold_left]. apply settled_run.
  destruct (keepsOpen_run before init Hb) as [D F].
  cbn [EventStream.perform]. now apply settles_push.
Qed.

End Stream.

Definition isLast (n : Z) : bool := (n =? 9)%Z.

(** A consumer that waits for the first event, a second one that takes
    the next event from the queue and then waits for the end, and a
    third one that arrives after the end. *)
Example handed_in_turn :
  handed isLast (fun n => 2 * n) None
    [Next 1; Push 7; Push 8; Next 2; Next 2; End None; Next 3] init
  = [(1%nat, Yield 7); (2%nat, Yield 8); (2%nat, Finished); (3%nat, Finished)].
Proof. reflexivity. Qed.

Lemma first_completion_decides_result_witness :
  result (EventStream.run isLast (fun n => 2 * n) (Some 2)
            ([Push 1; Next 0; Next 1] ++ Push 9 :: [Push 9; End (Some 0)]) init)
  = Some (2 * 9).
Proof.
  apply (first_completion_decides_result isLast (fun n => 2 * n) (Some 2)
           [Push 1; Next 0; Next 1] [Push 9; End (Some 0)] 9); reflexivity.
Defined.

End EventStreamMore.

(** ** The assistant-message stream and its handler *)

Module AssistantStreamFacts.
Import Completion Types EventStream AssistantStream.
Local Close Scope string_scope.

Section Events.
Variable Msg : Type.
Variable historyLimit : option Z.

Local Abbreviation Stream := (AssistantMessageEventStream Msg).

(** A result that is pending or a message. *)
Definition proper (r : option (completion string Msg)) : Prop :=
  r = None \/ exists m, r = Some (Returns m).

Lemma proper_call (s : Stream) (c : streamCall Msg) :
  proper (finalResult s) ->
  proper (finalResult (EventStream.perform (isComplete Msg) (extractResult Msg)
                         historyLimit s (asCall Msg c))).
Proof.
  intros H. destruct s as [q w d f h rs]. simpl in H.
  destruct c as [event | r | wt]; simpl.
  - unfold EventStream.push, resolveFinalResult, pushHistory. simpl.
    destruct d; [exact H |].
    destruct (isComplete Msg event) eqn:C; simpl.
    + destruct f as [x|]; simpl; [destruct w; exact H |].
      assert (P : proper (Some (extractResult Msg event))).
      { destruct event; try discriminate; right; eexists; reflexivity. }
      destruct w; exact P.
    + destruct w; exact H.
  - unfold end_, resolveFinalResult. destruct r as [m|]; simpl; [| exact H].
    destruct f as [x|]; simpl; [exact H |]. right. eauto.
  - unfold next. simpl. destruct q; [destruct d |]; exact H.
Qed.

(** X21.  The final result of an assistant-message stream is, once
    settled, a message: the [throw] in its [extractResult] is never
    reached, whatever calls are made.  On a stream that is not done,
    [pushDone] settles the result with its message and [pushError] with
    its error message. *)
Theorem assistant_stream_result (calls : list (streamCall Msg)) :
  proper (result (runStream Msg historyLimit calls init)) /\
  (forall (s : Stream) reason reason' m,
     done s = false -> finalResult s = None ->
     result (pushDone Msg historyLimit reason m s) = Some (Returns m) /\
     result (pushError Msg historyLimit reason' m s) = Some (Returns m)).
Proof.
  split.
  - unfold result, runStream, EventStream.run.
    assert (H : forall (s : Stream), proper (finalResult s) ->
              proper (finalResult
                        (fold_left (EventStream.perform (isComplete Msg)
                                      (extractResult Msg) historyLimit)
                           (map (asCall Msg) calls) s))).
    { induction calls as [|c calls IH]; intros s H; simpl; [exact H |].
      apply IH, proper_call, H. }
    apply H. now left.
  - intros s reason reason' m D F. unfold pushDone, pushError, pushEvent.
    split.
    + exact (EventStreamMore.settles_push (isComplete Msg) (extractResult Msg)
               historyLimit s (ev_done reason m) D F eq_refl).
    + exact (EventStreamMore.settles_push (isComplete Msg) (extractResult Msg)
               historyLimit s (ev_error reason' m) D F eq_refl).
Qed.

End Events.

Section Handler.
Variable historyLimit : option Z.

Local Abbreviation Stream := (AssistantMessageEventStream OutputRef).

Lemma closed_stream (s : Stream) event :
  done s = true -> waiting s = [] ->
  endStream OutputRef None (pushEvent OutputRef historyLimit event s) = s.
Proof.
  destruct s as [q w d f h rs]. simpl. intros -> ->.
  unfold pushEvent, EventStream.push, endStream, end_. simpl.
  now rewrite app_nil_r.
Qed.

Lemma closing (s : Stream) event :
  done s = false -> finalResult s = None ->
  isComplete OutputRef event = true ->
  let s' := endStream OutputRef None (pushEvent OutputRef historyLimit event s) in
  done s' = true /\ waiting s' = [] /\
  result s' = Some (extractResult OutputRef event).
Proof.
  destruct s as [q w d f h rs]. simpl. intros -> -> C.
  unfold pushEvent, EventStream.push, endStream, end_, resolveFinalResult,
    pushHistory. simpl. rewrite C. simpl. destruct w; simpl; auto.
Qed.

Definition failureReason (c : StreamHandlerContext) : StopReason :=
  match signal c with
  | Some sg => if Retry.aborted sg then aborted else error
  | None => error
  end.

(** X22.  [done(reason)] on a handler whose stream is open writes the
    reason into the output, settles the stream's result with that
    output object, ends the stream and leaves no consumer waiting.  A
    later [done] or [fail] finds the stream closed and leaves it as it
    is: no second terminal event is pushed; but it still writes
    its stop reason into the output, the object the result holds. *)
Theorem handler_done_settles_once (c : StreamHandlerContext) (reason : DoneReason) :
  done (stream c) = false -> finalResult (stream c) = None ->
  exists c1,
    handlerDone historyLimit reason (Some c) = Some c1 /\
    stopReason (output c1) = stopReasonOfDone reason /\
    result (stream c1) = Some (Returns TheOutput) /\
    done (stream c1) = true /\ waiting (stream c1) = [] /\
    (forall reason', exists c2,
       handlerDone historyLimit reason' (Some c1) = Some c2 /\
       stream c2 = stream c1 /\
       stopReason (output c2) = stopReasonOfDone reason') /\
    (forall failure, exists c2,
       snd (handlerFail historyLimit failure (Some c1)) = Some c2 /\
       stream c2 = stream c1 /\
       stopReason (output c2) = failureReason c).
Proof.
  intros D F.
  destruct (closing (stream c) (ev_done reason TheOutput) D F eq_refl)
    as (Hd & Hw & Hr).
  eexists. split; [reflexivity |]. cbn [output stream].
  split; [reflexivity |]. split; [exact Hr |]. split; [exact Hd |].
  split; [exact Hw |]. split.
  - intros reason'. eexists. split; [reflexivity |]. cbn [output stream].
    split; [| reflexivity]. unfold pushDone. now apply closed_stream.
  - intros failure. unfold handlerFail, failureReason. cbn [output stream signal].
    destruct failure as [message | [text | e]]; cbn [snd];
      eexists; (split; [reflexivity |]); cbn [output stream];
      (split; [unfold pushError; try now apply closed_stream; reflexivity |]);
      destruct (signal c) as [[[]]|]; reflexivity.
Qed.

(** X23.  [fail(error)] on a handler whose stream is open writes
    [aborted] into the output when the signal is aborted and [error]
    otherwise.  With an [Error], or a value that [JSON.stringify]
    accepts, it writes the error text, settles the stream's result with
    the output object and ends the stream.  When [JSON.stringify] throws,
    [fail] throws too, after the stop reason is written and before
    anything is pushed: the stream stays open. *)
Theorem handler_fail_settles (c : StreamHandlerContext) (failure : Failure) :
  done (stream c) = false -> finalResult (stream c) = None ->
  exists c1,
    snd (handlerFail historyLimit failure (Some c)) = Some c1 /\
    stopReason (output c1) = failureReason c /\
    match failure with
    | OtherValue (Throws e) =>
        fst (handlerFail historyLimit failure (Some c)) = Throws e /\
        stream c1 = stream c /\
        errorMessage (output c1) = errorMessage (output c)
    | _ =>
        fst (handlerFail historyLimit failure (Some c)) = Returns tt /\
        errorMessage (output c1)
        = match failure with
          | ErrorObject message => Some message
          | OtherValue (Returns text) => text
          | OtherValue (Throws _) => None
          end /\
        result (stream c1) = Some (Returns TheOutput) /\
        done (stream c1) = true /\ waiting (stream c1) = []
    end.
Proof.
  intros D F. unfold handlerFail, failureReason.
  assert (H : forall reason,
            let s' := endStream OutputRef None
                        (pushError OutputRef historyLimit reason TheOutput (stream c)) in
            result s' = Some (Returns TheOutput) /\
            done s' = true /\ waiting s' = []).
  { intros reason.
    destruct (closing (stream c) (ev_error reason TheOutput) D F eq_refl)
      as (Hd & Hw & Hr). auto. }
  destruct failure as [message | [text | e]]; cbn [snd fst];
    eexists; (split; [reflexivity |]); cbn [output stream stopReason errorMessage
                                             withStopReason withErrorMessage];
    (split; [destruct (signal c) as [[[]]|]; reflexivity |]);
    repeat split; try apply H.
Qed.

End Handler.

(** A handler at the start of a response, with a consumer waiting. *)
Definition freshOutput : AssistantMessage :=
  mkAssistant [] "anthropic-messages"%string "anthropic"%string "claude"%string
    (mkUsage 0 0 0 0 0) stop None 0.

Definition freshHandler : StreamHandlerContext :=
  mkHandler freshOutput
    (runStream OutputRef None [CallNext 0] init)
    (Some (Retry.mkSignal true)).

Lemma handler_done_settles_once_witness :
  exists c1,
    handlerDone None done_toolUse (Some freshHandler) = Some c1 /\
    stopReason (output c1) = stopReasonOfDone done_toolUse /\
    result (stream c1) = Some (Returns TheOutput) /\
    done (stream c1) = true /\ waiting (stream c1) = [] /\
    (forall reason', exists c2,
       handlerDone None reason' (Some c1) = Some c2 /\
       stream c2 = stream c1 /\
       stopReason (output c2) = stopReasonOfDone reason') /\
    (forall failure, exists c2,
       snd (handlerFail None failure (Some c1)) = Some c2 /\
       stream c2 = stream c1 /\
       stopReason (output c2) = failureReason freshHandler).
Proof.
  apply (handler_done_settles_once None freshHandler done_toolUse); reflexivity.
Defined.

Lemma handler_fail_settles_witness :
  exists c1,
    snd (handlerFail None (ErrorObject "socket hang up"%string) (Some freshHandler))
    = Some c1 /\
    stopReason (output c1) = failureReason freshHandler /\
    fst (handlerFail None (ErrorObject "socket hang up"%string) (Some freshHandler))
    = Returns tt /\
    errorMessage (output c1) = Some "socket hang up"%string /\
    result (stream c1) = Some (Returns TheOutput) /\
    done (stream c1) = true /\ waiting (stream c1) = [].
Proof.
  apply (handler_fail_settles None freshHandler
           (ErrorObject "socket hang up"%string)); reflexivity.
Defined.

End AssistantStreamFacts.

(** ** More on the registry: keys, registration, dispatch *)

Module RegistryMore.
Import JsString Completion Types StreamApi.
Local Close Scope string_scope.

Section Providers.
Variables Context Options Stream : Type.
Variable validateContext : Context -> completion string unit.

Local Abbreviation registry := (Registry.registry Context Options Stream).
Local Abbreviation entry := (Registry.RegisteredApiProvider Context Options Stream).
Local Abbreviation ApiProvider := (Registry.ApiProvider Context Options Stream).

Definition keys (reg : registry) : list string := map fst reg.

(** Each api is registered once, under its own name, and that name is
    not empty. *)
Definition wellKeyed (reg : registry) : Prop :=
  NoDup (keys reg) /\
  forall k e, In (k, e) reg ->
    Registry.api (Registry.provider e) = k /\ truthy k = true.

Lemma map_get_None k : forall reg : registry,
  Registry.map_get k reg = None <-> ~ In k (keys reg).
Proof.
  induction reg as [|[k' v] reg IH]; simpl; [tauto |].
  destruct (String.eqb_spec k' k) as [E|E].
  - split; [discriminate | intros H; destruct H; auto].
  - rewrite IH. tauto.
Qed.

Lemma map_get_In k e : forall reg : registry,
  Registry.map_get k reg = Some e -> In (k, e) reg.
Proof.
  induction reg as [|[k' v] reg IH]; simpl; [discriminate |].
  destruct (String.eqb_spec k' k) as [E|E].
  - intros [= ->]. subst. now left.
  - intros H. right. now apply IH.
Qed.

Lemma map_get_set_other k k' (v : entry) : forall reg : registry,
  k' <> k ->
  Registry.map_get k' (Registry.map_set k v reg) = Registry.map_get k' reg.
Proof.
  intros reg Hk. induction reg as [|[k0 v0] reg IH]; simpl.
  - destruct (String.eqb_spec k k'); [congruence | reflexivity].
  - destruct (String.eqb_spec k0 k) as [E|E]; simpl.
    + subst k0. destruct (String.eqb_spec k k'); [congruence | reflexivity].
    + destruct (String.eqb k0 k'); [reflexivity | exact IH].
Qed.

Lemma keys_set k (v : entry) : forall reg : registry,
  keys (Registry.map_set k v reg)
  = match Registry.map_get k reg with
    | Some _ => keys reg
    | None => keys reg ++ [k]
    end.
Proof.
  induction reg as [|[k0 v0] reg IH]; simpl; [reflexivity |].
  destruct (String.eqb_spec k0 k) as [E|E]; simpl; [reflexivity |].
  rewrite IH. now destruct (Registry.map_get k reg).
Qed.

Lemma In_set k (v : entry) k' e' : forall reg : registry,
  In (k', e') (Registry.map_set k v reg) ->
  (k' = k /\ e' = v) \/ In (k', e') reg.
Proof.
  induction reg as [|[k0 v0] reg IH]; simpl.
  - intros [[= <- <-] | []]. auto.
  - destruct (String.eqb_spec k0 k) as [E|E]; simpl.
    + intros [[= <- <-] | H]; auto.
    + intros [H | H]; auto. destruct (IH H); auto.
Qed.

Lemma wellKeyed_set k (v : entry) (reg : registry) :
  wellKeyed reg ->
  Registry.api (Registry.provider v) = k -> truthy k = true ->
  wellKeyed (Registry.map_set k v reg).
Proof.
  intros [Hn Ha] Hv Ht. split.
  - rewrite (keys_set k v reg).
    destruct (Registry.map_get k reg) eqn:G; [exact Hn |].
    apply map_get_None in G. apply NoDup_app. split; [exact Hn |].
    split; [| apply NoDup_singleton].
    intros x Hx Hx'. apply list_elem_of_In in Hx, Hx'.
    destruct Hx' as [<- | []]. contradiction.
  - intros k' e' H. apply In_set in H as [[-> ->] | H]; auto.
Qed.

Lemma wellKeyed_filter (f : string * entry -> bool) (reg : registry) :
  wellKeyed reg -> wellKeyed (List.filter f reg).
Proof.
  intros [Hn Ha]. split.
  - unfold keys in *. clear Ha. induction reg as [|[k v] reg IH]; simpl;
      [constructor |].
    apply NoDup_cons in Hn as [Hk Hn].
    destruct (f (k, v)); simpl; [| now apply IH].
    apply NoDup_cons. split; [| now apply IH].
    intros H. apply Hk. apply list_elem_of_In in H. apply list_elem_of_In.
    apply in_map_iff in H as ([k' v'] & E & H). simpl in E. subst k'.
    apply filter_In in H as [H _]. apply in_map_iff. now exists (k, v').
  - intros k e H. apply filter_In in H as [H _]. now apply Ha.
Qed.

Lemma wellKeyed_call (reg : registry) c :
  wellKeyed reg -> wellKeyed (afterCall reg c).
Proof.
  intros H. destruct c as [p o now | api now | api now | src |]; simpl.
  - unfold Registry.register, Registry.validateProvider.
    destruct (truthy (Registry.api p)) eqn:Ht; simpl; [| exact H].
    now apply wellKeyed_set.
  - unfold Registry.enable. destruct (Registry.map_get api reg) as [e|] eqn:G;
      [| exact H]. simpl. apply map_get_In in G.
    destruct (proj2 H _ _ G). now apply wellKeyed_set.
  - unfold Registry.disable. destruct (Registry.map_get api reg) as [e|] eqn:G;
      [| exact H]. simpl. apply map_get_In in G.
    destruct (proj2 H _ _ G). now apply wellKeyed_set.
  - now apply wellKeyed_filter.
  - split; [constructor | intros k e []].
Qed.

(** X24.  Whatever calls are made on a new registry, every api is in it
    at most once, under its own, non-empty name: [get(api)] answers
    nothing or a provider whose [api] is the one asked for, and
    [list(true)] has no two providers for one api. *)
Theorem registry_keys_are_unique (calls : list (registryCall Context Options Stream)) :
  NoDup (keys (afterCalls calls [])) /\
  (forall api p, Registry.get api (afterCalls calls []) = Some p ->
     Registry.api p = api /\ truthy api = true) /\
  NoDup (map Registry.api (Registry.list true (afterCalls calls []))) /\
  map Registry.api (Registry.list true (afterCalls calls []))
  = keys (afterCalls calls []).
Proof.
  assert (H : forall (reg : registry), wellKeyed reg ->
            wellKeyed (afterCalls calls reg)).
  { induction calls as [|c calls IH]; intros reg H; simpl; [exact H |].
    apply IH, wellKeyed_call, H. }
  specialize (H [] (conj (NoDup_nil_2) (fun k e (F : In (k, e) []) => match F with end))).
  set (reg := afterCalls calls []) in *. destruct H as [Hn Ha].
  assert (Hl : map Registry.api (Registry.list true reg) = keys reg).
  { unfold Registry.list, keys. clear Hn.
    induction reg as [|[k e] reg IH]; simpl; [reflexivity |].
    rewrite (proj1 (Ha k e (or_introl eq_refl))). f_equal.
    apply IH. intros k' e' H. apply Ha. now right. }
  split; [exact Hn |]. split; [| split; [now rewrite Hl | exact Hl]].
  intros api p Hg. unfold Registry.get in Hg.
  destruct (Registry.map_get api reg) as [e|] eqn:G; [| discriminate].
  destruct (Registry.enabled (Registry.metadata e)); [| discriminate].
  injection Hg as <-. apply Ha. now apply map_get_In.
Qed.

(** X25.  Registering a provider under a non-empty api, not switched
    off, makes the entry points dispatch to it: [stream] and
    [streamSimple], called with a valid model of that api and a valid
    context, answer what the provider's own [stream] and [streamSimple]
    answer, and [streamByApi] with that api does the same.  The entry
    takes the place of an earlier one for the api and keeps its
    [registeredAt], or is added last; the other apis are as before. *)
Theorem register_then_stream (reg : registry) (p : ApiProvider)
    (options : Registry.RegisterApiProviderOptions) (now : Z)
    (model : Model) (context : Context) (opts : option Options) :
  truthy (Registry.api p) = true ->
  Registry.opt_enabled options <> Some false ->
  Registry.validateModel model = Returns tt ->
  validateContext context = Returns tt ->
  model_api model = Registry.api p ->
  exists reg' e,
    Registry.register p options now reg = Returns reg' /\
    Registry.getWithMetadata (Registry.api p) reg' = Some e /\
    Registry.updatedAt (Registry.metadata e) = now /\
    Registry.registeredAt (Registry.metadata e)
    = match Registry.getWithMetadata (Registry.api p) reg with
      | Some old => Registry.registeredAt (Registry.metadata old)
      | None => now
      end /\
    keys reg' = match Registry.getWithMetadata (Registry.api p) reg with
                | Some _ => keys reg
                | None => keys reg ++ [Registry.api p]
                end /\
    (forall k, k <> Registry.api p ->
       Registry.getWithMetadata k reg' = Registry.getWithMetadata k reg) /\
    Registry.streamEntry validateContext model context opts reg'
    = Registry.stream p model context opts /\
    streamSimpleEntry validateContext model context opts reg'
    = Registry.streamSimple p model context opts /\
    streamByApi validateContext (Registry.api p) model context opts reg'
    = Registry.stream p model context opts.
Proof.
  intros Ht He Hm Hc Ha.
  unfold Registry.register, Registry.validateProvider. rewrite Ht. cbn [negb].
  eexists _, _. split; [reflexivity |].
  unfold Registry.getWithMetadata.
  split; [apply RegistryFacts.map_get_set |].
  cbn [Registry.metadata Registry.updatedAt Registry.registeredAt].
  split; [reflexivity |]. split; [reflexivity |].
  split; [apply keys_set |].
  split; [intros k Hk; now apply map_get_set_other |].
  assert (Hs : Registry.streamEntry validateContext model context opts
                 (Registry.map_set (Registry.api p)
                    (Registry.mkRegistered
                       (Registry.mkProvider (Registry.api p)
                          (Registry.wrapStream _ _ _ (Registry.api p) (Registry.stream p))
                          (Registry.wrapStream _ _ _ (Registry.api p)
                             (Registry.streamSimple p)))
                       (Registry.mkMetadata (Registry.opt_sourceId options)
                          (Registry.opt_version options)
                          match Registry.opt_enabled options with
                          | Some b => b
                          | None => true
                          end
                          match Registry.map_get (Registry.api p) reg with
                          | Some e => Registry.registeredAt (Registry.metadata e)
                          | None => now
                          end now)) reg)
               = Registry.stream p model context opts).
  { unfold Registry.streamEntry, Registry.resolveApiProvider, Registry.get.
    rewrite Hm, Hc, Ha, RegistryFacts.map_get_set.
    cbn [Registry.metadata Registry.enabled Registry.provider].
    destruct (Registry.opt_enabled options) as [[]|]; [| congruence |];
      cbn [Registry.stream]; unfold Registry.wrapStream;
      now rewrite Ha, String.eqb_refl. }
  split; [exact Hs |]. split.
  - unfold streamSimpleEntry, Registry.resolveApiProvider, Registry.get.
    rewrite Hm, Hc, Ha, RegistryFacts.map_get_set.
    cbn [Registry.metadata Registry.enabled Registry.provider].
    destruct (Registry.opt_enabled options) as [[]|]; [| congruence |];
      cbn [Registry.streamSimple]; unfold Registry.wrapStream;
      now rewrite Ha, String.eqb_refl.
  - unfold streamByApi. rewrite Ha at 1. rewrite String.eqb_refl. exact Hs.
Qed.

(** X26.  [unregisterBySource] takes out exactly the entries registered
    with that source and leaves the others as they are and in their
    order; [clear] leaves nothing.  A provider called with a model of
    another api than its own throws before its stream function is
    reached. *)
Theorem unregister_and_clear (reg : registry) (source : string) :
  (forall k e,
     In (k, e) (Registry.unregisterBySource _ _ _ source reg) <->
     In (k, e) reg /\
     Registry.sourceId (Registry.metadata e) <> Some source) /\
  sublist (Registry.unregisterBySource _ _ _ source reg) reg /\
  (forall k, Registry.get k (Registry.clear _ _ _ reg) = None) /\
  Registry.list true (Registry.clear _ _ _ reg) = [] /\
  (forall api f model context opts,
     model_api model <> api ->
     exists message,
       Registry.wrapStream Context Options Stream api f model context opts
       = Throws message).
Proof.
  assert (Hkeep : forall e : entry,
            match Registry.sourceId (Registry.metadata e) with
            | Some s => negb (String.eqb s source)
            | None => true
            end = true <->
            Registry.sourceId (Registry.metadata e) <> Some source).
  { intros e. destruct (Registry.sourceId (Registry.metadata e)) as [s|];
      [| split; [discriminate | reflexivity]].
    destruct (String.eqb_spec s source) as [->|N]; simpl.
    - split; [discriminate | congruence].
    - split; [intros _ [=]; contradiction | reflexivity]. }
  split; [| split; [| split; [| split]]].
  - intros k e. unfold Registry.unregisterBySource.
    rewrite filter_In. simpl. now rewrite Hkeep.
  - unfold Registry.unregisterBySource.
    induction reg as [|kv reg IH]; simpl; [constructor |].
    destruct (match Registry.sourceId (Registry.metadata (snd kv)) with
              | Some s => negb (String.eqb s source)
              | None => true
              end); [now apply sublist_skip | now apply sublist_cons].
  - reflexivity.
  - reflexivity.
  - intros api f model context opts H. unfold Registry.wrapStream.
    destruct (String.eqb_spec (model_api model) api); [contradiction |].
    simpl. eauto.
Qed.

End Providers.

(** A provider that answers with the name of the function called. *)
Definition echoProvider : Registry.ApiProvider unit unit string :=
  Registry.mkProvider "anthropic-messages"%string
    (fun _ _ _ => Returns "stream"%string)
    (fun _ _ _ => Returns "streamSimple"%string).

Definition claude : Model :=
  mkModel "claude"%string "anthropic-messages"%string "anthropic"%string.

Definition noProviders : Registry.registry unit unit string := [].

Lemma register_then_stream_witness :
  exists reg' e,
    Registry.register echoProvider (Registry.mkRegisterOptions None None None)
      1700000000000 noProviders = Returns reg' /\
    Registry.getWithMetadata (Registry.api echoProvider) reg' = Some e /\
    Registry.updatedAt (Registry.metadata e) = 1700000000000 /\
    Registry.registeredAt (Registry.metadata e)
    = match Registry.getWithMetadata (Registry.api echoProvider) noProviders with
      | Some old => Registry.registeredAt (Registry.metadata old)
      | None => 1700000000000
      end /\
    keys unit unit string reg'
    = match Registry.getWithMetadata (Registry.api echoProvider) noProviders with
      | Some _ => keys unit unit string noProviders
      | None => keys unit unit string noProviders ++ [Registry.api echoProvider]
      end /\
    (forall k, k <> Registry.api echoProvider ->
       Registry.getWithMetadata k reg' = Registry.getWithMetadata k noProviders) /\
    Registry.streamEntry (fun _ => Returns tt) claude tt None reg'
    = Registry.stream echoProvider claude tt None /\
    streamSimpleEntry (fun _ => Returns tt) claude tt None reg'
    = Registry.streamSimple echoProvider claude tt None /\
    streamByApi (fun _ => Returns tt) (Registry.api echoProvider) claude tt None reg'
    = Registry.stream echoProvider claude tt None.
Proof.
  apply (register_then_stream unit unit string (fun _ => Returns tt) noProviders
           echoProvider (Registry.mkRegisterOptions None None None)
           1700000000000 claude tt None);
    try reflexivity.
  discriminate.
Defined.

End RegistryMore.

(** ** The Kimi provider: text deltas and the framing of the response *)

Module KimiFacts.
Import JsString Completion Types EventStream AssistantStream Kimi.
Local Close Scope string_scope.
Local Arguments String.append : simpl nomatch.

(** The text a chunk adds, if it adds one. *)
Definition deltaOf (event : KimiStreamEvent) : option string :=
  match choices event with
  | Some (choice :: _) =>
      match choice_delta choice with
      | Some delta =>
          match delta_content delta with
          | Some content => if truthy content then Some content else None
          | None => None
          end
      | None => None
      end
  | _ => None
  end.

Definition deltas (events : list KimiStreamEvent) : list string :=
  omap deltaOf events.

Fixpoint concatAll (l : list string) : string :=
  match l with
  | [] => EmptyString
  | s :: rest => s +:+ concatAll rest
  end.

Definition processChunks (events : list KimiStreamEvent) (k : Sink) : Sink :=
  fold_left (fun k event => processKimiChunk event k) events k.

Definition textDelta (d : string) : AssistantMessageEvent OutputRef :=
  ev_text_delta OutputRef 0 d TheOutput.

Lemma chunk_without_text event k : deltaOf event = None -> processKimiChunk event k = k.
Proof.
  unfold deltaOf, processKimiChunk.
  destruct (choices event) as [[|choice rest]|]; try reflexivity.
  destruct (choice_delta choice) as [delta|]; try reflexivity.
  destruct (delta_content delta) as [content|]; try reflexivity.
  destruct (truthy content); [discriminate | reflexivity].
Qed.

Lemma push_text (s : AssistantMessageEventStream OutputRef) i d :
  done s = false ->
  let s' := pushEvent OutputRef None (ev_text_delta OutputRef i d TheOutput) s in
  done s' = false /\ finalResult s' = finalResult s /\
  history s' = history s ++ [ev_text_delta OutputRef i d TheOutput].
Proof.
  destruct s as [q w dn f h rs]. simpl. intros ->.
  unfold pushEvent, EventStream.push, pushHistory. simpl.
  destruct w; simpl; auto.
Qed.

Lemma text_append_assoc (a b c : string) : (a +:+ b) +:+ c = a +:+ (b +:+ c).
Proof. induction a as [|x a IH]; simpl; [reflexivity | now rewrite IH]. Qed.

Definition keepsReason (r r' : StopReason) : Prop :=
  r' = r \/ r' = stop \/ r' = Types.length.

Lemma keepsReason_trans r1 r2 r3 :
  keepsReason r1 r2 -> keepsReason r2 r3 -> keepsReason r1 r3.
Proof. unfold keepsReason. intuition congruence. Qed.

Lemma chunk_with_text event k d blocks :
  deltaOf event = Some d ->
  done (sink_stream k) = false ->
  content (sink_output k) = blocks ->
  let k' := processKimiChunk event k in
  let index :=
    match last blocks with
    | Some (TextBlock _) => Z.of_nat (List.length blocks) - 1
    | _ => Z.of_nat (List.length blocks)
    end in
  content (sink_output k')
  = match last blocks with
    | Some (TextBlock text) => removelast blocks ++ [TextBlock (text +:+ d)]
    | _ => blocks ++ [TextBlock d]
    end /\
  done (sink_stream k') = false /\
  finalResult (sink_stream k') = finalResult (sink_stream k) /\
  history (sink_stream k')
  = history (sink_stream k) ++ [ev_text_delta OutputRef index d TheOutput] /\
  keepsReason (stopReason (sink_output k)) (stopReason (sink_output k')).
Proof.
  intros Hd D <-. unfold deltaOf in Hd. unfold processKimiChunk.
  destruct (choices event) as [[|choice rest]|]; try discriminate.
  destruct (choice_delta choice) as [delta|]; try discriminate.
  destruct (delta_content delta) as [content|]; try discriminate.
  destruct (truthy content); [| discriminate]. injection Hd as ->. cbn [negb].
  assert (Hr : keepsReason (stopReason (sink_output k))
                 match finish_reason choice with
                 | Some r =>
                     if String.eqb r "stop"%string then stop
                     else if String.eqb r "length"%string then Types.length
                     else stopReason (sink_output k)
                 | None => stopReason (sink_output k)
                 end).
  { unfold keepsReason. destruct (finish_reason choice) as [r|]; [| auto].
    destruct (String.eqb r "stop"%string); [auto |].
    destruct (String.eqb r "length"%string); auto. }
  destruct (last (Types.content (sink_output k))) as [[text | t sg | tc]|];
    cbn [sink_output sink_stream content stopReason withContentAndRest];
    match goal with
    | |- context [pushEvent OutputRef None (ev_text_delta OutputRef ?i d TheOutput) ?s] =>
        destruct (push_text s i d D) as (H1 & H2 & H3)
    end; auto.
Qed.

Lemma deltas_cons event events :
  deltas (event :: events)
  = match deltaOf event with
    | Some d => d :: deltas events
    | None => deltas events
    end.
Proof. unfold deltas. simpl. now destruct (deltaOf event). Qed.

Lemma text_append_nil_r (s : string) : s +:+ EmptyString = s.
Proof. induction s as [|c s IH]; simpl; congruence. Qed.

(** What a run of chunks does to a sink. *)
Definition runsTo (k k' : Sink) (ds : list string) : Prop :=
  history (sink_stream k') = history (sink_stream k) ++ map textDelta ds /\
  done (sink_stream k') = false /\
  result (sink_stream k') = result (sink_stream k) /\
  keepsReason (stopReason (sink_output k)) (stopReason (sink_output k')).

Lemma chunks_after_text : forall events k text,
  content (sink_output k) = [TextBlock text] ->
  done (sink_stream k) = false ->
  content (sink_output (processChunks events k))
  = [TextBlock (text +:+ concatAll (deltas events))] /\
  runsTo k (processChunks events k) (deltas events).
Proof.
  induction events as [|event events IH]; intros k text Hc D.
  - unfold runsTo, keepsReason. simpl. rewrite Hc, app_nil_r, text_append_nil_r.
    repeat split; auto.
  - change (processChunks (event :: events) k)
      with (processChunks events (processKimiChunk event k)).
    rewrite deltas_cons. destruct (deltaOf event) as [d|] eqn:Hd.
    + destruct (chunk_with_text event k d _ Hd D Hc)
        as (H1 & H2 & H3 & H4 & H5). simpl in H1, H4.
      destruct (IH (processKimiChunk event k) (text +:+ d) H1 H2)
        as (I1 & I2 & I3 & I4 & I5).
      split; [rewrite I1; simpl; now rewrite text_append_assoc |].
      unfold runsTo. rewrite I2, H4, <- app_assoc. split; [reflexivity |].
      split; [exact I3 |]. split; [unfold result in *; congruence |].
      eapply keepsReason_trans; eauto.
    + rewrite (chunk_without_text event k Hd). now apply IH.
Qed.

Lemma chunks_after_nothing : forall events k,
  content (sink_output k) = [] ->
  done (sink_stream k) = false ->
  content (sink_output (processChunks events k))
  = match deltas events with
    | [] => []
    | _ :: _ => [TextBlock (concatAll (deltas events))]
    end /\
  runsTo k (processChunks events k) (deltas events).
Proof.
  induction events as [|event events IH]; intros k Hc D.
  - unfold runsTo, keepsReason. simpl. rewrite Hc, app_nil_r.
    repeat split; auto.
  - change (processChunks (event :: events) k)
      with (processChunks events (processKimiChunk event k)).
    rewrite deltas_cons. destruct (deltaOf event) as [d|] eqn:Hd.
    + destruct (chunk_with_text event k d _ Hd D Hc)
        as (H1 & H2 & H3 & H4 & H5). simpl in H1, H4.
      destruct (chunks_after_text events (processKimiChunk event k) d H1 H2)
        as (I1 & I2 & I3 & I4 & I5).
      split; [exact I1 |].
      unfold runsTo. rewrite I2, H4, <- app_assoc. split; [reflexivity |].
      split; [exact I3 |]. split; [unfold result in *; congruence |].
      eapply keepsReason_trans; eauto.
    + rewrite (chunk_without_text event k Hd). now apply IH.
Qed.

(** X27.  The text of a Kimi response is the concatenation of its deltas.
    Starting from the empty output of a new response and a stream that
    is not done, a run of chunks leaves one text block holding the
    deltas in their order, or no block when no chunk carries text; the
    stream has taken in one [text_delta] event per such chunk, all for
    the content index 0, and is not done; the stop reason is the one
    before, [stop] or [length].  A chunk without text is ignored
    altogether, its finish reason and usage included. *)
Theorem kimi_text_is_concatenation (events : list KimiStreamEvent) (k : Sink) :
  content (sink_output k) = [] ->
  done (sink_stream k) = false ->
  content (sink_output (processChunks events k))
  = match deltas events with
    | [] => []
    | _ :: _ => [TextBlock (concatAll (deltas events))]
    end /\
  history (sink_stream (processChunks events k))
  = history (sink_stream k) ++ map textDelta (deltas events) /\
  done (sink_stream (processChunks events k)) = false /\
  result (sink_stream (processChunks events k)) = result (sink_stream k) /\
  keepsReason (stopReason (sink_output k))
    (stopReason (sink_output (processChunks events k))) /\
  Forall (fun event => deltaOf event = None ->
                       forall k', processKimiChunk event k' = k') events.
Proof.
  intros Hc D.
  destruct (chunks_after_nothing events k Hc D) as (H1 & H2 & H3 & H4 & H5).
  repeat (split; [assumption |]).
  apply Forall_forall. intros event _ Hn k'. now apply chunk_without_text.
Qed.

(** A response in three chunks: two with text, and a last one with the
    finish reason and the usage but no text. *)
Definition textChunk (d : string) : KimiStreamEvent :=
  mkEvent (Some [mkChoice 0 (Some (mkDelta None (Some d))) None]) None.

Definition lastChunk : KimiStreamEvent :=
  mkEvent (Some [mkChoice 0 (Some (mkDelta None None)) (Some "length"%string)])
    (Some (mkKimiUsage (Some 12) (Some 34) (Some 46))).

Definition newSink : Sink :=
  mkSink (mkAssistant [] "kimi-openai-compatible"%string "kimi"%string
            "moonshot-v1-128k"%string (mkUsage 0 0 0 0 0) stop None 0)
    init.

Definition threeChunks : list KimiStreamEvent :=
  [textChunk "Hel"%string; textChunk "lo"%string; lastChunk].

Lemma kimi_text_is_concatenation_witness :
  content (sink_output (processChunks threeChunks newSink))
  = match deltas threeChunks with
    | [] => []
    | _ :: _ => [TextBlock (concatAll (deltas threeChunks))]
    end /\
  history (sink_stream (processChunks threeChunks newSink))
  = history (sink_stream newSink) ++ map textDelta (deltas threeChunks) /\
  done (sink_stream (processChunks threeChunks newSink)) = false /\
  result (sink_stream (processChunks threeChunks newSink))
  = result (sink_stream newSink) /\
  keepsReason (stopReason (sink_output newSink))
    (stopReason (sink_output (processChunks threeChunks newSink))) /\
  Forall (fun event => deltaOf event = None ->
                       forall k', processKimiChunk event k' = k') threeChunks.
Proof.
  apply (kimi_text_is_concatenation threeChunks newSink); reflexivity.
Defined.

(** *** Framing: how the response is cut into reads *)

Section Framing.
Variable parseEvent : string -> option KimiStreamEvent.

Definition isData (line : string) : bool :=
  startsWith "data: "%string (trim line).

Definition isDone (line : string) : bool :=
  isData line && String.eqb (sliceFrom 6 (trim line)) "[DONE]"%string.

(** What a line does when no [break] is in the way. *)
Definition stepAll (k : Sink) (line : string) : Sink :=
  if isData line && negb (isDone line)
  then processData parseEvent (sliceFrom 6 (trim line)) k
  else k.

Definition processAll (lines : list string) (k : Sink) : Sink :=
  fold_left stepAll lines k.

(** After a [data: [DONE]] line no [data:] line follows. *)
Fixpoint quiet (lines : list string) : bool :=
  match lines with
  | [] => true
  | line :: rest =>
      if isDone line then forallb (fun l => negb (isData l)) rest
      else quiet rest
  end.

Fixpoint noNewline (s : string) : bool :=
  match s with
  | EmptyString => true
  | String c s' => negb (Ascii.eqb c "010"%char) && noNewline s'
  end.

Lemma processLine_spec line k :
  processLine parseEvent line k
  = if isDone line then None else Some (stepAll k line).
Proof.
  unfold processLine, stepAll, isDone, isData.
  destruct (trim line) as [|c t] eqn:E; [reflexivity |]. cbn [truthy negb].
  destruct (startsWith "data: "%string (String c t)); [| reflexivity].
  cbn [andb]. now destruct (String.eqb _ "[DONE]"%string).
Qed.

Lemma processAll_silent : forall lines k,
  forallb (fun l => negb (isData l)) lines = true -> processAll lines k = k.
Proof.
  induction lines as [|l lines IH]; intros k H; [reflexivity |].
  simpl in H. apply andb_true_iff in H as [Hl H]. apply negb_true_iff in Hl.
  unfold processAll in *. simpl. unfold stepAll at 2. rewrite Hl. now apply IH.
Qed.

Lemma quiet_silent : forall lines,
  forallb (fun l => negb (isData l)) lines = true -> quiet lines = true.
Proof.
  induction lines as [|l lines IH]; intros H; [reflexivity |].
  simpl in *. apply andb_true_iff in H as [Hl H]. apply negb_true_iff in Hl.
  unfold isDone. rewrite Hl. now apply IH.
Qed.

Lemma processLines_quiet : forall lines k,
  quiet lines = true -> processLines parseEvent lines k = processAll lines k.
Proof.
  induction lines as [|l lines IH]; intros k H; [reflexivity |].
  simpl in *. rewrite processLine_spec.
  destruct (isDone l) eqn:Hd.
  - unfold processAll. simpl. unfold stepAll at 2. rewrite Hd, andb_false_r.
    symmetry. now apply processAll_silent.
  - now apply IH.
Qed.

Lemma quiet_app : forall a b,
  quiet (a ++ b) = true -> quiet a = true /\ quiet b = true.
Proof.
  induction a as [|l a IH]; intros b H; [auto |].
  simpl in *. destruct (isDone l); [| now apply IH].
  rewrite forallb_app in H. apply andb_true_iff in H as [Ha Hb].
  split; [exact Ha | now apply quiet_silent].
Qed.

Lemma splitLines_nonempty s : splitLines s <> [].
Proof.
  destruct s as [|c s]; simpl; [discriminate |].
  destruct (Ascii.eqb c "010"%char); [discriminate |].
  destruct (splitLines s); discriminate.
Qed.

Lemma splitLines_app : forall a b,
  splitLines (a +:+ b)
  = removelast (splitLines a)
    ++ splitLines (List.last (splitLines a) EmptyString +:+ b).
Proof.
  induction a as [|c a IH]; intros b; [reflexivity |].
  cbn [String.append splitLines].
  pose proof (splitLines_nonempty a) as Hn.
  destruct (Ascii.eqb c "010"%char) eqn:E.
  - rewrite IH. destruct (splitLines a) as [|h t]; [contradiction |].
    reflexivity.
  - rewrite IH. destruct (splitLines a) as [|h [|h' t]]; [contradiction | |].
    + cbn [removelast List.last app String.append splitLines]. now rewrite E.
    + change (removelast (h :: h' :: t)) with (h :: removelast (h' :: t)).
      change (removelast (String c h :: h' :: t))
        with (String c h :: removelast (h' :: t)).
      change (List.last (h :: h' :: t) EmptyString)
        with (List.last (h' :: t) EmptyString).
      change (List.last (String c h :: h' :: t) EmptyString)
        with (List.last (h' :: t) EmptyString).
      reflexivity.
Qed.

Lemma splitLines_plain : forall s, noNewline s = true -> splitLines s = [s].
Proof.
  induction s as [|c s IH]; simpl; intros H; [reflexivity |].
  apply andb_true_iff in H as [Hc H]. apply negb_true_iff in Hc.
  now rewrite Hc, IH.
Qed.

Lemma last_noNewline : forall s,
  noNewline (List.last (splitLines s) EmptyString) = true.
Proof.
  induction s as [|c s IH]; [reflexivity |]. cbn [splitLines].
  pose proof (splitLines_nonempty s) as Hn.
  destruct (Ascii.eqb c "010"%char) eqn:E.
  - destruct (splitLines s) as [|h t]; [contradiction |]. exact IH.
  - destruct (splitLines s) as [|h [|h' t]]; [contradiction | |].
    + simpl in *. now rewrite E, IH.
    + exact IH.
Qed.

Lemma processAll_app a b k :
  processAll (a ++ b) k = processAll b (processAll a k).
Proof. apply fold_left_app. Qed.

Lemma readLoop_spec : forall reads buffer k,
  noNewline buffer = true ->
  quiet (splitLines (buffer +:+ concatAll reads)) = true ->
  readLoop parseEvent reads buffer k
  = (List.last (splitLines (buffer +:+ concatAll reads)) EmptyString,
     processAll (removelast (splitLines (buffer +:+ concatAll reads))) k).
Proof.
  induction reads as [|value reads IH]; intros buffer k Hb Hq.
  - cbn [concatAll readLoop]. rewrite text_append_nil_r.
    now rewrite (splitLines_plain buffer Hb).
  - cbn [concatAll readLoop]. cbn [concatAll] in Hq.
    assert (E : buffer +:+ value +:+ concatAll reads
                = (buffer +:+ value) +:+ concatAll reads)
      by (symmetry; apply text_append_assoc).
    rewrite E in Hq |- *.
    rewrite (splitLines_app (buffer +:+ value) (concatAll reads)) in Hq |- *.
    set (lines := splitLines (buffer +:+ value)) in *.
    set (rest := splitLines (List.last lines EmptyString +:+ concatAll reads)) in *.
    destruct (quiet_app _ _ Hq) as [Q1 Q2].
    rewrite (IH _ _ (last_noNewline _) Q2). fold rest.
    rewrite (processLines_quiet _ k Q1).
    assert (Hr : rest <> []) by apply splitLines_nonempty.
    f_equal.
    + clear - Hr. induction (removelast lines) as [|x l IH]; [reflexivity |].
      simpl. destruct (l ++ rest) eqn:R; [| exact IH].
      destruct l; [simpl in R; contradiction | discriminate].
    + rewrite <- processAll_app. f_equal.
      clear - Hr. induction (removelast lines) as [|x l IH]; [reflexivity |].
      simpl. destruct (l ++ rest) eqn:R; [| now rewrite IH].
      destruct l; [simpl in R; contradiction | discriminate].
Qed.

(** X28.  How the body is cut into reads does not matter, as long as no
    [data:] line follows a [data: [DONE]] line: [processKimiStream] then
    does to the output and the stream what the [data:] lines of the
    whole text do, one after the other, the last line included even
    without a newline after it; so two ways of cutting the same text
    give the same result. *)
Theorem kimi_framing_is_irrelevant (reads reads' : list string) (k : Sink) :
  concatAll reads' = concatAll reads ->
  quiet (splitLines (concatAll reads)) = true ->
  processKimiStream parseEvent reads k
  = processAll (splitLines (concatAll reads)) k /\
  processKimiStream parseEvent reads' k = processKimiStream parseEvent reads k.
Proof.
  assert (H : forall reads,
            quiet (splitLines (concatAll reads)) = true ->
            processKimiStream parseEvent reads k
            = processAll (splitLines (concatAll reads)) k).
  { clear. intros reads Hq. unfold processKimiStream.
    rewrite (readLoop_spec reads EmptyString k eq_refl Hq).
    cbn [String.append].
    set (lines := splitLines (concatAll reads)).
    assert (Hn : lines <> []) by apply splitLines_nonempty.
    assert (EL : processAll lines k
                 = stepAll (processAll (removelast lines) k)
                     (List.last lines EmptyString)).
    { rewrite (app_removelast_last EmptyString Hn) at 1.
      now rewrite processAll_app. }
    rewrite EL. unfold stepAll, isDone, isData.
    destruct (startsWith "data: "%string (trim (List.last lines EmptyString)));
      [| reflexivity].
    cbn [andb]. now destruct (String.eqb _ "[DONE]"%string). }
  intros E Hq. split; [now apply H |].
  rewrite (H reads Hq), (H reads'); [now rewrite E | now rewrite E].
Qed.

End Framing.

Definition newline : string := String "010"%char EmptyString.

(** Each [data:] line carries its text as it is. *)
Definition asText (data : string) : option KimiStreamEvent :=
  Some (textChunk data).

(** A response of two lines and the end marker, read in one piece and
    read in two pieces cut in the middle of a line. *)
Definition wholeBody : list string :=
  [("data: Hel" +:+ newline +:+ "data: lo" +:+ newline +:+ newline
    +:+ "data: [DONE]" +:+ newline +:+ newline)%string].

Definition cutBody : list string :=
  [("data: Hel" +:+ newline +:+ "da")%string;
   ("ta: lo" +:+ newline +:+ newline +:+ "data: [DONE]" +:+ newline
    +:+ newline)%string].

Lemma kimi_framing_is_irrelevant_witness :
  processKimiStream asText wholeBody newSink
  = processAll asText (splitLines (concatAll wholeBody)) newSink /\
  processKimiStream asText cutBody newSink
  = processKimiStream asText wholeBody newSink.
Proof.
  apply (kimi_framing_is_irrelevant asText wholeBody cutBody newSink);
    reflexivity.
Defined.

(** *** streamKimi *)

Local Abbreviation Stream := (AssistantMessageEventStream OutputRef).

(** The stream of [k'] is that of [k] with more events taken in, none
    of them a terminal one, and still open. *)
Definition steady (k k' : Sink) : Prop :=
  done (sink_stream k') = false /\
  finalResult (sink_stream k') = finalResult (sink_stream k) /\
  (exists events,
     history (sink_stream k') = history (sink_stream k) ++ events /\
     forallb (fun e => negb (isComplete OutputRef e)) events = true) /\
  keepsReason (stopReason (sink_output k)) (stopReason (sink_output k')).

Lemma steady_refl k : done (sink_stream k) = false -> steady k k.
Proof.
  intros D. split; [exact D |]. split; [reflexivity |].
  split; [exists []; now rewrite app_nil_r |]. now left.
Qed.

Lemma steady_trans k1 k2 k3 : steady k1 k2 -> steady k2 k3 -> steady k1 k3.
Proof.
  intros (D1 & F1 & (e1 & H1 & C1) & R1) (D2 & F2 & (e2 & H2 & C2) & R2).
  split; [exact D2 |]. split; [congruence |]. split.
  - exists (e1 ++ e2). rewrite H2, H1, <- app_assoc. split; [reflexivity |].
    now rewrite forallb_app, C1, C2.
  - eapply keepsReason_trans; eauto.
Qed.

Lemma steady_chunk event k :
  done (sink_stream k) = false -> steady k (processKimiChunk event k).
Proof.
  intros D. destruct (deltaOf event) as [d|] eqn:Hd.
  - destruct (chunk_with_text event k d _ Hd D eq_refl)
      as (_ & H2 & H3 & H4 & H5).
    split; [exact H2 |]. split; [exact H3 |]. split; [| exact H5].
    eexists. split; [exact H4 | reflexivity].
  - rewrite (chunk_without_text event k Hd). now apply steady_refl.
Qed.

Section Stream.
Variable parseEvent : string -> option KimiStreamEvent.

Lemma steady_data data k :
  done (sink_stream k) = false -> steady k (processData parseEvent data k).
Proof.
  intros D. unfold processData. destruct (parseEvent data);
    [now apply steady_chunk | now apply steady_refl].
Qed.

Lemma steady_lines : forall lines k,
  done (sink_stream k) = false -> steady k (processLines parseEvent lines k).
Proof.
  induction lines as [|l lines IH]; intros k D; simpl; [now apply steady_refl |].
  rewrite processLine_spec. destruct (isDone l); [now apply steady_refl |].
  assert (H : steady k (stepAll parseEvent k l)).
  { unfold stepAll. destruct (isData l && negb (isDone l));
      [now apply steady_data | now apply steady_refl]. }
  eapply steady_trans; [exact H |]. apply IH. apply H.
Qed.

Lemma steady_reads : forall reads buffer k,
  done (sink_stream k) = false ->
  steady k (snd (readLoop parseEvent reads buffer k)).
Proof.
  induction reads as [|value reads IH]; intros buffer k D; simpl;
    [now apply steady_refl |].
  pose proof (steady_lines
                (removelast (splitLines (buffer +:+ value))) k D) as H.
  eapply steady_trans; [exact H |]. apply IH. apply H.
Qed.

Lemma steady_stream reads k :
  done (sink_stream k) = false ->
  steady k (processKimiStream parseEvent reads k).
Proof.
  intros D. unfold processKimiStream.
  pose proof (steady_reads reads EmptyString k D) as H.
  destruct (readLoop parseEvent reads EmptyString k) as [buffer k']. simpl in H.
  destruct (startsWith "data: "%string (trim buffer)); [| exact H].
  destruct (negb _); [| exact H].
  eapply steady_trans; [exact H |]. apply steady_data. apply H.
Qed.

(** How a run of [streamKimi] leaves the stream: ended, with its result
    settled with the output object, no consumer waiting, and one
    terminal event, the last one it took in. *)
Definition settled (k0 k : Sink) : Prop :=
  done (sink_stream k) = true /\
  waiting (sink_stream k) = [] /\
  result (sink_stream k) = Some (Returns TheOutput) /\
  exists events terminal,
    history (sink_stream k) = history (sink_stream k0) ++ events ++ [terminal] /\
    forallb (fun e => negb (isComplete OutputRef e)) events = true /\
    ((exists reason,
        terminal = ev_done reason TheOutput /\
        stopReason (sink_output k) = stopReasonOfDone reason /\
        reason <> done_toolUse) \/
     (exists reason message,
        terminal = ev_error reason TheOutput /\
        stopReason (sink_output k) = stopReasonOfError reason /\
        errorMessage (sink_output k) = Some message)).

Lemma closing_history (s : Stream) event :
  done s = false -> finalResult s = None ->
  isComplete OutputRef event = true ->
  let s' := endStream OutputRef None (pushEvent OutputRef None event s) in
  done s' = true /\ waiting s' = [] /\
  result s' = Some (extractResult OutputRef event) /\
  history s' = history s ++ [event].
Proof.
  destruct s as [q w d f h rs]. simpl. intros -> -> C.
  unfold pushEvent, EventStream.push, endStream, end_, resolveFinalResult,
    pushHistory. simpl. rewrite C. simpl. destruct w; simpl; auto.
Qed.

Lemma settles_error signal message k0 k :
  steady k0 k -> finalResult (sink_stream k0) = None ->
  settled k0 (settleError signal message k).
Proof.
  intros (D & F & (events & H & C) & _) F0. unfold settleError, pushError.
  set (reason := if signalAborted signal then error_aborted else error_error).
  destruct (closing_history (sink_stream k) (ev_error reason TheOutput) D
              (eq_trans F F0) eq_refl) as (H1 & H2 & H3 & H4).
  split; [exact H1 |]. split; [exact H2 |]. split; [exact H3 |].
  exists events, (ev_error reason TheOutput). cbn [sink_stream sink_output].
  split; [now rewrite H4, H, <- app_assoc |]. split; [exact C |].
  right. exists reason, message. auto.
Qed.

Lemma settles_done reason k0 k :
  steady k0 k -> finalResult (sink_stream k0) = None ->
  stopReason (sink_output k) = stopReasonOfDone reason ->
  reason <> done_toolUse ->
  settled k0 (settleDone reason k).
Proof.
  intros (D & F & (events & H & C) & _) F0 Hr Hn. unfold settleDone, pushDone.
  destruct (closing_history (sink_stream k) (ev_done reason TheOutput) D
              (eq_trans F F0) eq_refl) as (H1 & H2 & H3 & H4).
  split; [exact H1 |]. split; [exact H2 |]. split; [exact H3 |].
  exists events, (ev_done reason TheOutput). cbn [sink_stream sink_output].
  split; [now rewrite H4, H, <- app_assoc |]. split; [exact C |].
  left. exists reason. auto.
Qed.

Context {S : Type}.
Variable request : S -> completion Retry.thrown Response * S.


End Stream.

(** A server that answers 429 with a text and no body. *)
Definition tooMany (n : nat) : completion Retry.thrown Response * nat :=
  (Returns (mkResponse false "429"%string "slow down"%string None),
   Datatypes.S n).


End KimiFacts.

(** ** Message utilities *)

Module MessageUtilsFacts.
Import JsString MessageUtils.
Local Close Scope string_scope.

Fixpoint noneOf (p : ascii -> bool) (s : string) : bool :=
  match s with
  | EmptyString => true
  | String c s' => negb (p c) && noneOf p s'
  end.

Lemma removeAll_none p : forall s, noneOf p (removeAll p s) = true.
Proof.
  induction s as [|c s IH]; simpl; [reflexivity |].
  destruct (p c) eqn:E; simpl; [exact IH | now rewrite E, IH].
Qed.

Lemma removeAll_fixed p : forall s, noneOf p s = true -> removeAll p s = s.
Proof.
  induction s as [|c s IH]; simpl; [reflexivity |].
  intros H. apply andb_true_iff in H as [Hc H]. apply negb_true_iff in Hc.
  now rewrite Hc, IH.
Qed.

Lemma removeAll_twice p q : forall s,
  removeAll q (removeAll p s) = removeAll (fun c => p c || q c) s.
Proof.
  induction s as [|c s IH]; simpl; [reflexivity |].
  destruct (p c); simpl; [exact IH |]. destruct (q c); now rewrite IH.
Qed.

Lemma removeAll_ext p q : (forall c, p c = q c) ->
  forall s, removeAll p s = removeAll q s.
Proof.
  intros H. induction s as [|c s IH]; simpl; [reflexivity |].
  now rewrite H, IH.
Qed.

Lemma sanitize_filter s : sanitizeContentString s = removeAll is_control s.
Proof.
  unfold sanitizeContentString. rewrite removeAll_twice.
  apply removeAll_ext. intros c. unfold is_control. now rewrite orb_assoc.
Qed.

Lemma removeAll_replaceCR p :
  p CR = true -> p LF = true ->
  forall s, removeAll p (replaceCR s) = removeAll p s.
Proof.
  intros Hcr Hlf. induction s as [|c s IH]; simpl; [reflexivity |].
  destruct (Ascii.eqb_spec c CR) as [->|N]; [now rewrite Hlf, Hcr, IH |].
  now rewrite IH.
Qed.

Lemma removeAll_replaceCRLF p :
  p CR = true -> p LF = true ->
  forall s, removeAll p (replaceCRLF s) = removeAll p s.
Proof.
  intros Hcr Hlf.
  assert (H : forall n s, (String.length s <= n)%nat ->
            removeAll p (replaceCRLF s) = removeAll p s).
  { induction n as [|n IH]; intros s Hn.
    - destruct s; [reflexivity | simpl in Hn; lia].
    - destruct s as [|c [|c' s'']]; [reflexivity | reflexivity |].
      cbn [replaceCRLF].
      destruct (Ascii.eqb_spec c CR) as [->|N]; cbn [andb].
      + destruct (Ascii.eqb_spec c' LF) as [->|N'].
        * cbn [removeAll]. rewrite Hlf, Hcr. apply IH. simpl in Hn. lia.
        * cbn [removeAll]. rewrite Hcr.
          change (removeAll p (replaceCRLF (String c' s''))
                  = removeAll p (String c' s'')).
          apply IH. simpl in *. lia.
      + change (removeAll p (String c (replaceCRLF (String c' s'')))
                = removeAll p (String c (String c' s''))).
        cbn [removeAll]. rewrite (IH (String c' s'')) by (simpl in *; lia).
        reflexivity. }
  intros s. now apply (H (String.length s)).
Qed.

Lemma replaceCR_none : forall s,
  noneOf (Ascii.eqb CR) (replaceCR s) = true.
Proof.
  induction s as [|c s IH]; [reflexivity |]. cbn [replaceCR noneOf].
  rewrite IH, andb_true_r.
  destruct (Ascii.eqb_spec c CR) as [->|N]; [reflexivity |].
  apply negb_true_iff. apply (proj2 (Ascii.eqb_neq _ _)). congruence.
Qed.

Lemma replaceCR_fixed : forall s,
  noneOf (Ascii.eqb CR) s = true -> replaceCR s = s.
Proof.
  induction s as [|c s IH]; [reflexivity |]. cbn [replaceCR noneOf].
  intros H. apply andb_true_iff in H as [Hc H]. apply negb_true_iff in Hc.
  rewrite Ascii.eqb_sym in Hc. now rewrite Hc, IH.
Qed.

Lemma replaceCRLF_cons c c' s :
  replaceCRLF (String c (String c' s))
  = if Ascii.eqb c CR && Ascii.eqb c' LF
    then String LF (replaceCRLF s)
    else String c (replaceCRLF (String c' s)).
Proof. reflexivity. Qed.

Lemma replaceCRLF_fixed :
  forall s, noneOf (Ascii.eqb CR) s = true -> replaceCRLF s = s.
Proof.
  assert (H : forall n s, (String.length s <= n)%nat ->
            noneOf (Ascii.eqb CR) s = true -> replaceCRLF s = s).
  { induction n as [|n IH]; intros s Hn Hs.
    - destruct s; [reflexivity | simpl in Hn; lia].
    - destruct s as [|c [|c' s'']]; [reflexivity | reflexivity |].
      rewrite replaceCRLF_cons.
      change (negb (Ascii.eqb CR c) && noneOf (Ascii.eqb CR) (String c' s'') = true)
        in Hs.
      apply andb_true_iff in Hs as [Hc Hs]. apply negb_true_iff in Hc.
      rewrite Ascii.eqb_sym in Hc. rewrite Hc. cbn [andb].
      rewrite (IH (String c' s'')); [reflexivity | simpl in *; lia | exact Hs]. }
  intros s. now apply (H (String.length s)).
Qed.

Lemma joinLines_single t : joinLines [t] = t.
Proof. reflexivity. Qed.

(** X30.  The message helpers.  [sanitizeContentString] takes out every
    control character, the code units 0 to 31 and 127, line feeds and
    tabs included, and nothing else; sanitising twice is sanitising
    once; and normalising the line endings first makes no difference
    to it.  [normalizeLineEndings] leaves no carriage return, changes
    nothing in a text without one, and so does nothing when done
    twice.  The text blocks and the image blocks of a content are a
    partition of its blocks; [messageHasImages] holds exactly when there
    is an image block; and the text of a content is the text of its
    text blocks. *)
Theorem message_helpers (text : string) (content : MessageContent) :
  sanitizeContentString text = removeAll is_control text /\
  noneOf is_control (sanitizeContentString text) = true /\
  sanitizeContentString (sanitizeContentString text)
  = sanitizeContentString text /\
  sanitizeContentString (normalizeLineEndings text)
  = sanitizeContentString text /\
  noneOf (Ascii.eqb CR) (normalizeLineEndings text) = true /\
  (noneOf (Ascii.eqb CR) text = true -> normalizeLineEndings text = text) /\
  normalizeLineEndings (normalizeLineEndings text) = normalizeLineEndings text /\
  Permutation (extractTextBlocks content ++ extractImageBlocks content)
    (match content with
     | Plain s => [TextPart s]
     | Parts parts => parts
     end) /\
  (messageHasImages content = true <-> extractImageBlocks content <> []) /\
  messageContentToString (Parts (extractTextBlocks content))
  = messageContentToString content.
Proof.
  assert (Hfix : forall s, noneOf (Ascii.eqb CR) s = true ->
            normalizeLineEndings s = s).
  { intros s H. unfold normalizeLineEndings.
    now rewrite (replaceCRLF_fixed s H), replaceCR_fixed. }
  split; [apply sanitize_filter |].
  split; [rewrite sanitize_filter; apply removeAll_none |].
  split; [rewrite !sanitize_filter; apply removeAll_fixed, removeAll_none |].
  split.
  { rewrite !sanitize_filter. unfold normalizeLineEndings.
    rewrite removeAll_replaceCR by reflexivity.
    now rewrite removeAll_replaceCRLF. }
  split; [apply replaceCR_none |].
  split; [apply Hfix |].
  split; [apply Hfix, replaceCR_none |].
  split.
  { destruct content as [s | parts]; simpl; [reflexivity |].
    induction parts as [|[t | d m] parts IH]; simpl; [constructor | |].
    - now constructor.
    - rewrite <- Permutation_middle. now constructor. }
  split.
  { destruct content as [s | parts]; simpl.
    - split; [discriminate | intros H; now destruct H].
    - induction parts as [|[t | d m] parts IH]; simpl.
      + split; [discriminate | intros H; now destruct H].
      + exact IH.
      + split; [discriminate | reflexivity]. }
  destruct content as [s | parts]; simpl; [reflexivity |].
  f_equal. f_equal.
  induction parts as [|[t | d m] parts IH]; simpl; [reflexivity | | exact IH].
  now rewrite IH.
Qed.

End MessageUtilsFacts.
